(** * discopy: rigid diagrams, snake removal, functors and the CQMap backend

    A shallow embedding of [discopy/rigid.py] and of the parts of
    [discopy/quantum.py] that the specification talks about, together with
    the properties the specification states about them.

    Conventions.
    - Python integers are [Z]; list indices and lengths are [nat].
    - A Python exception is a value of [exn]; code that can raise returns
      a [result].
    - A generator is a [trace]: the diagrams it yields, in order, and the
      way it ends. *)

From Stdlib Require Import String Ascii List ZArith Lia Bool Permutation.
Import ListNotations.

Local Open Scope Z_scope.

(** ** Python slices *)

(** [s[lo:]], [s[:hi]] and [s[lo:hi]] for indices that are not negative
    (every slice of the sources has that shape). *)
Definition slice_from {A} (lo : nat) (s : list A) : list A := skipn lo s.
Definition slice_to {A} (hi : nat) (s : list A) : list A := firstn hi s.
Definition slice {A} (lo hi : nat) (s : list A) : list A :=
  firstn (hi - lo) (skipn lo s).

(** Integer-indexed version: [s[k:]] and [s[:k]] with Python's treatment of
    a negative [k] (counted from the end, clamped at the start). *)
Definition clamp_index (k : Z) (n : nat) : nat :=
  if k <? 0 then Z.to_nat (Z.max 0 (Z.of_nat n + k)) else Z.to_nat k.
Definition zslice_to {A} (k : Z) (s : list A) : list A :=
  firstn (clamp_index k (length s)) s.
Definition zslice_from {A} (k : Z) (s : list A) : list A :=
  skipn (clamp_index k (length s)) s.

(** ** Objects and types (rigid.Ob, rigid.Ty) *)

Record Ob : Type := mkOb { name : string; z : Z }.

Definition Ob_l (x : Ob) : Ob := mkOb (name x) (z x - 1).
Definition Ob_r (x : Ob) : Ob := mkOb (name x) (z x + 1).

(** [Ob.__eq__]: equality of the pairs [(name, z)]. *)
Definition Ob_eqb (x y : Ob) : bool :=
  String.eqb (name x) (name y) && (z x =? z y).

(** A type is the list of its objects; [@] is concatenation, [Ty()] is
    the empty list. *)
Definition Ty : Type := list Ob.

Definition Ty_l (t : Ty) : Ty := map Ob_l (rev t).
Definition Ty_r (t : Ty) : Ty := map Ob_r (rev t).

Fixpoint Ty_eqb (s t : Ty) : bool :=
  match s, t with
  | [], [] => true
  | x :: s', y :: t' => Ob_eqb x y && Ty_eqb s' t'
  | _, _ => false
  end.

Lemma Ob_eqb_spec (x y : Ob) : reflect (x = y) (Ob_eqb x y).
Proof.
  destruct x as [n1 z1], y as [n2 z2]; unfold Ob_eqb; simpl.
  destruct (String.eqb_spec n1 n2) as [->|Hn]; simpl.
  - destruct (Z.eqb_spec z1 z2) as [->|Hz]; constructor; congruence.
  - constructor; congruence.
Qed.

Lemma Ty_eqb_spec (s t : Ty) : reflect (s = t) (Ty_eqb s t).
Proof.
  revert t; induction s as [|x s IH]; intros [|y t]; simpl;
    try (constructor; congruence).
  destruct (Ob_eqb_spec x y) as [->|Hxy]; simpl.
  - destruct (IH t) as [->|Hst]; constructor; congruence.
  - constructor; congruence.
Qed.

Lemma Ty_eqb_refl (t : Ty) : Ty_eqb t t = true.
Proof. destruct (Ty_eqb_spec t t); congruence. Qed.

Lemma Ty_eqb_eq (s t : Ty) : Ty_eqb s t = true <-> s = t.
Proof. destruct (Ty_eqb_spec s t); split; congruence. Qed.

Lemma Ty_eqb_neq (s t : Ty) : Ty_eqb s t = false <-> s <> t.
Proof. destruct (Ty_eqb_spec s t); split; congruence. Qed.

Lemma Ob_l_r (x : Ob) : Ob_r (Ob_l x) = x.
Proof. destruct x as [n k]; unfold Ob_r, Ob_l; simpl; f_equal; lia. Qed.

Lemma Ob_r_l (x : Ob) : Ob_l (Ob_r x) = x.
Proof. destruct x as [n k]; unfold Ob_r, Ob_l; simpl; f_equal; lia. Qed.

Lemma Ty_l_r (t : Ty) : Ty_r (Ty_l t) = t.
Proof.
  unfold Ty_r, Ty_l.
  rewrite <- map_rev, rev_involutive, map_map.
  rewrite <- (map_id t) at 2.
  apply map_ext; intro x; apply Ob_l_r.
Qed.

Lemma Ty_r_l (t : Ty) : Ty_l (Ty_r t) = t.
Proof.
  unfold Ty_r, Ty_l.
  rewrite <- map_rev, rev_involutive, map_map.
  rewrite <- (map_id t) at 2.
  apply map_ext; intro x; apply Ob_r_l.
Qed.

Lemma Ty_l_length (t : Ty) : length (Ty_l t) = length t.
Proof. unfold Ty_l; now rewrite length_map, length_rev. Qed.

Lemma Ty_r_length (t : Ty) : length (Ty_r t) = length t.
Proof. unfold Ty_r; now rewrite length_map, length_rev. Qed.

Lemma Ty_r_app (s t : Ty) : Ty_r (s ++ t) = Ty_r t ++ Ty_r s.
Proof. unfold Ty_r; now rewrite rev_app_distr, map_app. Qed.

Lemma Ty_l_app (s t : Ty) : Ty_l (s ++ t) = Ty_l t ++ Ty_l s.
Proof. unfold Ty_l; now rewrite rev_app_distr, map_app. Qed.

(** C3. For every type [t], [t.l.r == t] and [t.r.l == t]; for every object
    the two adjoints undo each other, [l] lowering and [r] raising the winding
    number [z] by one, and both reverse the sequence of objects. *)
Theorem adjoints_are_mutual_inverses :
  (forall t : Ty, Ty_r (Ty_l t) = t /\ Ty_l (Ty_r t) = t
                  /\ Ty_eqb (Ty_r (Ty_l t)) t = true
                  /\ Ty_eqb (Ty_l (Ty_r t)) t = true)
  /\ (forall x : Ob, Ob_r (Ob_l x) = x /\ Ob_l (Ob_r x) = x
                     /\ z (Ob_l x) = z x - 1 /\ z (Ob_r x) = z x + 1
                     /\ name (Ob_l x) = name x /\ name (Ob_r x) = name x)
  /\ (forall t : Ty, map name (Ty_l t) = rev (map name t)
                     /\ map name (Ty_r t) = rev (map name t)).
Proof.
  split; [|split].
  - intro t. rewrite Ty_l_r, Ty_r_l, Ty_eqb_refl. auto.
  - intro x. rewrite Ob_l_r, Ob_r_l. repeat split; reflexivity.
  - intro t. unfold Ty_l, Ty_r. rewrite !map_map. simpl.
    rewrite <- map_rev. auto.
Qed.

(** ** Exceptions and results *)

(** The texts of [discopy.messages], kept symbolic with their arguments. *)
Inductive message : Type :=
  | text (s : string)
  | are_not_adjoints (left right : Ty)
  | wrong_adjunction (left right : Ty) (cup : bool)
  | cup_vs_cups (left right : Ty)
  | cap_vs_caps (left right : Ty)
  | does_not_compose (cod dom : Ty).

Inductive exn : Type :=
  | TypeError (m : message)
  | ValueError (m : message)
  | AxiomError (m : message)
  | KeyError (m : message)
  | IndexError
  | InterchangerError (i : nat).

Inductive result (A : Type) : Type :=
  | Ok (a : A)
  | Raise (e : exn).
Arguments Ok {A} a.
Arguments Raise {A} e.

Definition bind {A B} (r : result A) (k : A -> result B) : result B :=
  match r with
  | Ok a => k a
  | Raise e => Raise e
  end.

Notation "x <- r ;; k" := (bind r (fun x => k))
  (at level 61, r at next level, right associativity).

Definition is_Ok {A} (r : result A) : bool :=
  match r with Ok _ => true | Raise _ => false end.

Definition is_AxiomError {A} (r : result A) : bool :=
  match r with Raise (AxiomError _) => true | _ => false end.

(** [map f xs] where [f] can raise: the first exception stops the traversal. *)
Fixpoint mapM {A B} (f : A -> result B) (xs : list A) : result (list B) :=
  match xs with
  | [] => Ok []
  | x :: xs' => y <- f x ;; ys <- mapM f xs' ;; Ok (y :: ys)
  end.

(** * quantum.py: bitstrings *)

(** The binary digits of a positive number, most significant first. *)
Fixpoint bin_pos (p : positive) : list ascii :=
  match p with
  | xH => ["1"%char]
  | xO q => bin_pos q ++ ["0"%char]
  | xI q => bin_pos q ++ ["1"%char]
  end.

(** ['{:0<length>b}'.format(i)]: sign, then zeros up to the width, then the
    binary digits. *)
Definition format_0b (length : nat) (i : Z) : list ascii :=
  let sign := match i with Zneg _ => ["-"%char] | _ => [] end in
  let digits := match i with
                | Z0 => ["0"%char]
                | Zpos p | Zneg p => bin_pos p
                end in
  sign ++ repeat "0"%char (length - List.length sign - List.length digits)
       ++ digits.

(** [int(c)] on a one-character string. *)
Definition int_of_char (c : ascii) : result Z :=
  let n := nat_of_ascii c in
  if (48 <=? n)%nat && (n <=? 57)%nat then Ok (Z.of_nat (n - 48))
  else Raise (ValueError (text "invalid literal for int() with base 10")).

Definition index2bitstring (i : Z) (length : nat) : result (list Z) :=
  if i >=? 2 ^ Z.of_nat length then
    Raise (ValueError (text "Index should be less than 2 ** length."))
  else if (i =? 0) && (length =? 0)%nat then Ok []
  else mapM int_of_char (format_0b length i).

(** [sum(value * 2 ** i for i, value in enumerate(bits))], counting from
    [i]. *)
Fixpoint sum_enumerate (i : nat) (bits : list Z) : Z :=
  match bits with
  | [] => 0
  | value :: rest => value * 2 ^ Z.of_nat i + sum_enumerate (S i) rest
  end.

Definition bitstring2index (bitstring : list Z) : Z :=
  sum_enumerate 0 (rev bitstring).

Example index2bitstring_42 :
  index2bitstring 42 8 = Ok [0; 0; 1; 0; 1; 0; 1; 0].
Proof. reflexivity. Qed.

Example bitstring2index_42 : bitstring2index [0; 0; 1; 0; 1; 0; 1; 0] = 42.
Proof. reflexivity. Qed.

(** *** Round trip of the two encodings *)

Section Bitstrings.

Let bit_of (c : ascii) : Z := if Ascii.eqb c "1"%char then 1 else 0.

Definition binary_digit (c : ascii) : Prop := c = "0"%char \/ c = "1"%char.

Lemma mapM_binary_digits (cs : list ascii) :
  Forall binary_digit cs -> mapM int_of_char cs = Ok (map bit_of cs).
Proof.
  induction 1 as [|c cs [-> | ->] _ IH]; simpl; try rewrite IH; reflexivity.
Qed.

Lemma bin_pos_digits (p : positive) : Forall binary_digit (bin_pos p).
Proof.
  induction p as [q IH|q IH|]; simpl.
  - apply Forall_app; split; [exact IH|]. constructor; [now right|constructor].
  - apply Forall_app; split; [exact IH|]. constructor; [now left|constructor].
  - constructor; [now right|constructor].
Qed.

Lemma repeat_zero_digits (k : nat) : Forall binary_digit (repeat "0"%char k).
Proof. induction k; simpl; constructor; unfold binary_digit; auto. Qed.

Lemma sum_enumerate_succ (i : nat) (bits : list Z) :
  sum_enumerate (S i) bits = 2 * sum_enumerate i bits.
Proof.
  revert i; induction bits as [|v bits IH]; intro i; cbn [sum_enumerate].
  - reflexivity.
  - rewrite (IH (S i)), Nat2Z.inj_succ, Z.pow_succ_r by lia. ring.
Qed.

Lemma sum_enumerate_zeros (i k : nat) (bits : list Z) :
  sum_enumerate i (bits ++ repeat 0 k) = sum_enumerate i bits.
Proof.
  revert i; induction bits as [|v bits IH]; intro i; simpl.
  - revert i; induction k as [|k IHk]; intro i; cbn [repeat sum_enumerate].
    + reflexivity.
    + rewrite IHk. lia.
  - now rewrite IH.
Qed.

Lemma bitstring2index_snoc (bits : list Z) (b : Z) :
  bitstring2index (bits ++ [b]) = 2 * bitstring2index bits + b.
Proof.
  unfold bitstring2index. rewrite rev_app_distr. cbn [rev app sum_enumerate].
  rewrite sum_enumerate_succ. change (2 ^ Z.of_nat 0) with 1. ring.
Qed.

Lemma repeat_rev {A} (a : A) (k : nat) : rev (repeat a k) = repeat a k.
Proof.
  induction k as [|k IH]; simpl; auto.
  rewrite IH. clear IH. induction k; simpl; congruence.
Qed.

Lemma bitstring2index_pad (k : nat) (bits : list Z) :
  bitstring2index (repeat 0 k ++ bits) = bitstring2index bits.
Proof.
  unfold bitstring2index.
  now rewrite rev_app_distr, repeat_rev, sum_enumerate_zeros.
Qed.

Lemma bitstring2index_bin_pos (p : positive) :
  bitstring2index (map bit_of (bin_pos p)) = Z.pos p.
Proof.
  induction p as [q IH|q IH|]; simpl bin_pos.
  - rewrite map_app; cbn [map]. rewrite bitstring2index_snoc, IH.
    change (bit_of "1"%char) with 1. lia.
  - rewrite map_app; cbn [map]. rewrite bitstring2index_snoc, IH.
    change (bit_of "0"%char) with 0. lia.
  - reflexivity.
Qed.

Lemma bin_pos_length (p : positive) (n : nat) :
  Z.pos p < 2 ^ Z.of_nat n -> (List.length (bin_pos p) <= n)%nat.
Proof.
  revert n; induction p as [q IH|q IH|]; intros [|n] H; simpl bin_pos;
    try (simpl in H; lia);
    rewrite ?length_app; simpl List.length;
    rewrite ?Nat2Z.inj_succ, ?Z.pow_succ_r in H by lia.
  - specialize (IH n). lia.
  - specialize (IH n). lia.
  - lia.
Qed.

Lemma map_bit_of_zeros (k : nat) :
  map bit_of (repeat "0"%char k) = repeat 0 k.
Proof.
  induction k as [|k IH]; cbn [repeat map]; [reflexivity|].
  rewrite IH. reflexivity.
Qed.

Lemma bit_of_01 (cs : list ascii) :
  Forall (fun b => b = 0 \/ b = 1) (map bit_of cs).
Proof.
  induction cs as [|c cs IH]; simpl; constructor; auto.
  unfold bit_of; destruct (Ascii.eqb c "1"); auto.
Qed.

(** C9. For every length [n] and index [0 <= i < 2 ** n],
    [index2bitstring(i, n)] returns [n] entries, each 0 or 1, which
    [bitstring2index] sends back to [i]; and [index2bitstring(i, n)] raises
    a ValueError whenever [i >= 2 ** n]. *)
Theorem bitstring_round_trip (n : nat) (i : Z) :
  (0 <= i < 2 ^ Z.of_nat n ->
   exists bits, index2bitstring i n = Ok bits
                /\ bitstring2index bits = i
                /\ List.length bits = n
                /\ Forall (fun b => b = 0 \/ b = 1) bits)
  /\ (i >= 2 ^ Z.of_nat n ->
      exists m, index2bitstring i n = Raise (ValueError m)).
Proof.
  split; intro H; unfold index2bitstring.
  - destruct (Z.geb_spec i (2 ^ Z.of_nat n)) as [Hge|_]; [lia|].
    destruct i as [|p|p]; [| |lia].
    + destruct n as [|n]; simpl andb; cbv iota.
      * exists []. repeat split; auto.
      * unfold format_0b. cbn [app List.length].
        rewrite mapM_binary_digits
          by (apply Forall_app; split;
              [apply repeat_zero_digits
              | constructor; [now left|constructor]]).
        eexists; split; [reflexivity|].
        rewrite map_app, map_bit_of_zeros. split; [|split].
        -- rewrite bitstring2index_pad. reflexivity.
        -- rewrite length_app, repeat_length. simpl. lia.
        -- rewrite <- map_bit_of_zeros, <- map_app. apply bit_of_01.
    + simpl andb; cbv iota. unfold format_0b. cbn [app List.length].
      pose proof (bin_pos_length p n (proj2 H)) as Hlen.
      rewrite mapM_binary_digits
        by (apply Forall_app; split;
            [apply repeat_zero_digits | apply bin_pos_digits]).
      eexists; split; [reflexivity|].
      rewrite map_app, map_bit_of_zeros. split; [|split].
      * rewrite bitstring2index_pad. apply bitstring2index_bin_pos.
      * rewrite length_app, repeat_length, length_map. lia.
      * rewrite <- map_bit_of_zeros, <- map_app. apply bit_of_01.
  - destruct (Z.geb_spec i (2 ^ Z.of_nat n)) as [_|Hlt]; [|lia].
    eexists; reflexivity.
Qed.

End Bitstrings.

Lemma bitstring_round_trip_witness :
  (exists bits, index2bitstring 5 3 = Ok bits
                /\ bitstring2index bits = 5
                /\ List.length bits = 3%nat
                /\ Forall (fun b => b = 0 \/ b = 1) bits)
  /\ (exists m, index2bitstring 8 3 = Raise (ValueError m)).
Proof.
  split.
  - apply (proj1 (bitstring_round_trip 3 5)). simpl. lia.
  - apply (proj2 (bitstring_round_trip 3 8)). simpl. lia.
Defined.

(** * quantum.py: classical-quantum dimensions *)

(** [discopy.tensor.Dim] is not among the sources. A dimension is kept as
    the list of its factors; factors equal to 1 are dropped, so that
    [Dim(1)] is the empty product (the unit that [CQ.__repr__] tests with
    [not self.classical]). *)
Definition Dim : Type := list nat.
Definition Dim_init (dims : list nat) : Dim := filter (fun d => 1 <? d)%nat dims.

Record CQ : Type := mkCQ { classical : Dim; quantum : Dim }.

(** The objects of a [CQ] type, [C(d)] for every classical factor followed
    by [Q(d)] for every quantum factor; two [CQ] types are equal when their
    objects are. *)
Inductive CQ_object : Type := C_ob (dim : nat) | Q_ob (dim : nat).
Definition CQ_objects (t : CQ) : list CQ_object :=
  map C_ob (classical t) ++ map Q_ob (quantum t).

Definition CQ_unit : CQ := mkCQ (Dim_init [1%nat]) (Dim_init [1%nat]).
Definition CQ_tensor (s t : CQ) : CQ :=
  mkCQ (classical s ++ classical t) (quantum s ++ quantum t).
Definition CQ_l (t : CQ) : CQ := mkCQ (rev (classical t)) (rev (quantum t)).
Definition CQ_r (t : CQ) : CQ := CQ_l t.

Definition C (dim : Dim) : CQ := mkCQ dim (Dim_init [1%nat]).
Definition Q (dim : Dim) : CQ := mkCQ (Dim_init [1%nat]) dim.

(** [BitsAndQubits]: a type whose adjoints only reverse the objects. *)
Definition BitsAndQubits : Type := Ty.
Definition BitsAndQubits_l (t : BitsAndQubits) : BitsAndQubits := rev t.
Definition BitsAndQubits_r (t : BitsAndQubits) : BitsAndQubits :=
  BitsAndQubits_l t.

Definition bit : Ob := mkOb "bit" 0.
Definition qubit : Ob := mkOb "qubit" 0.

Lemma CQ_objects_inj (s t : CQ) : CQ_objects s = CQ_objects t -> s = t.
Proof.
  destruct s as [c1 q1], t as [c2 q2]; unfold CQ_objects; simpl.
  revert c2; induction c1 as [|a c1 IH]; intros [|b c2] H; simpl in H.
  - f_equal. revert q2 H; induction q1 as [|x q1 IHq]; intros [|y q2] H;
      simpl in H; try discriminate; auto.
    injection H as -> H. f_equal. now apply IHq.
  - destruct q1; discriminate.
  - destruct q2; discriminate.
  - injection H as -> H. apply IH in H. congruence.
Qed.

(** C10. In both backend type algebras the two duals coincide, both only
    reverse the sequences, and taking the dual twice gives the type back. *)
Theorem backend_types_self_dual :
  (forall t : CQ,
      CQ_l t = CQ_r t
      /\ classical (CQ_l t) = rev (classical t)
      /\ quantum (CQ_l t) = rev (quantum t)
      /\ CQ_objects (CQ_l t) = CQ_objects (CQ_r t)
      /\ CQ_l (CQ_l t) = t /\ CQ_r (CQ_r t) = t)
  /\ (forall t : BitsAndQubits,
         BitsAndQubits_l t = BitsAndQubits_r t
         /\ BitsAndQubits_l t = rev t
         /\ BitsAndQubits_l (BitsAndQubits_l t) = t
         /\ BitsAndQubits_r (BitsAndQubits_r t) = t).
Proof.
  split.
  - intros [c q]. unfold CQ_r, CQ_l; simpl. rewrite !rev_involutive.
    repeat split.
  - intro t. unfold BitsAndQubits_r, BitsAndQubits_l.
    rewrite rev_involutive. repeat split.
Qed.

(** * quantum.py: CQMap.measure *)

(** A classical-quantum map: its domain, its codomain and the entries of its
    array. numpy keeps the entries in row-major order, the shape being
    [dom.classical @ dom.quantum @ dom.quantum] followed by the same for the
    codomain. *)
Record CQMap : Type := mkCQMap { cq_dom : CQ; cq_cod : CQ; array : list Z }.

Definition CQMap_shape (m : CQMap) : list nat :=
  (classical (cq_dom m) ++ quantum (cq_dom m) ++ quantum (cq_dom m))
  ++ (classical (cq_cod m) ++ quantum (cq_cod m) ++ quantum (cq_cod m)).

(** Row-major position of a multi-index in an array of the given shape. *)
Fixpoint flat_index (shape index : list nat) : nat :=
  match shape, index with
  | _ :: shape', i :: index' =>
      (i * fold_right Nat.mul 1 shape' + flat_index shape' index')%nat
  | _, _ => 0%nat
  end.

Definition entry (m : CQMap) (index : list nat) : Z :=
  nth (flat_index (CQMap_shape m) index) (array m) 0.

(** [int(b)] for a boolean. *)
Definition int_of_bool (b : bool) : Z := if b then 1 else 0.

Section Measure.

(** The tensor product of two CQMaps is computed through
    [discopy.tensor.TensorFunctor], which is not among the sources;
    [measure] only uses it for dimensions with two factors or more. *)
Variable CQMap_tensor : CQMap -> CQMap -> CQMap.

Definition measure_destructive (d : nat) : list Z :=
  flat_map (fun i => flat_map (fun j => map (fun k =>
    int_of_bool ((i =? j)%nat && (j =? k)%nat))
    (seq 0 d)) (seq 0 d)) (seq 0 d).

Definition measure_nondestructive (d : nat) : list Z :=
  flat_map (fun i => flat_map (fun j => flat_map (fun k =>
    flat_map (fun l => map (fun m =>
      int_of_bool ((i =? j)%nat && (j =? k)%nat
                   && (k =? l)%nat && (l =? m)%nat))
    (seq 0 d)) (seq 0 d)) (seq 0 d)) (seq 0 d)) (seq 0 d).

Definition measure1 (d : nat) (destructive : bool) : CQMap :=
  if destructive
  then mkCQMap (Q [d]) (C [d]) (measure_destructive d)
  else mkCQMap (Q [d]) (CQ_tensor (C [d]) (Q [d])) (measure_nondestructive d).

Fixpoint measure (dim : Dim) (destructive : bool) : CQMap :=
  match dim with
  | [] => mkCQMap CQ_unit CQ_unit [1]
  | d :: rest =>
      match rest with
      | [] => measure1 d destructive
      | _ => CQMap_tensor (measure1 d destructive) (measure rest destructive)
      end
  end.

(** C5. [CQMap.measure(Dim(2), destructive=True)] goes from [Q(Dim(2))]
    to [C(Dim(2))]; its array, read as a tensor with three indices in
    {0,1}, holds only 0 and 1 and is 1 exactly at (0,0,0) and (1,1,1). *)
Theorem measure_dim2_destructive :
  let m := measure (Dim_init [2%nat]) true in
  cq_dom m = Q (Dim_init [2%nat]) /\ cq_cod m = C (Dim_init [2%nat])
  /\ CQMap_shape m = [2; 2; 2]%nat
  /\ array m = [1; 0; 0; 0; 0; 0; 0; 1]
  /\ Forall (fun v => v = 0 \/ v = 1) (array m)
  /\ List.length (filter (fun v => negb (v =? 0)) (array m)) = 2%nat
  /\ entry m [0; 0; 0]%nat = 1 /\ entry m [1; 1; 1]%nat = 1
  /\ (forall i j k, (i < 2)%nat -> (j < 2)%nat -> (k < 2)%nat ->
        entry m [i; j; k] <> 0 -> (i = 0 /\ j = 0 /\ k = 0)%nat
                                   \/ (i = 1 /\ j = 1 /\ k = 1)%nat).
Proof.
  cbv zeta.
  assert (Harr : array (measure (Dim_init [2%nat]) true)
                 = [1; 0; 0; 0; 0; 0; 0; 1]) by reflexivity.
  repeat match goal with |- _ /\ _ => split end; try reflexivity.
  - rewrite Harr. repeat (constructor; [(now left) || (now right)|]).
    constructor.
  - intros i j k Hi Hj Hk.
    destruct i as [|[|i]]; destruct j as [|[|j]]; destruct k as [|[|k]];
      try lia; vm_compute; intro H; auto; congruence.
Qed.

End Measure.

(** * rigid.py: generators and diagrams *)

(** The generators: an ordinary box, a swap, a cup or a cap. [Cup] and [Cap]
    keep their two operands; [isinstance(box, Cup)] is a test on the
    constructor. *)
Inductive Box : Type :=
  | GenBox (box_name : string) (box_dom box_cod : Ty)
           (data : option Z) (_dagger : bool)
  | Swap (left right : Ty)
  | Cup (left right : Ty)
  | Cap (left right : Ty).

Definition box_dom (b : Box) : Ty :=
  match b with
  | GenBox _ d _ _ _ => d
  | Swap l r => l ++ r
  | Cup l r => l ++ r
  | Cap _ _ => []
  end.

Definition box_cod (b : Box) : Ty :=
  match b with
  | GenBox _ _ c _ _ => c
  | Swap l r => r ++ l
  | Cup _ _ => []
  | Cap l r => l ++ r
  end.

Definition isCup (b : Box) : bool := match b with Cup _ _ => true | _ => false end.
Definition isCap (b : Box) : bool := match b with Cap _ _ => true | _ => false end.

(** [Cup.__init__]. The operands are types by construction, so the two
    [TypeError] branches cannot be taken. *)
Definition Cup_init (left right : Ty) : result Box :=
  if negb (length left =? 1)%nat || negb (length right =? 1)%nat then
    Raise (ValueError (cup_vs_cups left right))
  else if negb (Ty_eqb (Ty_r left) right) && negb (Ty_eqb left (Ty_r right)) then
    Raise (AxiomError (are_not_adjoints left right))
  else if Ty_eqb left (Ty_r right) then
    Raise (AxiomError (wrong_adjunction left right true))
  else Ok (Cup left right).

(** [Cap.__init__]. *)
Definition Cap_init (left right : Ty) : result Box :=
  if negb (length left =? 1)%nat || negb (length right =? 1)%nat then
    Raise (ValueError (cap_vs_caps left right))
  else if negb (Ty_eqb left (Ty_r right)) && negb (Ty_eqb (Ty_r left) right) then
    Raise (AxiomError (are_not_adjoints left right))
  else if Ty_eqb (Ty_r left) right then
    Raise (AxiomError (wrong_adjunction left right false))
  else Ok (Cap left right).

(** Modelled from the spec: the diagram value of [discopy.monoidal.Diagram]
    ([monoidal.py] is not among the sources). A diagram is a domain, a
    codomain and the ordered sequence of its layers, each a generator with
    its horizontal offset; [boxes] and [offsets] are the two projections the
    sources index. *)
Record Diagram : Type := mkDiagram {
  dom : Ty;
  cod : Ty;
  layers : list (Box * Z)
}.

Definition boxes (d : Diagram) : list Box := map fst (layers d).
Definition offsets (d : Diagram) : list Z := map snd (layers d).

(** [Diagram(dom, cod, boxes, offsets)]. *)
Definition Diagram_init (dom cod : Ty) (boxes : list Box) (offsets : list Z)
  : Diagram :=
  mkDiagram dom cod (combine boxes offsets).

(** [len(diagram)]. *)
Definition len (d : Diagram) : nat := length (layers d).

(** [Id(dom)]: [Diagram(dom, dom, [], [])]. *)
Definition Id (t : Ty) : Diagram := Diagram_init t t [] [].

(** A box seen as a diagram: [Diagram(dom, cod, [self], [0])]. *)
Definition box_diagram (b : Box) : Diagram :=
  Diagram_init (box_dom b) (box_cod b) [b] [0].

(** Modelled from the spec: [then(d1, d2)], sequential composition ([>>]);
    it fails unless [d1.cod == d2.dom], concatenates the layers and keeps the
    offsets. *)
Definition then_ (d1 d2 : Diagram) : result Diagram :=
  if Ty_eqb (cod d1) (dom d2)
  then Ok (mkDiagram (dom d1) (cod d2) (layers d1 ++ layers d2))
  else Raise (AxiomError (does_not_compose (cod d1) (dom d2))).

Definition shift_layer (n : Z) (l : Box * Z) : Box * Z := (fst l, snd l + n).

(** Modelled from the spec: [tensor(d1, d2)], parallel composition ([@]);
    the offsets of [d2] are shifted by the length of [d1.cod]. *)
Definition tensor (d1 d2 : Diagram) : Diagram :=
  mkDiagram (dom d1 ++ dom d2) (cod d1 ++ cod d2)
            (layers d1 ++ map (shift_layer (Z.of_nat (length (cod d1)))) (layers d2)).

Declare Scope diagram_scope.
Delimit Scope diagram_scope with diagram.
Infix "@@" := tensor (at level 40, left associativity) : diagram_scope.
Local Open Scope diagram_scope.

(** ** Nested cups and caps *)

Section Cups.

(** [cup_factory] builds the diagram of one cup (or cap) and may raise. *)
Variable cup_factory : Ty -> Ty -> result Diagram.
Variable reverse : bool.

(** The body of the [for i in range(len(left))] loop of [cups]. *)
Definition cups_step (left right : Ty) (res : Diagram) (i : nat)
  : result Diagram :=
  let j := (length left - i - 1)%nat in
  cup <- cup_factory (slice j (j + 1) left) (slice i (i + 1) right) ;;
  let layer := Id (slice_to j left) @@ cup @@ Id (slice_from (i + 1) right) in
  if reverse then then_ layer res else then_ res layer.

Fixpoint cups_loop (left right : Ty) (res : Diagram) (range : list nat)
  : result Diagram :=
  match range with
  | [] => Ok res
  | i :: range' =>
      res' <- cups_step left right res i ;;
      cups_loop left right res' range'
  end.

Definition cups_with (left right : Ty) : result Diagram :=
  if negb (Ty_eqb (Ty_r left) right) && negb (Ty_eqb (Ty_r right) left) then
    Raise (AxiomError (are_not_adjoints left right))
  else
    cups_loop left right (Id (left ++ right)) (seq 0 (length left)).

End Cups.

(** The default factories: [Cup] and [Cap], each box seen as a diagram. *)
Definition Cup_factory (l r : Ty) : result Diagram :=
  b <- Cup_init l r ;; Ok (box_diagram b).
Definition Cap_factory (l r : Ty) : result Diagram :=
  b <- Cap_init l r ;; Ok (box_diagram b).

Definition cups (left right : Ty) : result Diagram :=
  cups_with Cup_factory false left right.

Definition caps (left right : Ty) : result Diagram :=
  cups_with Cap_factory true left right.

(** [Diagram.transpose]. *)
Definition transpose (self : Diagram) (left : bool) : result Diagram :=
  if left then
    caps_ <- caps (dom self) (Ty_l (dom self)) ;;
    top <- then_ (Id (Ty_l (cod self)) @@ caps_)
                 (Id (Ty_l (cod self)) @@ self @@ Id (Ty_l (dom self))) ;;
    cups_ <- cups (Ty_l (cod self)) (cod self) ;;
    then_ top (cups_ @@ Id (Ty_l (dom self)))
  else
    caps_ <- caps (Ty_r (dom self)) (dom self) ;;
    top <- then_ (caps_ @@ Id (Ty_r (cod self)))
                 (Id (Ty_r (dom self)) @@ self @@ Id (Ty_r (cod self))) ;;
    cups_ <- cups (cod self) (Ty_r (cod self)) ;;
    then_ top (Id (Ty_r (dom self)) @@ cups_).

Section CupsExamples.
Let a : Ty := [mkOb "a" 0].
Let b : Ty := [mkOb "b" 0].

Example cups_a : cups a (Ty_r a) = Ok (box_diagram (Cup a (Ty_r a))).
Proof. reflexivity. Qed.

Example cups_ab :
  Ok (A := Diagram) (mkDiagram (a ++ b ++ Ty_r (a ++ b)) []
        [(Cup b (Ty_r b), 1); (Cup a (Ty_r a), 0)])
  = cups (a ++ b) (Ty_r (a ++ b)).
Proof. reflexivity. Qed.

Example caps_ab :
  Ok (A := Diagram) (mkDiagram [] (a ++ b ++ Ty_l (a ++ b))
        [(Cap a (Ty_l a), 0); (Cap b (Ty_l b), 1)])
  = caps (a ++ b) (Ty_l (a ++ b)).
Proof. reflexivity. Qed.
End CupsExamples.

(** ** Cup and Cap constructors: arity *)

(** C7. Building one [Cup(left, right)] or [Cap(left, right)] with an operand
    that is not a single atomic type raises the arity error, which in the
    sources is the [ValueError] carrying the [cup_vs_cups] (resp.
    [cap_vs_caps]) message. *)
Theorem cup_cap_arity_error (left right : Ty) :
  length left <> 1%nat \/ length right <> 1%nat ->
  Cup_init left right = Raise (ValueError (cup_vs_cups left right))
  /\ Cap_init left right = Raise (ValueError (cap_vs_caps left right)).
Proof.
  intro H. unfold Cup_init, Cap_init.
  assert (Hb : negb (length left =? 1)%nat || negb (length right =? 1)%nat = true).
  { destruct (Nat.eqb_spec (length left) 1), (Nat.eqb_spec (length right) 1);
      simpl; auto. lia. }
  rewrite Hb. split; reflexivity.
Qed.

Lemma cup_cap_arity_error_witness :
  Cup_init [mkOb "a" 0; mkOb "b" 0] [mkOb "b" 1; mkOb "a" 1]
  = Raise (ValueError (cup_vs_cups [mkOb "a" 0; mkOb "b" 0]
                                   [mkOb "b" 1; mkOb "a" 1]))
  /\ Cap_init [mkOb "a" 0; mkOb "b" 0] [mkOb "b" 1; mkOb "a" 1]
     = Raise (ValueError (cap_vs_caps [mkOb "a" 0; mkOb "b" 0]
                                      [mkOb "b" 1; mkOb "a" 1])).
Proof.
  apply cup_cap_arity_error. left. simpl. lia.
Defined.

(** ** Facts about slices *)

Lemma slice_singleton {A} (d : A) (l : list A) (j : nat) :
  (j < length l)%nat -> slice j (j + 1) l = [nth j l d].
Proof.
  unfold slice. replace (j + 1 - j)%nat with 1%nat by lia.
  revert j; induction l as [|x l IH]; intros [|j] H; simpl in *; try lia.
  - reflexivity.
  - apply IH. lia.
Qed.

Lemma firstn_succ_nth {A} (d : A) (l : list A) (j : nat) :
  (j < length l)%nat -> firstn (S j) l = firstn j l ++ [nth j l d].
Proof.
  revert j; induction l as [|x l IH]; intros [|j] H; simpl in *; try lia.
  - reflexivity.
  - f_equal. apply IH. lia.
Qed.

Lemma skipn_nth_cons {A} (d : A) (l : list A) (k : nat) :
  (k < length l)%nat -> skipn k l = nth k l d :: skipn (S k) l.
Proof.
  revert k; induction l as [|x l IH]; intros [|k] H; simpl in *; try lia.
  - reflexivity.
  - apply IH. lia.
Qed.

Lemma Ty_r_nth (t : Ty) (i : nat) (d : Ob) :
  (i < length t)%nat ->
  nth i (Ty_r t) (Ob_r d) = Ob_r (nth (length t - i - 1) t d).
Proof.
  intro H. unfold Ty_r. rewrite map_nth, rev_nth by lia.
  do 2 f_equal. lia.
Qed.

Lemma Ob_r_neq (x : Ob) : Ob_r x <> x.
Proof. destruct x as [n k]. unfold Ob_r; simpl. intro H. injection H. lia. Qed.

Lemma Ob_r_r_neq (x : Ob) : Ob_r (Ob_r x) <> x.
Proof. destruct x as [n k]. unfold Ob_r; simpl. intro H. injection H. lia. Qed.

Lemma Cup_init_adjoint (x : Ob) :
  Cup_init [x] [Ob_r x] = Ok (Cup [x] [Ob_r x]).
Proof.
  unfold Cup_init. simpl length. simpl orb. cbv iota.
  change (Ty_r [x]) with [Ob_r x]. rewrite Ty_eqb_refl. simpl andb. cbv iota.
  change (Ty_r [Ob_r x]) with [Ob_r (Ob_r x)].
  destruct (Ty_eqb_spec [x] [Ob_r (Ob_r x)]) as [E|_]; [|reflexivity].
  injection E as E. symmetry in E. now apply Ob_r_r_neq in E.
Qed.

Lemma Cap_init_adjoint (x : Ob) :
  Cap_init [Ob_r x] [x] = Ok (Cap [Ob_r x] [x]).
Proof.
  unfold Cap_init. simpl length. simpl orb. cbv iota.
  change (Ty_r [x]) with [Ob_r x]. rewrite Ty_eqb_refl. simpl andb. cbv iota.
  change (Ty_r [Ob_r x]) with [Ob_r (Ob_r x)].
  destruct (Ty_eqb_spec [Ob_r (Ob_r x)] [x]) as [E|_]; [|reflexivity].
  injection E as E. now apply Ob_r_r_neq in E.
Qed.

Lemma Cup_init_wrong (x : Ob) :
  Cup_init [Ob_r x] [x]
  = Raise (AxiomError (wrong_adjunction [Ob_r x] [x] true)).
Proof.
  unfold Cup_init. simpl length. simpl orb. cbv iota.
  change (Ty_r [x]) with [Ob_r x]. rewrite Ty_eqb_refl.
  rewrite andb_false_r. reflexivity.
Qed.

Lemma Cap_init_wrong (x : Ob) :
  Cap_init [x] [Ob_r x]
  = Raise (AxiomError (wrong_adjunction [x] [Ob_r x] false)).
Proof.
  unfold Cap_init. simpl length. simpl orb. cbv iota.
  change (Ty_r [x]) with [Ob_r x]. rewrite Ty_eqb_refl.
  rewrite andb_false_r. reflexivity.
Qed.

Lemma tensor_Id_box_Id (a b : Ty) (c : Box) :
  Id a @@ box_diagram c @@ Id b
  = mkDiagram (a ++ box_dom c ++ b) (a ++ box_cod c ++ b)
              [(c, Z.of_nat (length a))].
Proof.
  unfold tensor, Id, box_diagram, Diagram_init, shift_layer; simpl.
  now rewrite <- !app_assoc.
Qed.

(** ** Nested cups and caps: when they succeed *)

(** The layer that step [i] of [cups] (resp. [caps]) adds. *)
Definition cup_layer (left right : Ty) (i : nat) : Box * Z :=
  let j := (length left - i - 1)%nat in
  (Cup (slice j (j + 1) left) (slice i (i + 1) right), Z.of_nat j).

Definition cap_layer (left right : Ty) (i : nat) : Box * Z :=
  let j := (length left - i - 1)%nat in
  (Cap (slice j (j + 1) left) (slice i (i + 1) right), Z.of_nat j).

Lemma cups_loop_adjoint (left : Ty) :
  forall (m k : nat) (res : Diagram),
    (k + m = length left)%nat ->
    cod res = firstn (length left - k) left ++ skipn k (Ty_r left) ->
    cups_loop Cup_factory false left (Ty_r left) res (seq k m)
    = Ok (mkDiagram (dom res) []
            (layers res ++ map (cup_layer left (Ty_r left)) (seq k m))).
Proof.
  set (d := mkOb "" 0).
  induction m as [|m IH]; intros k [rd rc rl] Hk Hcod;
    cbn [cod dom layers seq cups_loop map app] in Hcod |- *.
  - replace (length left - k)%nat with 0%nat in Hcod by lia.
    rewrite skipn_all2 in Hcod by (rewrite Ty_r_length; lia).
    simpl in Hcod. subst rc. now rewrite app_nil_r.
  - unfold cups_step, Cup_factory, cup_layer.
    remember (length left - k - 1)%nat as j eqn:Ej.
    assert (Hj : (j < length left)%nat) by lia.
    assert (Hk' : (k < length (Ty_r left))%nat) by (rewrite Ty_r_length; lia).
    assert (Hx : nth k (Ty_r left) (Ob_r d) = Ob_r (nth j left d))
      by (rewrite Ty_r_nth by lia; now subst j).
    rewrite (slice_singleton d _ _ Hj), (slice_singleton (Ob_r d) _ _ Hk'), Hx.
    rewrite Cup_init_adjoint. cbn [bind].
    rewrite tensor_Id_box_Id. unfold then_. cbn [cod dom layers box_dom box_cod].
    unfold slice_to, slice_from.
    replace (Nat.add k 1) with (S k) by lia.
    assert (E : rc = firstn j left ++ ([nth j left d] ++ [Ob_r (nth j left d)])
                     ++ skipn (S k) (Ty_r left)).
    { rewrite Hcod. replace (length left - k)%nat with (S j) by lia.
      rewrite (firstn_succ_nth d) by lia.
      rewrite (skipn_nth_cons (Ob_r d)) by lia.
      rewrite Hx. now rewrite <- !app_assoc. }
    rewrite <- E, Ty_eqb_refl. cbn [bind].
    rewrite IH; cbn [dom cod layers]; try lia.
    + rewrite <- app_assoc. cbn [app]. rewrite length_firstn.
      replace (Nat.min j (length left)) with j by lia. reflexivity.
    + replace (length left - S k)%nat with j by lia. reflexivity.
Qed.

Lemma caps_loop_adjoint (right : Ty) :
  forall (m k : nat) (res : Diagram),
    (k + m = length right)%nat ->
    dom res = firstn (length right - k) (Ty_r right) ++ skipn k right ->
    cups_loop Cap_factory true (Ty_r right) right res (seq k m)
    = Ok (mkDiagram [] (cod res)
            (map (cap_layer (Ty_r right) right) (rev (seq k m)) ++ layers res)).
Proof.
  set (d := mkOb "" 0).
  induction m as [|m IH]; intros k [rd rc rl] Hk Hdom;
    cbn [cod dom layers seq cups_loop map rev app] in Hdom |- *.
  - replace (length right - k)%nat with 0%nat in Hdom by lia.
    rewrite skipn_all2 in Hdom by lia.
    simpl in Hdom. subst rd. reflexivity.
  - unfold cups_step, Cap_factory, cap_layer. rewrite Ty_r_length.
    remember (length right - k - 1)%nat as j eqn:Ej.
    assert (Hj : (j < length (Ty_r right))%nat) by (rewrite Ty_r_length; lia).
    assert (Hk' : (k < length right)%nat) by lia.
    assert (Hx : nth j (Ty_r right) (Ob_r d) = Ob_r (nth k right d)).
    { rewrite Ty_r_nth by lia. do 2 f_equal. lia. }
    rewrite (slice_singleton (Ob_r d) _ _ Hj), (slice_singleton d _ _ Hk'), Hx.
    rewrite Cap_init_adjoint. cbn [bind].
    rewrite tensor_Id_box_Id. unfold then_. cbn [cod dom layers box_dom box_cod].
    unfold slice_to, slice_from.
    replace (Nat.add k 1) with (S k) by lia.
    assert (E : rd = firstn j (Ty_r right)
                     ++ ([Ob_r (nth k right d)] ++ [nth k right d])
                     ++ skipn (S k) right).
    { rewrite Hdom. replace (length right - k)%nat with (S j) by lia.
      rewrite (firstn_succ_nth (Ob_r d)) by lia.
      rewrite (skipn_nth_cons d) by lia.
      rewrite Hx. now rewrite <- !app_assoc. }
    rewrite <- E, Ty_eqb_refl. cbn [bind].
    rewrite IH; cbn [dom cod layers]; try lia.
    + rewrite map_app, <- app_assoc. cbn [app map]. rewrite length_firstn.
      replace (Nat.min j (length (Ty_r right))) with j by lia.
      unfold cap_layer. rewrite Ty_r_length, <- Ej.
      rewrite (slice_singleton (Ob_r d) _ _ Hj), (slice_singleton d _ _ Hk'), Hx.
      reflexivity.
    + replace (length right - S k)%nat with j by lia. reflexivity.
Qed.

Lemma cups_with_not_adjoints f rev_ (left right : Ty) :
  Ty_r left <> right -> Ty_r right <> left ->
  cups_with f rev_ left right = Raise (AxiomError (are_not_adjoints left right)).
Proof.
  intros H1 H2. unfold cups_with.
  apply Ty_eqb_neq in H1, H2. now rewrite H1, H2.
Qed.

Lemma cups_with_adjoint_check f rev_ (left right : Ty) :
  Ty_r left = right \/ Ty_r right = left ->
  cups_with f rev_ left right
  = cups_loop f rev_ left right (Id (left ++ right)) (seq 0 (length left)).
Proof.
  intros H. unfold cups_with.
  destruct H as [H|H]; apply Ty_eqb_eq in H; rewrite H; simpl;
    now rewrite ?andb_false_r.
Qed.

Lemma cups_adjoint (left : Ty) :
  cups left (Ty_r left)
  = Ok (mkDiagram (left ++ Ty_r left) []
          (map (cup_layer left (Ty_r left)) (seq 0 (length left)))).
Proof.
  unfold cups. rewrite cups_with_adjoint_check by now left.
  apply (cups_loop_adjoint left (length left) 0 (Id (left ++ Ty_r left))).
  - reflexivity.
  - cbn [cod Id Diagram_init]. now rewrite Nat.sub_0_r, firstn_all.
Qed.

Lemma caps_adjoint (right : Ty) :
  caps (Ty_r right) right
  = Ok (mkDiagram [] (Ty_r right ++ right)
          (map (cap_layer (Ty_r right) right) (rev (seq 0 (length right))))).
Proof.
  unfold caps. rewrite cups_with_adjoint_check by now right.
  rewrite Ty_r_length.
  rewrite (caps_loop_adjoint right (length right) 0 (Id (Ty_r right ++ right))).
  - cbn [cod layers Id Diagram_init combine]. now rewrite app_nil_r.
  - reflexivity.
  - cbn [dom Id Diagram_init]. rewrite Nat.sub_0_r.
    now rewrite <- (Ty_r_length right), firstn_all.
Qed.

Lemma cups_wrong_adjunction (right : Ty) :
  right <> [] ->
  exists l r, cups (Ty_r right) right
              = Raise (AxiomError (wrong_adjunction l r true)).
Proof.
  intro Hne. set (d := mkOb "" 0).
  unfold cups. rewrite cups_with_adjoint_check by now right.
  rewrite Ty_r_length.
  destruct (length right) as [|n] eqn:Hn; [destruct right; simpl in *; congruence|].
  cbn [seq cups_loop]. unfold cups_step. rewrite Ty_r_length, Hn.
  assert (Hj : (S n - 0 - 1 < length (Ty_r right))%nat)
    by (rewrite Ty_r_length; lia).
  assert (H0 : (0 < length right)%nat) by lia.
  rewrite (slice_singleton (Ob_r d) _ _ Hj), (slice_singleton d _ _ H0).
  rewrite Ty_r_nth by lia.
  replace (length right - (S n - 0 - 1) - 1)%nat with 0%nat by lia.
  unfold Cup_factory. rewrite Cup_init_wrong. cbn [bind]. eauto.
Qed.

Lemma caps_wrong_adjunction (left : Ty) :
  left <> [] ->
  exists l r, caps left (Ty_r left)
              = Raise (AxiomError (wrong_adjunction l r false)).
Proof.
  intro Hne. set (d := mkOb "" 0).
  unfold caps. rewrite cups_with_adjoint_check by now left.
  destruct (length left) as [|n] eqn:Hn; [destruct left; simpl in *; congruence|].
  cbn [seq cups_loop]. unfold cups_step. rewrite Hn.
  assert (Hj : (S n - 0 - 1 < length left)%nat) by lia.
  assert (H0 : (0 < length (Ty_r left))%nat) by (rewrite Ty_r_length; lia).
  rewrite (slice_singleton d _ _ Hj), (slice_singleton (Ob_r d) _ _ H0).
  rewrite Ty_r_nth by lia.
  replace (length left - 0 - 1)%nat with (S n - 0 - 1)%nat by lia.
  unfold Cap_factory. rewrite Cap_init_wrong. cbn [bind]. eauto.
Qed.

(** C6, as the code has it. [cups(left, right)] and [caps(left, right)] raise
    an AxiomError whenever neither [left.r == right] nor [right.r == left].
    [cups] returns the nested cups (one [Cup] per object of [left], innermost
    first) when [left.r == right]; [caps] returns the nested caps when
    [right.r == left]. In the other orientation the constructor of the
    first [Cup] (resp. [Cap]) refuses the pair: [cups] raises an AxiomError
    when [right.r == left] and [caps] when [left.r == right], unless the types
    are empty. *)
Theorem cups_caps_adjointness (left right : Ty) :
  (Ty_r left <> right -> Ty_r right <> left ->
     cups left right = Raise (AxiomError (are_not_adjoints left right))
     /\ caps left right = Raise (AxiomError (are_not_adjoints left right)))
  /\ (Ty_r left = right ->
      exists d, cups left right = Ok d
        /\ dom d = left ++ right /\ cod d = []
        /\ layers d = map (cup_layer left right) (seq 0 (length left))
        /\ Forall (fun b => isCup b = true) (boxes d))
  /\ (Ty_r right = left ->
      exists d, caps left right = Ok d
        /\ dom d = [] /\ cod d = left ++ right
        /\ layers d = map (cap_layer left right) (rev (seq 0 (length left)))
        /\ Forall (fun b => isCap b = true) (boxes d))
  /\ (Ty_r right = left -> left <> [] ->
      exists m, cups left right = Raise (AxiomError m))
  /\ (Ty_r left = right -> left <> [] ->
      exists m, caps left right = Raise (AxiomError m)).
Proof.
  repeat match goal with |- _ /\ _ => split end.
  - intros H1 H2. split; now apply cups_with_not_adjoints.
  - intros <-. eexists. split; [apply cups_adjoint|].
    cbn [dom cod layers]. repeat split.
    unfold boxes; cbn [layers]. rewrite map_map.
    apply Forall_forall. intros b Hb. apply in_map_iff in Hb.
    destruct Hb as [i [<- _]]. reflexivity.
  - intros <-. eexists. split; [apply caps_adjoint|].
    cbn [dom cod layers]. rewrite Ty_r_length. repeat split.
    unfold boxes; cbn [layers]. rewrite map_map.
    apply Forall_forall. intros b Hb. apply in_map_iff in Hb.
    destruct Hb as [i [<- _]]. reflexivity.
  - intros <- Hne.
    destruct (cups_wrong_adjunction right) as [l [r H]].
    + intros ->. now apply Hne.
    + eauto.
  - intros <- Hne.
    destruct (caps_wrong_adjunction left Hne) as [l [r H]]. eauto.
Qed.

Lemma cups_caps_adjointness_witness :
  (exists d, cups [mkOb "a" 0; mkOb "b" 0] [mkOb "b" 1; mkOb "a" 1] = Ok d
     /\ dom d = [mkOb "a" 0; mkOb "b" 0] ++ [mkOb "b" 1; mkOb "a" 1]
     /\ cod d = []
     /\ layers d = map (cup_layer [mkOb "a" 0; mkOb "b" 0]
                                  [mkOb "b" 1; mkOb "a" 1]) (seq 0 2)
     /\ Forall (fun b => isCup b = true) (boxes d))
  /\ (exists m, caps [mkOb "a" 0; mkOb "b" 0] [mkOb "b" 1; mkOb "a" 1]
                = Raise (AxiomError m)).
Proof.
  pose proof (cups_caps_adjointness [mkOb "a" 0; mkOb "b" 0]
                                    [mkOb "b" 1; mkOb "a" 1]) as H.
  split.
  - apply (proj1 (proj2 H)). reflexivity.
  - apply (proj2 (proj2 (proj2 (proj2 H)))); [reflexivity | discriminate].
Defined.

(** C6 as stated fails: [n.r] and [n] are mutual adjoints ([n.r == n.r]),
    but [cups(n.r, n)] raises, and so does [caps(n, n.r)]. *)
Lemma cups_of_mutual_adjoints_can_raise :
  Ty_r [mkOb "n" 0] = [mkOb "n" 1]
  /\ cups [mkOb "n" 1] [mkOb "n" 0]
     = Raise (AxiomError (wrong_adjunction [mkOb "n" 1] [mkOb "n" 0] true))
  /\ caps [mkOb "n" 0] [mkOb "n" 1]
     = Raise (AxiomError (wrong_adjunction [mkOb "n" 0] [mkOb "n" 1] false)).
Proof. repeat split. Qed.

(** * Interchange *)

(** Modelled from the spec: [interchange], the exchange of two adjacent
    layers whose wire ranges do not overlap ([monoidal.py] is not among the
    sources). Layer [box0] on top of [box1] may pass below it when it lies
    entirely to the right of the domain of [box1], or when [box1] lies
    entirely to the right of the codomain of [box0]; the layer on the right
    moves by the change of width of the layer on the left. Overlapping layers
    are an error. *)
Definition swap_layers (i : nat) (l0 l1 : Box * Z)
  : result ((Box * Z) * (Box * Z)) :=
  let '(box0, off0) := l0 in
  let '(box1, off1) := l1 in
  if off0 >=? off1 + Z.of_nat (length (box_dom box1)) then
    Ok ((box1, off1),
        (box0, off0 - Z.of_nat (length (box_dom box1))
                    + Z.of_nat (length (box_cod box1))))
  else if off1 >=? off0 + Z.of_nat (length (box_cod box0)) then
    Ok ((box1, off1 - Z.of_nat (length (box_cod box0))
                    + Z.of_nat (length (box_dom box0))),
        (box0, off0))
  else Raise (InterchangerError i).

(** Layers [i] and [i + 1] exchanged. *)
Definition swap_adjacent (ls : list (Box * Z)) (i : nat)
  : result (list (Box * Z)) :=
  match nth_error ls i, nth_error ls (S i) with
  | Some l0, Some l1 =>
      p <- swap_layers i l0 l1 ;;
      Ok (firstn i ls ++ [fst p; snd p] ++ skipn (S (S i)) ls)
  | _, _ => Raise IndexError
  end.

(** Layer [i] taken [steps] places towards the top (resp. the bottom), one
    exchange at a time. *)
Fixpoint move_up (ls : list (Box * Z)) (i steps : nat)
  : result (list (Box * Z)) :=
  match steps with
  | O => Ok ls
  | S steps' => ls' <- swap_adjacent ls (i - 1) ;; move_up ls' (i - 1) steps'
  end.

Fixpoint move_down (ls : list (Box * Z)) (i steps : nat)
  : result (list (Box * Z)) :=
  match steps with
  | O => Ok ls
  | S steps' => ls' <- swap_adjacent ls i ;; move_down ls' (S i) steps'
  end.

(** [diagram.interchange(i, j)]: layer [i] is taken to position [j]. The
    snake removal calls it with layers that need not be adjacent, and
    re-indexes the layers in between by one. *)
Definition interchange (d : Diagram) (i j : nat) : result Diagram :=
  ls <- (if (j <? i)%nat then move_up (layers d) i (i - j)
         else move_down (layers d) i (j - i)) ;;
  Ok (mkDiagram (dom d) (cod d) ls).

(** * Normalisation: snake removal (Diagram.normalize) *)

(** How a computation ends: with a value, with an exception, or never. *)
Inductive outcome (A : Type) : Type :=
  | Returns (a : A)
  | Raises (e : exn)
  | Diverges.
Arguments Returns {A} a.
Arguments Raises {A} e.
Arguments Diverges {A}.

(** A generator: what it yields, then how it ends. *)
Definition trace : Type := list Diagram * outcome unit.

(** [follow_wire]: the loop runs over the layers after [i]; [n] is
    [len(diagram)] and [i] the index of the first remaining layer. *)
Fixpoint follow_wire_from (n : nat) (rest : list (Box * Z)) (i : nat) (j : Z)
         (left_obstruction right_obstruction : list nat)
  : nat * Z * (list nat * list nat) :=
  match rest with
  | [] => (n, j, (left_obstruction, right_obstruction))
  | (box, off) :: rest' =>
      if (off <=? j) && (j <? off + Z.of_nat (length (box_dom box))) then
        (i, j, (left_obstruction, right_obstruction))
      else if off <=? j then
        follow_wire_from n rest' (S i)
          (j + (Z.of_nat (length (box_cod box)) - Z.of_nat (length (box_dom box))))
          (left_obstruction ++ [i]) right_obstruction
      else
        follow_wire_from n rest' (S i) j
          left_obstruction (right_obstruction ++ [i])
  end.

Definition follow_wire (diagram : Diagram) (i : nat) (j : Z)
  : nat * Z * (list nat * list nat) :=
  follow_wire_from (len diagram) (skipn (S i) (layers diagram)) (S i) j [] [].

(** What [find_snake] returns: [(cup, cap, obstructions, left_snake)]. *)
Definition snake : Type := nat * nat * (list nat * list nat) * bool.

(** One pass of the inner loop of [find_snake]: the wire is followed and the
    pair is kept unless it is [not_yankable]. *)
Definition try_wire (diagram : Diagram) (cap : nat) (left_snake : bool)
           (wire : Z) : option snake :=
  let '(cup, wire', obstructions) := follow_wire diagram cap wire in
  let not_yankable :=
    (cup =? len diagram)%nat
    || match nth_error (layers diagram) cup with
       | Some (box, off) =>
           negb (isCup box)
           || left_snake && negb (off + 1 =? wire')
           || negb left_snake && negb (off =? wire')
       | None => true
       end in
  if not_yankable then None else Some (cup, cap, obstructions, left_snake).

Fixpoint find_snake_from (diagram : Diagram) (range : list nat) : option snake :=
  match range with
  | [] => None
  | cap :: range' =>
      match nth_error (layers diagram) cap with
      | Some (box, off) =>
          if isCap box then
            match try_wire diagram cap true off with
            | Some found => Some found
            | None =>
                match try_wire diagram cap false (off + 1) with
                | Some found => Some found
                | None => find_snake_from diagram range'
                end
            end
          else find_snake_from diagram range'
      | None => find_snake_from diagram range'
      end
  end.

Definition find_snake (diagram : Diagram) : option snake :=
  find_snake_from diagram (seq 0 (len diagram)).

(** The variables that the loops of [unsnake] update. *)
Record unsnake_state : Type := mkState {
  st_diagram : Diagram;
  st_cup : nat;
  st_cap : nat;
  st_right : list nat
}.

(** A [for] loop whose body interchanges once, yields the new diagram and
    updates the state; an exception ends the generator. *)
Fixpoint for_yield (body : unsnake_state -> nat -> result unsnake_state)
         (xs : list nat) (s : unsnake_state)
  : list Diagram * result unsnake_state :=
  match xs with
  | [] => ([], Ok s)
  | box :: xs' =>
      match body s box with
      | Raise e => ([], Raise e)
      | Ok s' =>
          let '(ys, r) := for_yield body xs' s' in (st_diagram s' :: ys, r)
      end
  end.

(** The four loop bodies of [unsnake]. *)
Definition left_snake_body1 (s : unsnake_state) (box : nat)
  : result unsnake_state :=
  diagram <- interchange (st_diagram s) box (st_cap s) ;;
  Ok (mkState diagram (st_cup s) (st_cap s + 1)
        (map (fun right_box =>
                if (right_box <? box)%nat then (right_box + 1)%nat
                else right_box) (st_right s))).

Definition left_snake_body2 (s : unsnake_state) (box : nat)
  : result unsnake_state :=
  diagram <- interchange (st_diagram s) box (st_cup s) ;;
  Ok (mkState diagram (st_cup s - 1) (st_cap s) (st_right s)).

Definition right_snake_body1 (s : unsnake_state) (box : nat)
  : result unsnake_state :=
  diagram <- interchange (st_diagram s) box (st_cup s) ;;
  Ok (mkState diagram (st_cup s - 1) (st_cap s)
        (map (fun right_box =>
                if (box <? right_box)%nat then (right_box - 1)%nat
                else right_box) (st_right s))).

Definition right_snake_body2 (s : unsnake_state) (box : nat)
  : result unsnake_state :=
  diagram <- interchange (st_diagram s) box (st_cap s) ;;
  Ok (mkState diagram (st_cup s) (st_cap s + 1) (st_right s)).

(** The last statement of [unsnake]: the cap and the cup are cut out. *)
Definition splice (s : unsnake_state) : Diagram :=
  let diagram := st_diagram s in
  let boxes' := slice_to (st_cap s) (boxes diagram)
                ++ slice_from (st_cup s + 1) (boxes diagram) in
  let offsets' := slice_to (st_cap s) (offsets diagram)
                  ++ slice_from (st_cup s + 1) (offsets diagram) in
  Diagram_init (dom diagram) (cod diagram) boxes' offsets'.

Definition unsnake (diagram : Diagram) (cup cap : nat)
           (obstructions : list nat * list nat) (left_snake : bool) : trace :=
  let '(left_obstruction, right_obstruction) := obstructions in
  let s0 := mkState diagram cup cap right_obstruction in
  let '(ys1, r1) :=
    if left_snake then for_yield left_snake_body1 left_obstruction s0
    else for_yield right_snake_body1 (rev left_obstruction) s0 in
  match r1 with
  | Raise e => (ys1, Raises e)
  | Ok s1 =>
      let '(ys2, r2) :=
        if left_snake then for_yield left_snake_body2 (rev (st_right s1)) s1
        else for_yield right_snake_body2 (st_right s1) s1 in
      match r2 with
      | Raise e => (ys1 ++ ys2, Raises e)
      | Ok s2 => (ys1 ++ ys2 ++ [splice s2], Returns tt)
      end
  end.

(** The [while True] loop of [normalize]: the diagrams it yields and the
    diagram it leaves when it breaks. [fuel] bounds the number of turns. *)
Fixpoint remove_snakes (fuel : nat) (diagram : Diagram)
  : list Diagram * outcome Diagram :=
  match fuel with
  | O => ([], Diverges)
  | S fuel' =>
      match find_snake diagram with
      | None => ([], Returns diagram)
      | Some (cup, cap, obstructions, left_snake) =>
          match unsnake diagram cup cap obstructions left_snake with
          | (ys, Returns _) =>
              let '(ys', r) := remove_snakes fuel' (last ys diagram) in
              (ys ++ ys', r)
          | (ys, Raises e) => (ys, Raises e)
          | (ys, Diverges) => (ys, Diverges)
          end
      end
  end.

Section Normalize.

(** [monoidal.Diagram.normalize], the pass that [normalize] hands the
    snake-free diagram to; it is not among the sources and the specification
    leaves it to an external collaborator. *)
Variable monoidal_normalize : Diagram -> bool -> trace.

(** [Diagram.normalize]. Every turn of the loop removes two layers, so one
    more turn than there are layers is enough fuel. *)
Definition normalize (self : Diagram) (left : bool) : trace :=
  match remove_snakes (S (len self)) self with
  | (ys, Returns diagram) =>
      let '(ys', r) := monoidal_normalize diagram left in (ys ++ ys', r)
  | (ys, Raises e) => (ys, Raises e)
  | (ys, Diverges) => (ys, Diverges)
  end.

(** Modelled from the spec: [normal_form], the diagram that draining the
    normalisation sequence ends with (the diagram itself when nothing is
    yielded). *)
Definition normal_form (self : Diagram) : outcome Diagram :=
  match normalize self false with
  | (ys, Returns _) => Returns (last ys self)
  | (_, Raises e) => Raises e
  | (_, Diverges) => Diverges
  end.

End Normalize.

Section NormalizeExample.
Let n : Ty := [mkOb "n" 0].
Let s : Ty := [mkOb "s" 0].
Let cup_ : Box := Cup n (Ty_r n).
Let cap_ : Box := Cap (Ty_r n) n.
Let f : Box := GenBox "f" n n None false.
Let f_dagger : Box := GenBox "f" n n None true.
Let g : Box := GenBox "g" (s ++ n) n None false.
Let h : Box := GenBox "h" n (n ++ s) None false.

(** The example of the docstring of [normalize]:
    [g @ cap >> f[::-1] @ Id(n.r) @ f >> cup @ h]. *)
Let diagram : result Diagram :=
  d1 <- then_ (box_diagram g @@ box_diagram cap_)
              (box_diagram f_dagger @@ Id (Ty_r n) @@ box_diagram f) ;;
  then_ d1 (box_diagram cup_ @@ box_diagram h).

Example normalize_docstring :
  exists d, diagram = Ok d
    /\ remove_snakes (S (len d)) d
       = ([ mkDiagram (s ++ n) (n ++ s)
              [(g, 0); (f_dagger, 0); (cap_, 1); (f, 2); (cup_, 0); (h, 0)];
            mkDiagram (s ++ n) (n ++ s)
              [(g, 0); (f_dagger, 0); (cap_, 1); (cup_, 0); (f, 0); (h, 0)];
            mkDiagram (s ++ n) (n ++ s)
              [(g, 0); (f_dagger, 0); (f, 0); (h, 0)] ],
          Returns (mkDiagram (s ++ n) (n ++ s)
                     [(g, 0); (f_dagger, 0); (f, 0); (h, 0)])).
Proof. eexists; split; reflexivity. Qed.
End NormalizeExample.

(** ** Interchange on a list of layers *)

Definition dlen (l : Box * Z) : Z := Z.of_nat (length (box_dom (fst l))).
Definition clen (l : Box * Z) : Z := Z.of_nat (length (box_cod (fst l))).

Lemma dlen_nonneg (l : Box * Z) : 0 <= dlen l.
Proof. unfold dlen; lia. Qed.

Lemma clen_nonneg (l : Box * Z) : 0 <= clen l.
Proof. unfold clen; lia. Qed.

Lemma shift_layer_0 (l : Box * Z) : shift_layer 0 l = l.
Proof. destruct l; unfold shift_layer; simpl; f_equal; lia. Qed.

Lemma shift_layer_shift (a b : Z) (l : Box * Z) :
  shift_layer a (shift_layer b l) = shift_layer (b + a) l.
Proof. destruct l; unfold shift_layer; simpl; f_equal; lia. Qed.

Lemma swap_layers_right_of_dom (i : nat) (l0 l1 : Box * Z) :
  snd l0 >= snd l1 + dlen l1 ->
  swap_layers i l0 l1 = Ok (l1, shift_layer (clen l1 - dlen l1) l0).
Proof.
  destruct l0 as [box0 off0], l1 as [box1 off1].
  unfold dlen, clen, swap_layers, shift_layer; simpl. intro H.
  destruct (Z.geb_spec off0 (off1 + Z.of_nat (length (box_dom box1)))); [|lia].
  do 3 f_equal. lia.
Qed.

Lemma swap_layers_left_of_box (i : nat) (l0 l1 : Box * Z) :
  snd l0 < snd l1 + dlen l1 ->
  snd l1 >= snd l0 + clen l0 ->
  swap_layers i l0 l1 = Ok (shift_layer (dlen l0 - clen l0) l1, l0).
Proof.
  destruct l0 as [box0 off0], l1 as [box1 off1].
  unfold dlen, clen, swap_layers, shift_layer; simpl. intros H1 H2.
  destruct (Z.geb_spec off0 (off1 + Z.of_nat (length (box_dom box1)))); [lia|].
  destruct (Z.geb_spec off1 (off0 + Z.of_nat (length (box_cod box0)))); [|lia].
  do 3 f_equal. lia.
Qed.

Lemma swap_adjacent_at (xs ys : list (Box * Z)) (l0 l1 : Box * Z) :
  swap_adjacent (xs ++ l0 :: l1 :: ys) (length xs)
  = p <- swap_layers (length xs) l0 l1 ;; Ok (xs ++ [fst p; snd p] ++ ys).
Proof.
  unfold swap_adjacent.
  assert (E0 : nth_error (xs ++ l0 :: l1 :: ys) (length xs) = Some l0)
    by (rewrite nth_error_app2, Nat.sub_diag by lia; reflexivity).
  assert (E1 : nth_error (xs ++ l0 :: l1 :: ys) (S (length xs)) = Some l1).
  { rewrite nth_error_app2 by lia.
    replace (S (length xs) - length xs)%nat with 1%nat by lia. reflexivity. }
  rewrite E0, E1.
  rewrite firstn_app, Nat.sub_diag, firstn_all, firstn_O, app_nil_r.
  rewrite skipn_app, skipn_all2 by lia.
  replace (S (S (length xs)) - length xs)%nat with 2%nat by lia.
  reflexivity.
Qed.

(** A layer lying left of the layers above it is taken up past them. *)
Lemma move_up_past (b : Box * Z) :
  forall (rs pre post : list (Box * Z)),
    Forall (fun r => snd r >= snd b + dlen b) rs ->
    move_up (pre ++ rs ++ b :: post) (length pre + length rs) (length rs)
    = Ok (pre ++ b :: map (shift_layer (clen b - dlen b)) rs ++ post).
Proof.
  induction rs as [|r rs IH] using rev_ind; intros pre post Hrs.
  - reflexivity.
  - apply Forall_app in Hrs. destruct Hrs as [Hrs Hr].
    inversion_clear Hr as [|? ? Hr0 _].
    rewrite length_app. cbn [length].
    replace (length rs + 1)%nat with (S (length rs)) by lia.
    cbn [move_up].
    replace (length pre + S (length rs) - 1)%nat
      with (length (pre ++ rs)) by (rewrite length_app; lia).
    replace (pre ++ (rs ++ [r]) ++ b :: post)
      with ((pre ++ rs) ++ r :: b :: post)
      by (rewrite <- !app_assoc; reflexivity).
    rewrite swap_adjacent_at, swap_layers_right_of_dom by exact Hr0.
    cbn [bind fst snd].
    rewrite length_app, <- app_assoc. cbn [app].
    rewrite (IH pre (shift_layer (clen b - dlen b) r :: post) Hrs).
    rewrite map_app, <- app_assoc. reflexivity.
Qed.

(** A layer lying left of the layers below it is taken down past them. *)
Lemma move_down_past (b : Box * Z) :
  forall (rs pre post : list (Box * Z)),
    Forall (fun r => snd b < snd r + dlen r /\ snd r >= snd b + clen b) rs ->
    move_down (pre ++ b :: rs ++ post) (length pre) (length rs)
    = Ok (pre ++ map (shift_layer (dlen b - clen b)) rs ++ b :: post).
Proof.
  induction rs as [|r rs IH]; intros pre post Hrs.
  - reflexivity.
  - inversion_clear Hrs as [|? ? [Hr1 Hr2] Hrs'].
    cbn [length move_down app].
    rewrite swap_adjacent_at, swap_layers_left_of_box by assumption.
    cbn [bind fst snd app].
    replace (pre ++ shift_layer (dlen b - clen b) r :: b :: rs ++ post)
      with ((pre ++ [shift_layer (dlen b - clen b) r]) ++ b :: rs ++ post)
      by (rewrite <- app_assoc; reflexivity).
    replace (S (length pre))
      with (length (pre ++ [shift_layer (dlen b - clen b) r]))
      by (rewrite length_app; simpl; lia).
    rewrite (IH _ post Hrs'). rewrite <- app_assoc. reflexivity.
Qed.

Lemma combine_fst_snd {A B} (l : list (A * B)) :
  combine (map fst l) (map snd l) = l.
Proof. induction l as [|[a b] l IH]; simpl; congruence. Qed.

Lemma combine_app_same {A B} (l1 l2 : list (A * B)) :
  combine (map fst l1 ++ map fst l2) (map snd l1 ++ map snd l2) = l1 ++ l2.
Proof. rewrite <- !map_app. apply combine_fst_snd. Qed.

(** ** What [follow_wire] computes *)

(** [passes mid i j lo ro j' Ls Rs]: the wire at offset [j] runs past all the
    layers [mid] (the first of index [i]) and leaves at offset [j']; [lo] and
    [ro] are the indices of the layers on its left and on its right, [Ls]
    the layers on its left, [Rs] those on its right with their offset counted
    from the wire. *)
Inductive passes :
  list (Box * Z) -> nat -> Z -> list nat -> list nat -> Z ->
  list (Box * Z) -> list (Box * Z) -> Prop :=
  | passes_nil i j : passes [] i j [] [] j [] []
  | passes_left l mid i j lo ro j' Ls Rs :
      snd l + dlen l <= j ->
      passes mid (S i) (j + (clen l - dlen l)) lo ro j' Ls Rs ->
      passes (l :: mid) i j (i :: lo) ro j' (l :: Ls) Rs
  | passes_right l mid i j lo ro j' Ls Rs :
      j < snd l ->
      passes mid (S i) j lo ro j' Ls Rs ->
      passes (l :: mid) i j lo (i :: ro) j' Ls ((fst l, snd l - j) :: Rs).

(** Offsets counted from a wire, made absolute again. *)
Definition at_wire (j : Z) (Rs : list (Box * Z)) : list (Box * Z) :=
  map (shift_layer j) Rs.

Lemma passes_lengths mid i j lo ro j' Ls Rs :
  passes mid i j lo ro j' Ls Rs ->
  length Ls = length lo /\ length Rs = length ro
  /\ (length lo + length ro = length mid)%nat.
Proof. induction 1; simpl; lia. Qed.

Lemma passes_indices mid i j lo ro j' Ls Rs :
  passes mid i j lo ro j' Ls Rs ->
  Forall (fun x => (i <= x)%nat) lo /\ Forall (fun x => (i <= x)%nat) ro.
Proof.
  induction 1 as [| ? ? ? ? ? ? ? ? ? _ _ [IH1 IH2]
                  | ? ? ? ? ? ? ? ? ? _ _ [IH1 IH2]]; split;
    repeat constructor; auto;
    try (eapply Forall_impl; [|eassumption]; simpl; intros; lia).
Qed.

Lemma passes_right_positive mid i j lo ro j' Ls Rs :
  passes mid i j lo ro j' Ls Rs -> Forall (fun r => 0 < snd r) Rs.
Proof. induction 1; simpl; auto. constructor; simpl; auto; lia. Qed.

Lemma passes_boxes mid i j lo ro j' Ls Rs :
  passes mid i j lo ro j' Ls Rs ->
  Permutation (map fst mid) (map fst Ls ++ map fst Rs).
Proof.
  induction 1; simpl; auto.
  apply Permutation_cons_app. assumption.
Qed.

Lemma follow_wire_from_acc (n : nat) (rest : list (Box * Z)) :
  forall (i : nat) (j : Z) (lo ro : list nat),
    follow_wire_from n rest i j lo ro
    = let '(c, j', (lo', ro')) := follow_wire_from n rest i j [] [] in
      (c, j', (lo ++ lo', ro ++ ro')).
Proof.
  induction rest as [|[box off] rest IH]; intros i j lo ro; cbn [follow_wire_from].
  - now rewrite !app_nil_r.
  - destruct ((off <=? j) && (j <? off + Z.of_nat (length (box_dom box)))).
    + now rewrite !app_nil_r.
    + destruct (off <=? j).
      * rewrite IH. rewrite (IH _ _ ([] ++ [i]) []).
        destruct (follow_wire_from n rest (S i) _ [] []) as [[c j'] [lo' ro']].
        cbn [app]. now rewrite <- app_assoc.
      * rewrite IH. rewrite (IH _ _ [] ([] ++ [i])).
        destruct (follow_wire_from n rest (S i) _ [] []) as [[c j'] [lo' ro']].
        cbn [app]. now rewrite <- app_assoc.
Qed.

Lemma follow_wire_from_hit (rest : list (Box * Z)) :
  forall (i : nat) (j : Z) c j' lo ro,
    follow_wire_from (i + length rest) rest i j [] [] = (c, j', (lo, ro)) ->
    c <> (i + length rest)%nat ->
    exists mid hit post Ls Rs,
      rest = mid ++ hit :: post
      /\ c = (i + length mid)%nat
      /\ passes mid i j lo ro j' Ls Rs
      /\ snd hit <= j' < snd hit + dlen hit.
Proof.
  induction rest as [|[box off] rest IH]; intros i j c j' lo ro Hf Hc;
    cbn [follow_wire_from length] in Hf, Hc.
  - injection Hf as <- _ _ _. lia.
  - replace (i + S (length rest))%nat with (S i + length rest)%nat in * by lia.
    destruct (Z.leb_spec off j) as [Hle|Hgt]; cbn [andb] in Hf.
    + destruct (Z.ltb_spec j (off + Z.of_nat (length (box_dom box)))) as [Hlt|Hge].
      * injection Hf as <- <- <- <-.
        exists [], (box, off), rest, [], []. simpl.
        repeat split; auto; try lia. constructor.
      * rewrite follow_wire_from_acc in Hf.
        destruct (follow_wire_from (S i + length rest) rest (S i) _ [] [])
          as [[c1 j1] [lo1 ro1]] eqn:Hf1.
        injection Hf as <- <- <- <-.
        destruct (IH _ _ _ _ _ _ Hf1 Hc)
          as (mid & hit & post & Ls & Rs & -> & -> & Hp & Hhit).
        exists ((box, off) :: mid), hit, post, ((box, off) :: Ls), Rs.
        repeat split; try (simpl; lia).
        cbn [app]. apply passes_left; [unfold dlen; simpl; lia|exact Hp].
    + rewrite follow_wire_from_acc in Hf.
      destruct (follow_wire_from (S i + length rest) rest (S i) _ [] [])
        as [[c1 j1] [lo1 ro1]] eqn:Hf1.
      injection Hf as <- <- <- <-.
      destruct (IH _ _ _ _ _ _ Hf1 Hc)
        as (mid & hit & post & Ls & Rs & -> & -> & Hp & Hhit).
      exists ((box, off) :: mid), hit, post, Ls, ((box, off - j) :: Rs).
      repeat split; try (simpl; lia).
      cbn [app]. apply (passes_right (box, off)); [simpl; lia|exact Hp].
Qed.

(** ** What [find_snake] returns *)

(** The layers around a snake: the cap, the layers the wire runs past, the
    cup that takes the wire at the right place. *)
Definition snake_at (ls : list (Box * Z)) (cup cap : nat) (lo ro : list nat)
           (left_snake : bool)
           (pre : list (Box * Z)) (capL : Box * Z) (mid : list (Box * Z))
           (cupL : Box * Z) (post : list (Box * Z))
           (j' : Z) (Ls Rs : list (Box * Z)) : Prop :=
  ls = pre ++ capL :: mid ++ cupL :: post
  /\ cap = length pre
  /\ cup = S (length pre + length mid)
  /\ isCap (fst capL) = true
  /\ isCup (fst cupL) = true
  /\ passes mid (S (length pre))
            (if left_snake then snd capL else snd capL + 1) lo ro j' Ls Rs
  /\ snd cupL <= j' < snd cupL + dlen cupL
  /\ (if left_snake then snd cupL + 1 = j' else snd cupL = j').

Lemma nth_error_split_at {A} (l : list A) (n : nat) (a : A) :
  nth_error l n = Some a ->
  l = firstn n l ++ a :: skipn (S n) l /\ length (firstn n l) = n.
Proof.
  revert n; induction l as [|x l IH]; intros [|n] H; simpl in *; try discriminate.
  - injection H as ->. auto.
  - destruct (IH n H) as [E1 E2]. split; [f_equal; exact E1|lia].
Qed.

Lemma try_wire_some (d : Diagram) (cap : nat) (ls : bool) (wire : Z)
      (capL : Box * Z) cup cap' lo ro ls' :
  nth_error (layers d) cap = Some capL ->
  try_wire d cap ls wire = Some (cup, cap', (lo, ro), ls') ->
  cap' = cap /\ ls' = ls
  /\ exists mid cupL post j' Ls Rs,
      layers d = firstn cap (layers d) ++ capL :: mid ++ cupL :: post
      /\ cup = S (cap + length mid)
      /\ isCup (fst cupL) = true
      /\ passes mid (S cap) wire lo ro j' Ls Rs
      /\ snd cupL <= j' < snd cupL + dlen cupL
      /\ (if ls then snd cupL + 1 = j' else snd cupL = j').
Proof.
  intros Hcap Htry. unfold try_wire, follow_wire in Htry.
  destruct (nth_error_split_at _ _ _ Hcap) as [Esplit Elen].
  assert (Hlen : len d = (S cap + length (skipn (S cap) (layers d)))%nat).
  { unfold len. rewrite Esplit at 1. rewrite length_app, Elen. simpl. lia. }
  rewrite Hlen in Htry.
  destruct (follow_wire_from _ _ _ _ [] []) as [[c j'] [lo0 ro0]] eqn:Hf.
  destruct (Nat.eqb_spec c (S cap + length (skipn (S cap) (layers d))))
    as [|Hc]; [discriminate|]. cbn [orb] in Htry.
  destruct (follow_wire_from_hit _ _ _ _ _ _ _ Hf Hc)
    as (mid & hit & post & Ls & Rs & Erest & -> & Hp & Hhit).
  assert (Ecup : nth_error (layers d) (S cap + length mid) = Some hit).
  { rewrite Esplit, Erest. rewrite nth_error_app2 by lia. rewrite Elen.
    replace (S cap + length mid - cap)%nat with (S (length mid)) by lia.
    cbn [nth_error]. rewrite nth_error_app2, Nat.sub_diag by lia. reflexivity. }
  rewrite Ecup in Htry. destruct hit as [cbox coff].
  destruct (isCup cbox) eqn:HisCup; cbn [negb orb] in Htry; [|discriminate].
  destruct (ls && negb (coff + 1 =? j') || negb ls && negb (coff =? j'))
    eqn:Hgeom; [discriminate|].
  injection Htry as <- <- <- <- <-. split; [reflexivity|]. split; [reflexivity|].
  exists mid, (cbox, coff), post, j', Ls, Rs.
  rewrite <- Erest. repeat split; auto; try (simpl in *; lia).
  destruct ls; simpl in Hgeom |- *.
  - rewrite orb_false_r in Hgeom. apply negb_false_iff in Hgeom. lia.
  - apply negb_false_iff in Hgeom. lia.
Qed.

Lemma find_snake_from_some (d : Diagram) (range : list nat) cup cap lo ro ls :
  find_snake_from d range = Some (cup, cap, (lo, ro), ls) ->
  exists capL,
    nth_error (layers d) cap = Some capL /\ isCap (fst capL) = true
    /\ try_wire d cap ls (if ls then snd capL else snd capL + 1)
       = Some (cup, cap, (lo, ro), ls).
Proof.
  induction range as [|c range IH]; cbn [find_snake_from]; [discriminate|].
  destruct (nth_error (layers d) c) as [[box off]|] eqn:Hc; [|exact IH].
  destruct (isCap box) eqn:HisCap; [|exact IH].
  destruct (try_wire d c true off) as [[[[cup1 cap1] [lo1 ro1]] ls1]|] eqn:Ht.
  - intro H; injection H as -> -> -> -> ->.
    destruct (try_wire_some _ _ _ _ _ _ _ _ _ _ Hc Ht) as (-> & -> & _).
    exists (box, off). auto.
  - destruct (try_wire d c false (off + 1))
      as [[[[cup1 cap1] [lo1 ro1]] ls1]|] eqn:Ht'; [|exact IH].
    intro H; injection H as -> -> -> -> ->.
    destruct (try_wire_some _ _ _ _ _ _ _ _ _ _ Hc Ht') as (-> & -> & _).
    exists (box, off). auto.
Qed.

Lemma find_snake_at (d : Diagram) cup cap lo ro ls :
  find_snake d = Some (cup, cap, (lo, ro), ls) ->
  exists pre capL mid cupL post j' Ls Rs,
    snake_at (layers d) cup cap lo ro ls pre capL mid cupL post j' Ls Rs.
Proof.
  intro H. apply find_snake_from_some in H.
  destruct H as (capL & Hcap & HisCap & Ht).
  destruct (try_wire_some _ _ _ _ _ _ _ _ _ _ Hcap Ht)
    as (_ & _ & mid & cupL & post & j' & Ls & Rs & E & -> & HisCup & Hp & Hhit & Hg).
  destruct (nth_error_split_at _ _ _ Hcap) as [_ Elen].
  exists (firstn cap (layers d)), capL, mid, cupL, post, j', Ls, Rs.
  unfold snake_at. rewrite Elen. repeat split; auto; try lia.
Qed.

(** ** The loops of [unsnake] *)

Lemma interchange_up (dm cd : Ty) (b : Box * Z) (rs pre post : list (Box * Z)) :
  rs <> [] ->
  Forall (fun r => snd r >= snd b + dlen b) rs ->
  interchange (mkDiagram dm cd (pre ++ rs ++ b :: post))
              (length pre + length rs) (length pre)
  = Ok (mkDiagram dm cd
          (pre ++ b :: map (shift_layer (clen b - dlen b)) rs ++ post)).
Proof.
  intros Hne Hrs. unfold interchange. cbn [layers dom cod].
  assert (Hlt : (length pre <? length pre + length rs)%nat = true).
  { apply Nat.ltb_lt. destruct rs; [congruence|simpl; lia]. }
  rewrite Hlt.
  replace (length pre + length rs - length pre)%nat with (length rs) by lia.
  now rewrite move_up_past.
Qed.

Lemma interchange_down (dm cd : Ty) (b : Box * Z) (rs pre post : list (Box * Z)) :
  Forall (fun r => snd b < snd r + dlen r /\ snd r >= snd b + clen b) rs ->
  interchange (mkDiagram dm cd (pre ++ b :: rs ++ post))
              (length pre) (length pre + length rs)
  = Ok (mkDiagram dm cd
          (pre ++ map (shift_layer (dlen b - clen b)) rs ++ b :: post)).
Proof.
  intros Hrs. unfold interchange. cbn [layers dom cod].
  assert (Hlt : (length pre + length rs <? length pre)%nat = false)
    by (apply Nat.ltb_ge; lia).
  rewrite Hlt.
  replace (length pre + length rs - length pre)%nat with (length rs) by lia.
  now rewrite move_down_past.
Qed.

Lemma for_yield_app body (xs ys : list nat) (s : unsnake_state) :
  for_yield body (xs ++ ys) s
  = let '(y1, r1) := for_yield body xs s in
    match r1 with
    | Ok s1 => let '(y2, r2) := for_yield body ys s1 in (y1 ++ y2, r2)
    | Raise e => (y1, Raise e)
    end.
Proof.
  revert s; induction xs as [|x xs IH]; intro s; cbn [app for_yield].
  - destruct (for_yield body ys s); reflexivity.
  - destruct (body s x) as [s'|e]; [|reflexivity].
    rewrite IH. destruct (for_yield body xs s') as [y1 [s1|e]]; [|reflexivity].
    destruct (for_yield body ys s1); reflexivity.
Qed.

Lemma at_wire_app (j : Z) (a b : list (Box * Z)) :
  at_wire j (a ++ b) = at_wire j a ++ at_wire j b.
Proof. apply map_app. Qed.

Lemma at_wire_length (j : Z) (a : list (Box * Z)) :
  length (at_wire j a) = length a.
Proof. apply length_map. Qed.

Lemma at_wire_shift (j k : Z) (a : list (Box * Z)) :
  map (shift_layer k) (at_wire j a) = at_wire (j + k) a.
Proof.
  unfold at_wire. rewrite map_map. apply map_ext.
  intro l. apply shift_layer_shift.
Qed.

Lemma at_wire_boxes (j : Z) (a : list (Box * Z)) :
  map fst (at_wire j a) = map fst a.
Proof. unfold at_wire. rewrite map_map. reflexivity. Qed.

Lemma at_wire_right_of (j : Z) (a : list (Box * Z)) :
  Forall (fun r => 0 < snd r) a -> Forall (fun r => j < snd r) (at_wire j a).
Proof.
  intro H. unfold at_wire. apply Forall_map.
  eapply Forall_impl; [|exact H]. intros [b rel]; simpl. lia.
Qed.

Lemma bump_below (i a n : nat) (ro : list nat) :
  (a + n <= i)%nat ->
  Forall (fun x => (i <= x)%nat) ro ->
  map (fun right_box =>
         if (right_box <? i)%nat then (right_box + 1)%nat else right_box)
      (seq a n ++ ro)
  = seq (S a) n ++ ro.
Proof.
  intros Ha Hro. rewrite map_app, <- seq_shift. f_equal.
  - apply map_ext_in. intros x Hx. apply in_seq in Hx.
    destruct (Nat.ltb_spec x i); lia.
  - rewrite <- (map_id ro) at 2. apply map_ext_in. intros x Hx.
    rewrite Forall_forall in Hro. specialize (Hro x Hx).
    destruct (Nat.ltb_spec x i); lia.
Qed.

Lemma drop_above (i n : nat) (ro : list nat) :
  Forall (fun x => (x <= i)%nat) ro ->
  map (fun right_box =>
         if (i <? right_box)%nat then (right_box - 1)%nat else right_box)
      (ro ++ seq (S i) n)
  = ro ++ seq i n.
Proof.
  intros Hro. rewrite map_app. f_equal.
  - rewrite <- (map_id ro) at 2. apply map_ext_in. intros x Hx.
    rewrite Forall_forall in Hro. specialize (Hro x Hx).
    destruct (Nat.ltb_spec i x); lia.
  - rewrite <- seq_shift, map_map. rewrite <- (map_id (seq i n)) at 2.
    apply map_ext_in. intros x Hx. apply in_seq in Hx.
    destruct (Nat.ltb_spec i (S x)); lia.
Qed.

(** Left snake, first loop: every layer on the left of the wire is taken above
    the cap, which follows the wire. *)
Lemma left_snake_loop1 mid i j lo ro j' Ls Rs :
  passes mid i j lo ro j' Ls Rs ->
  forall (pre : list (Box * Z)) (capbox : Box) (RS0 tail : list (Box * Z))
         (dm cd : Ty) (cup : nat),
    i = S (length pre + length RS0) ->
    Forall (fun r => 0 < snd r) RS0 ->
    exists ys,
      for_yield left_snake_body1 lo
        (mkState (mkDiagram dm cd
                    (pre ++ (capbox, j) :: at_wire j RS0 ++ mid ++ tail))
                 cup (length pre)
                 (seq (S (length pre)) (length RS0) ++ ro))
      = (ys, Ok (mkState
                   (mkDiagram dm cd
                      (pre ++ Ls ++ (capbox, j') :: at_wire j' (RS0 ++ Rs) ++ tail))
                   cup (length pre + length lo)
                   (seq (S (length pre + length lo))
                        (length RS0 + length ro))))
      /\ length ys = length lo.
Proof.
  induction 1 as [i j
                 | l mid i j lo ro j' Ls Rs Hl Hp IH
                 | l mid i j lo ro j' Ls Rs Hr Hp IH];
    intros pre capbox RS0 tail dm cd cup Hi HRS0.
  - exists []. cbn [for_yield app length].
    rewrite !app_nil_r, !Nat.add_0_r. auto.
  - cbn [for_yield]. unfold left_snake_body1 at 1. cbn [st_diagram st_cap st_cup st_right].
    replace (pre ++ (capbox, j) :: at_wire j RS0 ++ (l :: mid) ++ tail)
      with (pre ++ ((capbox, j) :: at_wire j RS0) ++ l :: (mid ++ tail))
      by reflexivity.
    replace i with (length pre + length ((capbox, j) :: at_wire j RS0))%nat
      by (cbn [length]; rewrite at_wire_length; lia).
    rewrite interchange_up; [|discriminate|].
    2:{ constructor; [simpl; lia|].
        eapply Forall_impl; [|apply (at_wire_right_of j _ HRS0)].
        simpl; intros; lia. }
    cbn [bind map]. rewrite at_wire_shift.
    change (shift_layer (clen l - dlen l) (capbox, j))
      with (capbox, j + (clen l - dlen l)).
    replace (length pre + length ((capbox, j) :: at_wire j RS0))%nat with i
      by (cbn [length]; rewrite at_wire_length; lia).
    rewrite bump_below;
      [| lia | destruct (passes_indices _ _ _ _ _ _ _ _ Hp) as [_ Hro];
               eapply Forall_impl; [|exact Hro]; simpl; intros; lia ].
    destruct (IH (pre ++ [l]) capbox RS0 tail dm cd cup) as [ys [Hys Hlen]];
      [rewrite length_app; simpl; lia | exact HRS0 |].
    rewrite length_app in Hys. cbn [length] in Hys.
    replace (length pre + 1)%nat with (S (length pre)) in * by lia.
    rewrite <- app_assoc in Hys. cbn [app] in Hys.
    replace (pre ++ l :: ((capbox, j + (clen l - dlen l))
                            :: at_wire (j + (clen l - dlen l)) RS0) ++ mid ++ tail)
      with (pre ++ l :: (capbox, j + (clen l - dlen l))
                :: at_wire (j + (clen l - dlen l)) RS0 ++ mid ++ tail)
      by reflexivity.
    rewrite Hys.
    eexists. split.
    + rewrite <- app_assoc. cbn [app length].
      replace (S (length pre) + length lo)%nat
        with (length pre + S (length lo))%nat by lia.
      reflexivity.
    + cbn [length]. rewrite Hlen. reflexivity.
  - destruct (IH pre capbox (RS0 ++ [(fst l, snd l - j)]) tail dm cd cup)
      as [ys [Hys Hlen]].
    + rewrite length_app; simpl; lia.
    + apply Forall_app; split; [exact HRS0|]. constructor; [simpl; lia|constructor].
    + exists ys. split; [|exact Hlen].
      rewrite at_wire_app, <- !app_assoc in Hys. cbn [at_wire map app] in Hys.
      replace (shift_layer j (fst l, snd l - j)) with l in Hys
        by (destruct l; unfold shift_layer; simpl; f_equal; lia).
      rewrite length_app in Hys. cbn [length] in Hys.
      rewrite seq_app, <- app_assoc in Hys. cbn [seq app] in Hys.
      replace (S (length pre) + length RS0)%nat with i in Hys by lia.
      cbn [app]. rewrite Hys. cbn [length].
      replace (length RS0 + 1 + length ro)%nat
        with (length RS0 + S (length ro))%nat by lia.
      reflexivity.
Qed.

Lemma interchange_adjacent_right_of_dom (dm cd : Ty) (l0 l1 : Box * Z)
      (pre post : list (Box * Z)) :
  snd l0 >= snd l1 + dlen l1 ->
  interchange (mkDiagram dm cd (pre ++ l0 :: l1 :: post))
              (length pre) (S (length pre))
  = Ok (mkDiagram dm cd
          (pre ++ l1 :: shift_layer (clen l1 - dlen l1) l0 :: post)).
Proof.
  intro H. unfold interchange. cbn [layers dom cod].
  assert (Hlt : (S (length pre) <? length pre)%nat = false)
    by (apply Nat.ltb_ge; lia).
  rewrite Hlt.
  replace (S (length pre) - length pre)%nat with 1%nat by lia.
  cbn [move_down].
  now rewrite swap_adjacent_at, swap_layers_right_of_dom.
Qed.

Lemma interchange_adjacent_left_of_box (dm cd : Ty) (l0 l1 : Box * Z)
      (pre post : list (Box * Z)) :
  snd l0 < snd l1 + dlen l1 ->
  snd l1 >= snd l0 + clen l0 ->
  interchange (mkDiagram dm cd (pre ++ l0 :: l1 :: post))
              (S (length pre)) (length pre)
  = Ok (mkDiagram dm cd
          (pre ++ shift_layer (dlen l0 - clen l0) l1 :: l0 :: post)).
Proof.
  intros H1 H2. unfold interchange. cbn [layers dom cod].
  assert (Hlt : (length pre <? S (length pre))%nat = true)
    by (apply Nat.ltb_lt; lia).
  rewrite Hlt.
  replace (S (length pre) - length pre)%nat with 1%nat by lia.
  cbn [move_up].
  replace (S (length pre) - 1)%nat with (length pre) by lia.
  now rewrite swap_adjacent_at, swap_layers_left_of_box.
Qed.

(** Left snake, second loop: the layers on the right of the wire, the farthest
    first, are taken below the cup. *)
Lemma left_snake_loop2 (cupbox : Box) (offc : Z) (dm cd : Ty) (cap : nat)
      (ro : list nat) (P : list (Box * Z)) :
  (length (box_dom cupbox) <= 2)%nat ->
  forall (RS post : list (Box * Z)),
    Forall (fun r => 0 < snd r) RS ->
    exists ys,
      for_yield left_snake_body2 (rev (seq (length P) (length RS)))
        (mkState (mkDiagram dm cd
                    (P ++ at_wire (offc + 1) RS ++ (cupbox, offc) :: post))
                 (length P + length RS) cap ro)
      = (ys, Ok (mkState
                   (mkDiagram dm cd
                      (P ++ (cupbox, offc)
                         :: map (shift_layer (clen (cupbox, offc)
                                              - dlen (cupbox, offc)))
                                (at_wire (offc + 1) RS) ++ post))
                   (length P) cap ro))
      /\ length ys = length RS.
Proof.
  intro Hcup.
  induction RS as [|r RS IH] using rev_ind; intros post HRS.
  - exists []. cbn [length seq rev for_yield at_wire map app].
    rewrite Nat.add_0_r. auto.
  - apply Forall_app in HRS. destruct HRS as [HRS Hr].
    inversion_clear Hr as [|? ? Hr0 _].
    rewrite length_app. cbn [length].
    rewrite seq_app, rev_app_distr. cbn [seq rev app for_yield].
    unfold left_snake_body2 at 1. cbn [st_diagram st_cup st_cap st_right].
    rewrite at_wire_app. cbn [at_wire map].
    replace (P ++ (at_wire (offc + 1) RS
                   ++ [shift_layer (offc + 1) r]) ++ (cupbox, offc) :: post)
      with ((P ++ at_wire (offc + 1) RS)
              ++ shift_layer (offc + 1) r :: (cupbox, offc) :: post)
      by (rewrite <- !app_assoc; reflexivity).
    replace (length P + length RS)%nat
      with (length (P ++ at_wire (offc + 1) RS))
      by (rewrite length_app, at_wire_length; reflexivity).
    replace (length P + (length RS + 1))%nat
      with (S (length (P ++ at_wire (offc + 1) RS)))
      by (rewrite length_app, at_wire_length; lia).
    rewrite interchange_adjacent_right_of_dom
      by (destruct r as [rb rel]; unfold dlen; simpl in *; lia).
    cbn [bind].
    replace (S (length (P ++ at_wire (offc + 1) RS)) - 1)%nat
      with (length P + length RS)%nat
      by (rewrite length_app, at_wire_length; lia).
    rewrite <- app_assoc.
    destruct (IH (shift_layer (clen (cupbox, offc) - dlen (cupbox, offc))
                              (shift_layer (offc + 1) r) :: post) HRS)
      as [ys [Hys Hlen]].
    rewrite Hys. eexists. split.
    + rewrite map_app, <- app_assoc. reflexivity.
    + cbn [length]. rewrite Hlen. lia.
Qed.

(** Right snake, second loop: the layers on the right of the wire, the
    nearest first, are taken above the cap. *)
Lemma right_snake_loop2 (capbox : Box) (c : Z) (dm cd : Ty) (cup : nat)
      (ro : list nat) (tail : list (Box * Z)) :
  (length (box_cod capbox) <= 2)%nat ->
  forall (RS pre : list (Box * Z)),
    Forall (fun r => 0 < snd r) RS ->
    exists ys,
      for_yield right_snake_body2 (seq (S (length pre)) (length RS))
        (mkState (mkDiagram dm cd
                    (pre ++ (capbox, c) :: at_wire (c + 1) RS ++ tail))
                 cup (length pre) ro)
      = (ys, Ok (mkState
                   (mkDiagram dm cd
                      (pre ++ map (shift_layer (dlen (capbox, c)
                                                - clen (capbox, c)))
                                  (at_wire (c + 1) RS)
                           ++ (capbox, c) :: tail))
                   cup (length pre + length RS) ro))
      /\ length ys = length RS.
Proof.
  intro Hcap.
  induction RS as [|r RS IH]; intros pre HRS.
  - exists []. cbn [length seq for_yield at_wire map app].
    rewrite Nat.add_0_r. auto.
  - inversion_clear HRS as [|? ? Hr0 HRS'].
    cbn [length seq for_yield at_wire map app].
    unfold right_snake_body2 at 1. cbn [st_diagram st_cup st_cap st_right].
    rewrite interchange_adjacent_left_of_box;
      try (destruct r as [rb rel]; unfold dlen, clen; simpl in *; lia).
    cbn [bind].
    replace (pre ++ shift_layer (dlen (capbox, c) - clen (capbox, c))
                      (shift_layer (c + 1) r)
                 :: (capbox, c) :: map (shift_layer (c + 1)) RS ++ tail)
      with ((pre ++ [shift_layer (dlen (capbox, c) - clen (capbox, c))
                                 (shift_layer (c + 1) r)])
              ++ (capbox, c) :: at_wire (c + 1) RS ++ tail)
      by (rewrite <- app_assoc; reflexivity).
    replace (length pre + 1)%nat
      with (length (pre ++ [shift_layer (dlen (capbox, c) - clen (capbox, c))
                                        (shift_layer (c + 1) r)]))
      by (rewrite length_app; reflexivity).
    replace (S (S (length pre)))
      with (S (length (pre ++ [shift_layer (dlen (capbox, c) - clen (capbox, c))
                                           (shift_layer (c + 1) r)])))
      by (rewrite length_app; simpl; lia).
    destruct (IH (pre ++ [shift_layer (dlen (capbox, c) - clen (capbox, c))
                                      (shift_layer (c + 1) r)]) HRS')
      as [ys [Hys Hlen]].
    rewrite Hys, <- !app_assoc, ?length_app. cbn [app length].
    replace (length pre + 1 + length RS)%nat
      with (length pre + S (length RS))%nat by lia.
    eexists. split.
    + unfold at_wire. reflexivity.
    + cbn [length]. rewrite Hlen. lia.
Qed.

(** Right snake, first loop: the layers on the left of the wire, the nearest
    to the cup first, are taken below the cup, which follows the wire back. *)
Lemma right_snake_loop1 mid i j lo ro j' Ls Rs :
  passes mid i j lo ro j' Ls Rs ->
  forall (FRONT : list (Box * Z)) (cupbox : Box) (post : list (Box * Z))
         (RO : list nat) (dm cd : Ty) (cap : nat),
    i = length FRONT ->
    (1 <= length (box_dom cupbox))%nat ->
    Forall (fun x => (x < i)%nat) RO ->
    exists ys,
      for_yield right_snake_body1 (rev lo)
        (mkState (mkDiagram dm cd (FRONT ++ mid ++ (cupbox, j') :: post))
                 (i + length mid) cap (RO ++ ro))
      = (ys, Ok (mkState
                   (mkDiagram dm cd
                      (FRONT ++ at_wire j Rs ++ (cupbox, j) :: Ls ++ post))
                   (i + length ro) cap (RO ++ seq i (length ro))))
      /\ length ys = length lo.
Proof.
  induction 1 as [i j
                 | l mid i j lo ro j' Ls Rs Hl Hp IH
                 | l mid i j lo ro j' Ls Rs Hr Hp IH];
    intros FRONT cupbox post RO dm cd cap Hi Hcup HRO; subst i.
  - exists []. cbn [rev for_yield app length seq at_wire map]. auto.
  - destruct (passes_lengths _ _ _ _ _ _ _ _ Hp) as (HLs & HRs & Hmid).
    cbn [rev]. rewrite for_yield_app.
    destruct (IH (FRONT ++ [l]) cupbox post RO dm cd cap) as [ys [Hys Hlen]].
    + rewrite length_app; simpl; lia.
    + exact Hcup.
    + eapply Forall_impl; [|exact HRO]. simpl; intros; lia.
    + rewrite <- !app_assoc in Hys. cbn [app] in Hys.
      cbn [app length].
      replace (length FRONT + S (length mid))%nat
        with (S (length FRONT) + length mid)%nat by lia.
      rewrite Hys. cbn [for_yield].
      unfold right_snake_body1 at 1. cbn [st_diagram st_cup st_cap st_right].
      replace (FRONT ++ l :: at_wire (j + (clen l - dlen l)) Rs
                     ++ (cupbox, j + (clen l - dlen l)) :: Ls ++ post)
        with (FRONT ++ l :: (at_wire (j + (clen l - dlen l)) Rs
                               ++ [(cupbox, j + (clen l - dlen l))])
                    ++ (Ls ++ post))
        by (rewrite <- app_assoc; reflexivity).
      replace (S (length FRONT) + length ro)%nat
        with (Nat.add (length FRONT)
                (length (at_wire (j + (clen l - dlen l)) Rs
                           ++ [(cupbox, j + (clen l - dlen l))])))
        by (rewrite length_app, at_wire_length; simpl; lia).
      rewrite interchange_down.
      2:{ apply Forall_app; split.
          - pose proof (at_wire_right_of (j + (clen l - dlen l)) Rs
                          (passes_right_positive _ _ _ _ _ _ _ _ Hp)) as HR.
            eapply Forall_impl; [|exact HR]. intros r Hr. simpl in Hr.
            pose proof (dlen_nonneg r). pose proof (dlen_nonneg l).
            pose proof (clen_nonneg l). lia.
          - constructor; [|constructor].
            unfold dlen, clen in *. cbn [fst snd]. lia. }
      cbn [bind]. rewrite map_app, at_wire_shift. cbn [map].
      change (shift_layer (dlen l - clen l) (cupbox, j + (clen l - dlen l)))
        with (cupbox, j + (clen l - dlen l) + (dlen l - clen l)).
      replace (j + (clen l - dlen l) + (dlen l - clen l)) with j by lia.
      rewrite drop_above by (eapply Forall_impl; [|exact HRO]; simpl; intros; lia).
      rewrite length_app, at_wire_length. cbn [length].
      replace (length FRONT + (length Rs + 1) - 1)%nat
        with (length FRONT + length ro)%nat by lia.
      rewrite <- !app_assoc. cbn [app].
      eexists. split; [reflexivity|].
      rewrite length_app, Hlen. cbn [length]. lia.
  - destruct (IH (FRONT ++ [l]) cupbox post (RO ++ [length FRONT]) dm cd cap)
      as [ys [Hys Hlen]].
    + rewrite length_app; simpl; lia.
    + exact Hcup.
    + apply Forall_app; split.
      * eapply Forall_impl; [|exact HRO]. simpl; intros; lia.
      * constructor; [lia|constructor].
    + exists ys. split; [|exact Hlen].
      rewrite <- !app_assoc in Hys. cbn [app] in Hys.
      cbn [app length].
      replace (length FRONT + S (length mid))%nat
        with (S (length FRONT) + length mid)%nat by lia.
      rewrite Hys. cbn [at_wire map seq].
      replace (shift_layer j (fst l, snd l - j)) with l
        by (destruct l; unfold shift_layer; simpl; f_equal; lia).
      replace (S (length FRONT) + length ro)%nat
        with (length FRONT + S (length ro))%nat by lia.
      reflexivity.
Qed.

(** ** One snake removed *)

Lemma splice_adjacent (dm cd : Ty) (A B : list (Box * Z)) (x y : Box * Z)
      (ro : list nat) :
  splice (mkState (mkDiagram dm cd (A ++ x :: y :: B))
                  (S (length A)) (length A) ro)
  = mkDiagram dm cd (A ++ B).
Proof.
  unfold splice, Diagram_init, boxes, offsets, slice_to, slice_from.
  cbn [st_diagram st_cup st_cap dom cod layers]. f_equal.
  rewrite !map_app. cbn [map].
  rewrite !firstn_app, !length_map, !Nat.sub_diag, !firstn_O, !app_nil_r.
  rewrite (firstn_all2 (map fst A)) by (rewrite length_map; lia).
  rewrite (firstn_all2 (map snd A)) by (rewrite length_map; lia).
  rewrite !skipn_app, !length_map.
  replace (S (length A) + 1 - length A)%nat with 2%nat by lia.
  rewrite (skipn_all2 (map fst A)) by (rewrite length_map; lia).
  rewrite (skipn_all2 (map snd A)) by (rewrite length_map; lia).
  cbn [skipn app]. apply combine_app_same.
Qed.

(** The layers left once the snake is removed. The layers that stood on the
    right of the wire have lost the two wires of the snake. *)
Definition unsnaked (left_snake : bool) (pre : list (Box * Z)) (capL cupL : Box * Z)
           (post : list (Box * Z)) (j' : Z) (Ls Rs : list (Box * Z))
  : list (Box * Z) :=
  if left_snake
  then pre ++ Ls
           ++ map (shift_layer (clen cupL - dlen cupL)) (at_wire j' Rs) ++ post
  else pre ++ map (shift_layer (dlen capL - clen capL))
                  (at_wire (snd capL + 1) Rs)
           ++ Ls ++ post.

Lemma unsnake_exact (d : Diagram) cup cap lo ro ls pre capL mid cupL post j' Ls Rs :
  snake_at (layers d) cup cap lo ro ls pre capL mid cupL post j' Ls Rs ->
  (length (box_dom (fst cupL)) <= 2)%nat ->
  (length (box_cod (fst capL)) <= 2)%nat ->
  exists steps,
    unsnake d cup cap (lo, ro) ls
    = (steps ++ [mkDiagram (dom d) (cod d)
                   (unsnaked ls pre capL cupL post j' Ls Rs)],
       Returns tt)
    /\ length steps = (length lo + length ro)%nat.
Proof.
  intros (Elayers & -> & -> & HisCap & HisCup & Hp & Hhit & Hgeom) Hcup Hcap.
  destruct d as [dm cd ls0]. cbn [layers dom cod] in *. subst ls0.
  destruct capL as [capbox capoff], cupL as [cupbox cupoff].
  cbn [fst snd] in *.
  destruct (passes_lengths _ _ _ _ _ _ _ _ Hp) as (HLs & HRs & Hmid).
  pose proof (passes_right_positive _ _ _ _ _ _ _ _ Hp) as HRpos.
  unfold unsnake, unsnaked. destruct ls.
  - (* left snake *)
    destruct (left_snake_loop1 _ _ _ _ _ _ _ _ Hp pre capbox []
                (( cupbox, cupoff) :: post) dm cd
                (S (length pre + length mid)))
      as [ys1 [Hys1 Hlen1]]; [simpl; lia | constructor |].
    cbn [at_wire map app seq length] in Hys1.
    change (0 + length ro)%nat with (length ro) in Hys1.
    rewrite Hys1. cbn [st_right]. clear Hys1.
    destruct (left_snake_loop2 cupbox cupoff dm cd (length pre + length lo)
                (seq (S (length pre + length lo)) (length ro))
                (pre ++ Ls ++ [(capbox, j')]) Hcup Rs post HRpos)
      as [ys2 [Hys2 Hlen2]].
    rewrite !length_app in Hys2. cbn [length] in Hys2.
    replace (length pre + (length Ls + 1))%nat
      with (S (length pre + length lo)) in Hys2 by lia.
    replace (S (length pre + length lo) + length Rs)%nat
      with (S (length pre + length mid)) in Hys2 by lia.
    rewrite HRs, <- !app_assoc in Hys2. cbn [app] in Hys2.
    rewrite Hgeom in Hys2. unfold at_wire in Hys2 at 1.
    rewrite Hys2. clear Hys2.
    replace (pre ++ Ls ++ (capbox, j') :: (cupbox, cupoff)
                 :: map (shift_layer (clen (cupbox, cupoff) - dlen (cupbox, cupoff)))
                        (at_wire j' Rs) ++ post)
      with ((pre ++ Ls) ++ (capbox, j') :: (cupbox, cupoff)
                 :: map (shift_layer (clen (cupbox, cupoff) - dlen (cupbox, cupoff)))
                        (at_wire j' Rs) ++ post)
      by (now rewrite <- app_assoc).
    replace (length pre + length lo)%nat with (length (pre ++ Ls))
      by (rewrite length_app; lia).
    rewrite splice_adjacent, <- app_assoc.
    exists (ys1 ++ ys2). split.
    + now rewrite <- app_assoc.
    + rewrite length_app. lia.
  - (* right snake *)
    assert (Hdom : (1 <= length (box_dom cupbox))%nat)
      by (unfold dlen in Hhit; simpl in Hhit; lia).
    subst j'.
    destruct (right_snake_loop1 _ _ _ _ _ _ _ _ Hp (pre ++ [(capbox, capoff)])
                cupbox post [] dm cd (length pre))
      as [ys1 [Hys1 Hlen1]];
      [rewrite length_app; simpl; lia | exact Hdom | constructor |].
    rewrite <- !app_assoc in Hys1. cbn [app Nat.add] in Hys1.
    rewrite Hys1. cbn [st_right]. clear Hys1.
    destruct (right_snake_loop2 capbox capoff dm cd
                (S (length pre + length ro))
                (seq (S (length pre)) (length ro))
                ((cupbox, capoff + 1) :: Ls ++ post) Hcap Rs pre HRpos)
      as [ys2 [Hys2 Hlen2]].
    rewrite HRs in Hys2. rewrite Hys2. clear Hys2.
    replace (S (length pre + length ro))%nat
      with (S (length (pre ++ map (shift_layer
                                      (dlen (capbox, capoff) - clen (capbox, capoff)))
                                   (at_wire (capoff + 1) Rs))))
      by (rewrite length_app, length_map, at_wire_length; lia).
    replace (length pre + length ro)%nat
      with (length (pre ++ map (shift_layer
                                   (dlen (capbox, capoff) - clen (capbox, capoff)))
                                (at_wire (capoff + 1) Rs)))
      by (rewrite length_app, length_map, at_wire_length; lia).
    rewrite (app_assoc pre), splice_adjacent, <- app_assoc.
    exists (ys1 ++ ys2). split.
    + now rewrite <- app_assoc.
    + rewrite length_app. lia.
Qed.

(** A generator that its constructor accepts: a [Cup] or a [Cap] only exists
    with the operands that [Cup.__init__] or [Cap.__init__] let through. *)
Definition built_by_constructor (b : Box) : Prop :=
  match b with
  | Cup l r => Cup_init l r = Ok (Cup l r)
  | Cap l r => Cap_init l r = Ok (Cap l r)
  | _ => True
  end.

Lemma Cup_arity (l r : Ty) :
  built_by_constructor (Cup l r) -> length (box_dom (Cup l r)) = 2%nat.
Proof.
  unfold built_by_constructor, Cup_init. intro H. cbn [box_dom].
  destruct (Nat.eqb_spec (length l) 1), (Nat.eqb_spec (length r) 1);
    simpl in H; try discriminate.
  rewrite length_app. lia.
Qed.

Lemma Cap_arity (l r : Ty) :
  built_by_constructor (Cap l r) -> length (box_cod (Cap l r)) = 2%nat.
Proof.
  unfold built_by_constructor, Cap_init. intro H. cbn [box_cod].
  destruct (Nat.eqb_spec (length l) 1), (Nat.eqb_spec (length r) 1);
    simpl in H; try discriminate.
  rewrite length_app. lia.
Qed.

Lemma shift_layer_boxes (k : Z) (ls : list (Box * Z)) :
  map fst (map (shift_layer k) ls) = map fst ls.
Proof. rewrite map_map. reflexivity. Qed.

Lemma length_two_replaced {A} (ls : list A) (i : nat) (a b : A) :
  (S i < length ls)%nat ->
  length (firstn i ls ++ [a; b] ++ skipn (S (S i)) ls) = length ls.
Proof.
  intro H. rewrite !length_app, length_firstn, length_skipn.
  cbn [length]. lia.
Qed.

Lemma swap_adjacent_length (ls ls' : list (Box * Z)) (i : nat) :
  swap_adjacent ls i = Ok ls' -> length ls' = length ls.
Proof.
  unfold swap_adjacent.
  destruct (nth_error ls i) as [l0|] eqn:E0; [|discriminate].
  destruct (nth_error ls (S i)) as [l1|] eqn:E1; [|discriminate].
  destruct (swap_layers i l0 l1) as [p|e]; [|discriminate].
  cbn [bind]. intro H; injection H as <-.
  apply length_two_replaced. apply nth_error_Some. congruence.
Qed.

Lemma move_up_length (steps : nat) :
  forall (ls ls' : list (Box * Z)) (i : nat),
    move_up ls i steps = Ok ls' -> length ls' = length ls.
Proof.
  induction steps as [|steps IH]; intros ls ls' i; cbn [move_up].
  - intro H; injection H as <-. reflexivity.
  - destruct (swap_adjacent ls (i - 1)) as [ls1|e] eqn:E; [|discriminate].
    cbn [bind]. intro H. apply IH in H. apply swap_adjacent_length in E. lia.
Qed.

Lemma move_down_length (steps : nat) :
  forall (ls ls' : list (Box * Z)) (i : nat),
    move_down ls i steps = Ok ls' -> length ls' = length ls.
Proof.
  induction steps as [|steps IH]; intros ls ls' i; cbn [move_down].
  - intro H; injection H as <-. reflexivity.
  - destruct (swap_adjacent ls i) as [ls1|e] eqn:E; [|discriminate].
    cbn [bind]. intro H. apply IH in H. apply swap_adjacent_length in E. lia.
Qed.

Lemma interchange_len (d d' : Diagram) (i j : nat) :
  interchange d i j = Ok d' -> len d' = len d.
Proof.
  unfold interchange, len.
  destruct (j <? i)%nat.
  - destruct (move_up (layers d) i (i - j)) as [ls|e] eqn:E; [|discriminate].
    cbn [bind]. intro H; injection H as <-. cbn [layers].
    eapply move_up_length; eassumption.
  - destruct (move_down (layers d) i (j - i)) as [ls|e] eqn:E; [|discriminate].
    cbn [bind]. intro H; injection H as <-. cbn [layers].
    eapply move_down_length; eassumption.
Qed.

Lemma for_yield_len body :
  (forall s box s', body s box = Ok s' ->
                    len (st_diagram s') = len (st_diagram s)) ->
  forall xs s ys r,
    for_yield body xs s = (ys, r) ->
    Forall (fun y => len y = len (st_diagram s)) ys
    /\ (forall s', r = Ok s' -> len (st_diagram s') = len (st_diagram s)).
Proof.
  intros Hbody. induction xs as [|x xs IH]; intros s ys r; cbn [for_yield].
  - intro H; injection H as <- <-. split; [constructor|].
    intros s' E; injection E as <-. reflexivity.
  - destruct (body s x) as [s1|e] eqn:E1.
    + destruct (for_yield body xs s1) as [ys1 r1] eqn:E2.
      intro H; injection H as <- <-.
      destruct (IH _ _ _ E2) as [Hys Hr]. apply Hbody in E1.
      split.
      * constructor; [exact E1|].
        eapply Forall_impl; [|exact Hys]. simpl; intros; congruence.
      * intros s' Es'. rewrite (Hr s' Es'). exact E1.
    + intro H; injection H as <- <-. split; [constructor|discriminate].
Qed.

Lemma unsnake_body_len body :
  In body [left_snake_body1; left_snake_body2;
           right_snake_body1; right_snake_body2] ->
  forall s box s', body s box = Ok s' ->
                   len (st_diagram s') = len (st_diagram s).
Proof.
  intros Hin s box s'.
  assert (Hcase : forall i j (k : Diagram -> unsnake_state),
             (forall d0, st_diagram (k d0) = d0) ->
             (diagram <- interchange (st_diagram s) i j ;; Ok (k diagram))
             = Ok s' -> len (st_diagram s') = len (st_diagram s)).
  { intros i j k Hk.
    destruct (interchange (st_diagram s) i j) as [d1|e] eqn:E; [|discriminate].
    cbn [bind]. intro H; injection H as <-. rewrite Hk.
    eapply interchange_len; eassumption. }
  simpl in Hin.
  destruct Hin as [<-|[<-|[<-|[<-|[]]]]]; apply Hcase; reflexivity.
Qed.

Lemma unsnake_steps_len (d : Diagram) cup cap lo ro ls ys r :
  unsnake d cup cap (lo, ro) ls = (ys, r) ->
  Forall (fun y => len y = len d) (removelast ys) \/ r <> Returns tt.
Proof.
  unfold unsnake.
  set (s0 := mkState d cup cap ro).
  set (body1 := if ls then left_snake_body1 else right_snake_body1).
  set (body2 := if ls then left_snake_body2 else right_snake_body2).
  assert (H1 : In body1 [left_snake_body1; left_snake_body2;
                         right_snake_body1; right_snake_body2])
    by (destruct ls; simpl; auto).
  assert (H2 : In body2 [left_snake_body1; left_snake_body2;
                         right_snake_body1; right_snake_body2])
    by (destruct ls; simpl; auto).
  replace (if ls then for_yield left_snake_body1 lo s0
           else for_yield right_snake_body1 (rev lo) s0)
    with (for_yield body1 (if ls then lo else rev lo) s0)
    by (destruct ls; reflexivity).
  destruct (for_yield body1 _ s0) as [ys1 [s1|e]] eqn:E1.
  - replace (if ls then for_yield left_snake_body2 (rev (st_right s1)) s1
             else for_yield right_snake_body2 (st_right s1) s1)
      with (for_yield body2 (if ls then rev (st_right s1) else st_right s1) s1)
      by (destruct ls; reflexivity).
    destruct (for_yield body2 _ s1) as [ys2 [s2|e]] eqn:E2.
    + intro H; injection H as <- <-. left.
      destruct (for_yield_len _ (unsnake_body_len _ H1) _ _ _ _ E1) as [F1 G1].
      destruct (for_yield_len _ (unsnake_body_len _ H2) _ _ _ _ E2) as [F2 _].
      rewrite app_assoc, removelast_last.
      apply Forall_app; split; [exact F1|].
      eapply Forall_impl; [|exact F2]. simpl. intros y Hy.
      rewrite Hy. apply (G1 s1 eq_refl).
    + intro H; injection H as <- <-. right. discriminate.
  - intro H; injection H as <- <-. right. discriminate.
Qed.

Lemma snake_at_arities (d : Diagram) cup cap lo ro ls pre capL mid cupL post j' Ls Rs :
  Forall built_by_constructor (boxes d) ->
  snake_at (layers d) cup cap lo ro ls pre capL mid cupL post j' Ls Rs ->
  length (box_dom (fst cupL)) = 2%nat /\ length (box_cod (fst capL)) = 2%nat.
Proof.
  intros Hwf (E & _ & _ & HisCap & HisCup & _).
  unfold boxes in Hwf. rewrite E in Hwf. rewrite Forall_forall in Hwf.
  split.
  - destruct (fst cupL) as [| |l r|] eqn:Ec; try discriminate.
    apply Cup_arity. apply Hwf. rewrite <- Ec. apply in_map.
    apply in_or_app. right. right. apply in_or_app. right. left. reflexivity.
  - destruct (fst capL) as [| | |l r] eqn:Ec; try discriminate.
    apply Cap_arity. apply Hwf. rewrite <- Ec. apply in_map.
    apply in_or_app. right. left. reflexivity.
Qed.

Lemma unsnaked_boxes ls pre capL mid cupL post j' Ls Rs :
  Permutation (map fst mid) (map fst Ls ++ map fst Rs) ->
  Permutation (map fst (pre ++ capL :: mid ++ cupL :: post))
              (fst capL :: fst cupL
                 :: map fst (unsnaked ls pre capL cupL post j' Ls Rs)).
Proof.
  intro Hmid.
  assert (HF : Permutation (map fst pre ++ map fst mid ++ map fst post)
                 (map fst (unsnaked ls pre capL cupL post j' Ls Rs))).
  { unfold unsnaked.
    destruct ls; rewrite !map_app, !shift_layer_boxes, at_wire_boxes;
      apply Permutation_app_head; rewrite app_assoc;
      apply Permutation_app_tail; rewrite Hmid;
      [reflexivity | apply Permutation_app_comm]. }
  rewrite map_app. cbn [map]. rewrite map_app. cbn [map].
  rewrite <- Permutation_middle. apply perm_skip.
  rewrite app_assoc, <- Permutation_middle. apply perm_skip.
  rewrite <- app_assoc. exact HF.
Qed.

(** C4. One snake elimination, started on the snake that [find_snake]
    returns in a diagram whose cups and caps were built by their
    constructors: [unsnake] yields one diagram for each obstruction (the
    result of the interchange that moves it, a diagram with as many layers as
    before), then one last diagram, the spliced one, and stops. The last
    diagram has two layers fewer than the diagram the elimination started
    from: the cap and the cup are gone and every other generator is kept. *)
Theorem unsnake_yields_interchanges_then_splice
        (d : Diagram) (cup cap : nat) (lo ro : list nat) (left_snake : bool) :
  Forall built_by_constructor (boxes d) ->
  find_snake d = Some (cup, cap, (lo, ro), left_snake) ->
  exists (steps : list Diagram) (final : Diagram) (capbox cupbox : Box),
    unsnake d cup cap (lo, ro) left_snake = (steps ++ [final], Returns tt)
    /\ length steps = (length lo + length ro)%nat
    /\ (length lo + length ro = cup - cap - 1)%nat
    /\ Forall (fun s => len s = len d) steps
    /\ (len final + 2 = len d)%nat
    /\ dom final = dom d /\ cod final = cod d
    /\ nth_error (boxes d) cap = Some capbox /\ isCap capbox = true
    /\ nth_error (boxes d) cup = Some cupbox /\ isCup cupbox = true
    /\ Permutation (boxes d) (capbox :: cupbox :: boxes final).
Proof.
  intros Hwf Hfind.
  destruct (find_snake_at _ _ _ _ _ _ Hfind)
    as (pre & capL & mid & cupL & post & j' & Ls & Rs & Hat).
  destruct (snake_at_arities _ _ _ _ _ _ _ _ _ _ _ _ _ _ Hwf Hat) as [Hcup Hcap].
  destruct (unsnake_exact _ _ _ _ _ _ _ _ _ _ _ _ _ _ Hat) as [steps [Hun Hlen]];
    try lia.
  destruct Hat as (E & -> & -> & HisCap & HisCup & Hp & Hhit & Hgeom).
  destruct (passes_lengths _ _ _ _ _ _ _ _ Hp) as (HLs & HRs & Hmid).
  exists steps, (mkDiagram (dom d) (cod d)
                   (unsnaked left_snake pre capL cupL post j' Ls Rs)),
    (fst capL), (fst cupL).
  pose proof (unsnaked_boxes left_snake pre capL mid cupL post j' Ls Rs
                (passes_boxes _ _ _ _ _ _ _ _ Hp)) as Hperm.
  repeat match goal with |- _ /\ _ => split end; auto.
  - lia.
  - destruct (unsnake_steps_len _ _ _ _ _ _ _ _ Hun) as [H|H]; [|congruence].
    now rewrite removelast_last in H.
  - apply Permutation_length in Hperm. unfold len. rewrite E.
    cbn [layers length] in *. rewrite !length_map in Hperm. lia.
  - unfold boxes. rewrite E, map_app, nth_error_app2 by (rewrite length_map; lia).
    rewrite length_map, Nat.sub_diag. reflexivity.
  - unfold boxes. rewrite E, map_app, nth_error_app2 by (rewrite length_map; lia).
    rewrite length_map.
    replace (S (length pre + length mid) - length pre)%nat
      with (S (length mid)) by lia.
    cbn [map nth_error]. rewrite map_app.
    rewrite nth_error_app2 by (rewrite length_map; lia).
    rewrite length_map, Nat.sub_diag. reflexivity.
  - unfold boxes. rewrite E. exact Hperm.
Qed.

Definition docstring_diagram : Diagram :=
  mkDiagram [mkOb "s" 0; mkOb "n" 0] [mkOb "n" 0; mkOb "s" 0]
    [ (GenBox "g" [mkOb "s" 0; mkOb "n" 0] [mkOb "n" 0] None false, 0);
      (Cap [mkOb "n" 1] [mkOb "n" 0], 1);
      (GenBox "f" [mkOb "n" 0] [mkOb "n" 0] None true, 0);
      (GenBox "f" [mkOb "n" 0] [mkOb "n" 0] None false, 2);
      (Cup [mkOb "n" 0] [mkOb "n" 1], 0);
      (GenBox "h" [mkOb "n" 0] [mkOb "n" 0; mkOb "s" 0] None false, 0) ].

Lemma unsnake_yields_interchanges_then_splice_witness :
  exists (steps : list Diagram) (final : Diagram) (capbox cupbox : Box),
    unsnake docstring_diagram 4 1 ([2%nat], [3%nat]) true
    = (steps ++ [final], Returns tt)
    /\ length steps = (length [2%nat] + length [3%nat])%nat
    /\ (length [2%nat] + length [3%nat] = 4 - 1 - 1)%nat
    /\ Forall (fun s => len s = len docstring_diagram) steps
    /\ (len final + 2 = len docstring_diagram)%nat
    /\ dom final = dom docstring_diagram /\ cod final = cod docstring_diagram
    /\ nth_error (boxes docstring_diagram) 1 = Some capbox
    /\ isCap capbox = true
    /\ nth_error (boxes docstring_diagram) 4 = Some cupbox
    /\ isCup cupbox = true
    /\ Permutation (boxes docstring_diagram) (capbox :: cupbox :: boxes final).
Proof.
  apply (unsnake_yields_interchanges_then_splice docstring_diagram).
  - repeat constructor.
  - reflexivity.
Defined.

(** ** The wire followed past known layers *)

Lemma follow_wire_from_passes (n : nat) mid i j lo ro j' Ls Rs :
  passes mid i j lo ro j' Ls Rs ->
  (forall hit post,
      snd hit <= j' < snd hit + dlen hit ->
      follow_wire_from n (mid ++ hit :: post) i j [] []
      = ((i + length mid)%nat, j', (lo, ro)))
  /\ follow_wire_from n mid i j [] [] = (n, j', (lo, ro)).
Proof.
  induction 1 as [i j
                 | l mid i j lo ro j' Ls Rs Hl Hp [IH1 IH2]
                 | l mid i j lo ro j' Ls Rs Hr Hp [IH1 IH2]].
  - split; [|reflexivity].
    intros [hbox hoff] post Hhit. unfold dlen in Hhit. cbn [fst snd] in Hhit.
    cbn [app follow_wire_from length].
    destruct (Z.leb_spec hoff j); [|lia].
    destruct (Z.ltb_spec j (hoff + Z.of_nat (length (box_dom hbox)))); [|lia].
    cbn [andb]. now rewrite Nat.add_0_r.
  - destruct l as [box off]. unfold dlen, clen in *. cbn [fst snd] in *.
    assert (Hgo : forall rest,
               follow_wire_from n ((box, off) :: rest) i j [] []
               = follow_wire_from n rest (S i)
                   (j + (Z.of_nat (length (box_cod box))
                         - Z.of_nat (length (box_dom box)))) [i] []).
    { intro rest. cbn [follow_wire_from].
      destruct (Z.leb_spec off j); [|lia].
      destruct (Z.ltb_spec j (off + Z.of_nat (length (box_dom box)))); [lia|].
      reflexivity. }
    split.
    + intros hit post Hhit. cbn [app]. rewrite Hgo, follow_wire_from_acc.
      rewrite (IH1 hit post Hhit). cbn [app length]. do 2 f_equal. lia.
    + rewrite Hgo, follow_wire_from_acc, IH2. reflexivity.
  - destruct l as [box off]. cbn [fst snd] in *.
    assert (Hgo : forall rest,
               follow_wire_from n ((box, off) :: rest) i j [] []
               = follow_wire_from n rest (S i) j [] [i]).
    { intro rest. cbn [follow_wire_from].
      destruct (Z.leb_spec off j); [lia|]. reflexivity. }
    split.
    + intros hit post Hhit. cbn [app]. rewrite Hgo, follow_wire_from_acc.
      rewrite (IH1 hit post Hhit). cbn [app length]. do 2 f_equal. lia.
    + rewrite Hgo, follow_wire_from_acc, IH2. reflexivity.
Qed.

Lemma passes_all_right (ls : list (Box * Z)) :
  forall (i : nat) (j : Z),
    Forall (fun l => j < snd l) ls ->
    exists Rs, passes ls i j [] (seq i (length ls)) j [] Rs.
Proof.
  induction ls as [|l ls IH]; intros i j H.
  - exists []. constructor.
  - inversion_clear H as [|? ? Hl Hls].
    destruct (IH (S i) j Hls) as [Rs HRs].
    eexists. cbn [length seq]. apply passes_right; eassumption.
Qed.

(** ** Nested caps over nested cups *)

(** Caps side by side going down to the right, cups going down to the left:
    the layers of [transpose(Id(t))]. *)
Fixpoint cap_stack (s : Z) (bs : list Box) : list (Box * Z) :=
  match bs with
  | [] => []
  | b :: bs' => (b, s) :: cap_stack (s + 1) bs'
  end.

Fixpoint cup_stack (top : Z) (bs : list Box) : list (Box * Z) :=
  match bs with
  | [] => []
  | b :: bs' => (b, top) :: cup_stack (top - 1) bs'
  end.

Definition nested (s : Z) (caps_ cups_ : list Box) : list (Box * Z) :=
  cap_stack s caps_
  ++ cup_stack (s + 2 * Z.of_nat (length caps_) - 1) cups_.

Definition cap_like (b : Box) : Prop :=
  isCap b = true /\ length (box_cod b) = 2%nat.
Definition cup_like (b : Box) : Prop :=
  isCup b = true /\ length (box_dom b) = 2%nat.

Lemma cap_like_dom (b : Box) : cap_like b -> box_dom b = [].
Proof. destruct b; intros [H _]; try discriminate. reflexivity. Qed.

Lemma cap_stack_length s bs : length (cap_stack s bs) = length bs.
Proof. revert s; induction bs; intro s; simpl; auto. Qed.

Lemma cup_stack_length s bs : length (cup_stack s bs) = length bs.
Proof. revert s; induction bs; intro s; simpl; auto. Qed.

Lemma cap_stack_right_of (bs : list Box) :
  forall s j, j < s -> Forall (fun l => j < snd l) (cap_stack s bs).
Proof.
  induction bs as [|b bs IH]; intros s j H; cbn [cap_stack]; constructor.
  - simpl; lia.
  - apply IH. lia.
Qed.

Lemma cup_stack_right_of (bs : list Box) :
  forall top j, j + Z.of_nat (length bs) <= top ->
                Forall (fun l => j < snd l) (cup_stack top bs).
Proof.
  induction bs as [|b bs IH]; intros top j H; cbn [cup_stack]; constructor.
  - simpl in *; lia.
  - apply IH. cbn [length] in H. lia.
Qed.

Lemma passes_cap_stack (bs : list Box) :
  Forall cap_like bs ->
  forall (i : nat) (s j : Z),
    s <= j ->
    passes (cap_stack s bs) i j (seq i (length bs)) []
           (j + 2 * Z.of_nat (length bs)) (cap_stack s bs) [].
Proof.
  induction 1 as [|b bs Hb Hbs IH]; intros i s j Hs; cbn [cap_stack length seq].
  - replace (j + 2 * Z.of_nat 0) with j by lia. constructor.
  - apply passes_left.
    + unfold dlen. cbn [fst snd]. rewrite (cap_like_dom b Hb). simpl. lia.
    + unfold dlen, clen. cbn [fst snd]. rewrite (cap_like_dom b Hb).
      destruct Hb as [_ Hb]. rewrite Hb.
      replace (j + 2 * Z.of_nat (S (length bs)))
        with (j + (Z.of_nat 2 - Z.of_nat (@length Ob []))
              + 2 * Z.of_nat (length bs)) by (simpl length; lia).
      apply IH. simpl length. lia.
Qed.

Lemma snake_at_nested (c u : Box) (caps_ cups_ : list Box) (s : Z) :
  cap_like c -> Forall cap_like caps_ -> cup_like u ->
  length caps_ = length cups_ ->
  snake_at (nested s (c :: caps_) (u :: cups_))
           (S (length caps_)) 0 (seq 1 (length caps_)) [] false
           [] (c, s) (cap_stack (s + 1) caps_)
           (u, s + 1 + 2 * Z.of_nat (length caps_))
           (cup_stack (s + 2 * Z.of_nat (length caps_)) cups_)
           (s + 1 + 2 * Z.of_nat (length caps_))
           (cap_stack (s + 1) caps_) [].
Proof.
  intros Hc Hcaps Hu Hlen. unfold snake_at. cbn [fst snd length app].
  split; [|split; [|split; [|split; [|split; [|split; [|split]]]]]].
  - unfold nested. cbn [cap_stack cup_stack app length]. do 3 f_equal.
    + f_equal. lia.
    + f_equal. lia.
  - reflexivity.
  - now rewrite cap_stack_length.
  - apply Hc.
  - apply Hu.
  - apply passes_cap_stack; [exact Hcaps|lia].
  - unfold dlen. cbn [fst]. destruct Hu as [_ Hu]. rewrite Hu. lia.
  - reflexivity.
Qed.

Lemma find_snake_nested (c u : Box) (caps_ cups_ : list Box) (s : Z)
      (dm cd : Ty) :
  cap_like c -> Forall cap_like caps_ -> cup_like u ->
  length caps_ = length cups_ ->
  find_snake (mkDiagram dm cd (nested s (c :: caps_) (u :: cups_)))
  = Some (S (length caps_), 0%nat, (seq 1 (length caps_), []), false).
Proof.
  intros Hc Hcaps Hu Hlen.
  pose proof (snake_at_nested c u caps_ cups_ s Hc Hcaps Hu Hlen)
    as (E & _ & _ & _ & _ & Hp & Hhit & _).
  cbn [fst snd length app] in *.
  set (d := mkDiagram dm cd (nested s (c :: caps_) (u :: cups_))).
  assert (Hlen_d : len d = S (length caps_ + S (length cups_))).
  { unfold len, d. cbn [layers]. rewrite E. cbn [app length].
    rewrite length_app, cap_stack_length. cbn [length].
    now rewrite cup_stack_length. }
  assert (Hleft : try_wire d 0 true s = None).
  { unfold try_wire, follow_wire. cbn [layers d]. rewrite E. cbn [app skipn].
    destruct (passes_all_right
                (cap_stack (s + 1) caps_
                 ++ (u, s + 1 + 2 * Z.of_nat (length caps_))
                 :: cup_stack (s + 2 * Z.of_nat (length caps_)) cups_) 1 s)
      as [Rs HRs].
    { apply Forall_app; split; [apply cap_stack_right_of; lia|].
      constructor; [cbn [snd]; lia|]. apply cup_stack_right_of. lia. }
    rewrite (proj2 (follow_wire_from_passes (len d) _ _ _ _ _ _ _ _ HRs)).
    now rewrite Nat.eqb_refl. }
  assert (Hright : try_wire d 0 false (s + 1)
                   = Some (S (length caps_), 0%nat,
                           (seq 1 (length caps_), []), false)).
  { unfold try_wire, follow_wire. cbn [layers d]. rewrite E. cbn [app skipn].
    rewrite (proj1 (follow_wire_from_passes (len d) _ _ _ _ _ _ _ _ Hp)
                   (u, s + 1 + 2 * Z.of_nat (length caps_))
                   (cup_stack (s + 2 * Z.of_nat (length caps_)) cups_) Hhit).
    rewrite cap_stack_length. cbn [Nat.add].
    rewrite Hlen_d.
    destruct (Nat.eqb_spec (S (length caps_)) (S (length caps_ + S (length cups_))));
      [lia|]. cbn [orb].
    assert (Ecup : nth_error
                     ((c, s) :: cap_stack (s + 1) caps_
                       ++ (u, s + 1 + 2 * Z.of_nat (length caps_))
                       :: cup_stack (s + 2 * Z.of_nat (length caps_)) cups_)
                     (S (length caps_))
                   = Some (u, s + 1 + 2 * Z.of_nat (length caps_))).
    { cbn [nth_error]. rewrite nth_error_app2 by (rewrite cap_stack_length; lia).
      now rewrite cap_stack_length, Nat.sub_diag. }
    rewrite Ecup. destruct Hu as [Hu _]. rewrite Hu, Z.eqb_refl. reflexivity. }
  unfold find_snake. rewrite Hlen_d. cbn [seq find_snake_from].
  cbn [layers d]. rewrite E. cbn [app nth_error].
  destruct Hc as [Hc _]. rewrite Hc.
  now rewrite Hleft, Hright.
Qed.

Lemma last_app_default {A} (l l' : list A) (d : A) :
  last (l ++ l') d = last l' (last l d).
Proof.
  destruct l' as [|x l'] using rev_ind.
  - now rewrite app_nil_r.
  - now rewrite app_assoc, !last_last.
Qed.

(** All the snakes of nested caps over nested cups are removed, the
    outermost first, and no layer is left. *)
Lemma remove_snakes_nested (dm cd : Ty) (caps_ : list Box) :
  Forall cap_like caps_ ->
  forall (cups_ : list Box) (s : Z) (fuel : nat),
    Forall cup_like cups_ ->
    length caps_ = length cups_ ->
    (length caps_ < fuel)%nat ->
    exists ys,
      remove_snakes fuel (mkDiagram dm cd (nested s caps_ cups_))
      = (ys, Returns (mkDiagram dm cd []))
      /\ last ys (mkDiagram dm cd (nested s caps_ cups_)) = mkDiagram dm cd []
      /\ (caps_ <> [] -> ys <> []).
Proof.
  induction 1 as [|c caps_ Hc Hcaps IH]; intros cups_ s fuel Hcups Hlen Hfuel.
  - destruct cups_; [|discriminate]. destruct fuel as [|fuel]; [lia|].
    exists []. repeat split; auto.
  - destruct cups_ as [|u cups_]; [discriminate|].
    inversion_clear Hcups as [|? ? Hu Hcups'].
    cbn [length] in Hlen, Hfuel. injection Hlen as Hlen.
    destruct fuel as [|fuel]; [lia|].
    cbn [remove_snakes].
    rewrite find_snake_nested by assumption.
    destruct (unsnake_exact (mkDiagram dm cd (nested s (c :: caps_) (u :: cups_)))
                _ _ _ _ _ _ _ _ _ _ _ _ _
                (snake_at_nested c u caps_ cups_ s Hc Hcaps Hu Hlen))
      as [steps [Hun _]].
    { cbn [fst]. destruct Hu as [_ Hu]. lia. }
    { cbn [fst]. destruct Hc as [_ Hc]. lia. }
    rewrite Hun. cbn [dom cod].
    rewrite last_last.
    assert (Efinal : unsnaked false [] (c, s)
                       (u, s + 1 + 2 * Z.of_nat (length caps_))
                       (cup_stack (s + 2 * Z.of_nat (length caps_)) cups_)
                       (s + 1 + 2 * Z.of_nat (length caps_))
                       (cap_stack (s + 1) caps_) []
                     = nested (s + 1) caps_ cups_).
    { unfold unsnaked, nested. cbn [at_wire map app]. do 2 f_equal. lia. }
    rewrite Efinal.
    destruct (IH cups_ (s + 1) fuel Hcups' Hlen ltac:(lia))
      as [ys [Hys [Hlast _]]].
    rewrite Hys. eexists. split; [reflexivity|]. split.
    + rewrite last_app_default, last_last. exact Hlast.
    + intros _ H. apply app_eq_nil in H. destruct H as [H _].
      apply app_eq_nil in H. destruct H as [_ H]. discriminate.
Qed.

(** ** The transpose of an identity *)

Definition transpose_caps (t : Ty) : list Box :=
  map fst (map (cap_layer (Ty_r t) t) (rev (seq 0 (length t)))).
Definition transpose_cups (t : Ty) : list Box :=
  map fst (map (cup_layer t (Ty_r t)) (seq 0 (length t))).

Lemma rev_seq (n : nat) :
  rev (seq 0 n) = map (fun k => (n - 1 - k)%nat) (seq 0 n).
Proof.
  induction n as [|n IH]; [reflexivity|].
  rewrite seq_S at 1. rewrite rev_app_distr. cbn [rev app Nat.add]. rewrite IH.
  cbn [seq map]. rewrite <- seq_shift, map_map. f_equal; [lia|].
  apply map_ext. intro k. lia.
Qed.

Lemma cap_stack_of_offsets (l : list (Box * Z)) :
  forall s : Z,
    map snd l = map (fun k => s + Z.of_nat k) (seq 0 (length l)) ->
    l = cap_stack s (map fst l).
Proof.
  induction l as [|[b o] l IH]; intros s H; [reflexivity|].
  cbn [map length seq fst snd cap_stack] in *.
  injection H as Ho H. f_equal; [f_equal; lia|].
  apply IH. rewrite H, <- seq_shift, map_map.
  apply map_ext. intro k. lia.
Qed.

Lemma cup_stack_of_offsets (l : list (Box * Z)) :
  forall top : Z,
    map snd l = map (fun k => top - Z.of_nat k) (seq 0 (length l)) ->
    l = cup_stack top (map fst l).
Proof.
  induction l as [|[b o] l IH]; intros top H; [reflexivity|].
  cbn [map length seq fst snd cup_stack] in *.
  injection H as Ho H. f_equal; [f_equal; lia|].
  apply IH. rewrite H, <- seq_shift, map_map.
  apply map_ext. intro k. lia.
Qed.

Lemma transpose_caps_stack (t : Ty) :
  map (cap_layer (Ty_r t) t) (rev (seq 0 (length t)))
  = cap_stack 0 (transpose_caps t).
Proof.
  unfold transpose_caps. apply cap_stack_of_offsets.
  rewrite !length_map, length_rev, length_seq.
  rewrite rev_seq, !map_map. apply map_ext_in.
  intros k Hk. apply in_seq in Hk. unfold cap_layer. cbn [snd].
  rewrite Ty_r_length. lia.
Qed.

Lemma transpose_cups_stack (t : Ty) :
  map (shift_layer (Z.of_nat (length (Ty_r t))))
      (map (cup_layer t (Ty_r t)) (seq 0 (length t)))
  = cup_stack (0 + 2 * Z.of_nat (length (transpose_caps t)) - 1)
              (transpose_cups t).
Proof.
  assert (E : transpose_cups t
              = map fst (map (shift_layer (Z.of_nat (length (Ty_r t))))
                             (map (cup_layer t (Ty_r t)) (seq 0 (length t)))))
    by (unfold transpose_cups; now rewrite shift_layer_boxes).
  rewrite E. apply cup_stack_of_offsets.
  unfold transpose_caps.
  rewrite !length_map, length_rev, length_seq, !map_map. apply map_ext_in.
  intros k Hk. apply in_seq in Hk. unfold cup_layer, shift_layer. cbn [snd].
  rewrite Ty_r_length. lia.
Qed.

Lemma transpose_caps_like (t : Ty) : Forall cap_like (transpose_caps t).
Proof.
  unfold transpose_caps. rewrite map_map. apply Forall_forall.
  intros b Hb. apply in_map_iff in Hb. destruct Hb as [i [<- Hi]].
  apply in_rev, in_seq in Hi. unfold cap_layer, cap_like. cbn [fst].
  split; [reflexivity|]. cbn [box_cod]. rewrite Ty_r_length.
  rewrite (slice_singleton (mkOb "" 0)) by (rewrite Ty_r_length; lia).
  rewrite (slice_singleton (mkOb "" 0)) by lia. reflexivity.
Qed.

Lemma transpose_cups_like (t : Ty) : Forall cup_like (transpose_cups t).
Proof.
  unfold transpose_cups. rewrite map_map. apply Forall_forall.
  intros b Hb. apply in_map_iff in Hb. destruct Hb as [i [<- Hi]].
  apply in_seq in Hi. unfold cup_layer, cup_like. cbn [fst].
  split; [reflexivity|]. cbn [box_dom].
  rewrite (slice_singleton (mkOb "" 0)) by lia.
  rewrite (slice_singleton (mkOb "" 0)) by (rewrite Ty_r_length; lia).
  reflexivity.
Qed.

Lemma transpose_caps_length (t : Ty) : length (transpose_caps t) = length t.
Proof. unfold transpose_caps. now rewrite !length_map, length_rev, length_seq. Qed.

Lemma transpose_cups_length (t : Ty) : length (transpose_cups t) = length t.
Proof. unfold transpose_cups. now rewrite !length_map, length_seq. Qed.

(** [transpose(Id(t))]: the nested caps of [t.r] and [t] on top of the nested
    cups of [t] and [t.r], an endomorphism of [t.r]. *)
Lemma transpose_Id (t : Ty) :
  transpose (Id t) false
  = Ok (mkDiagram (Ty_r t) (Ty_r t)
          (nested 0 (transpose_caps t) (transpose_cups t))).
Proof.
  unfold transpose. cbn [dom cod Id Diagram_init].
  rewrite caps_adjoint. cbn [bind].
  unfold then_, tensor, Id, Diagram_init. cbn [dom cod layers combine map app].
  rewrite Ty_eqb_refl. cbn [bind].
  rewrite cups_adjoint. cbn [bind dom cod layers map app].
  rewrite <- (app_assoc (Ty_r t) t (Ty_r t)), Ty_eqb_refl.
  rewrite !app_nil_r. unfold nested.
  now rewrite transpose_caps_stack, transpose_cups_stack.
Qed.

(** A collaborator with nothing left to do, for closed examples. *)
Definition nothing_to_normalize (d : Diagram) (left : bool) : trace :=
  ([], Returns tt).

Section SnakeLaw.

(** The pass that follows the snake removal is external; all that is asked
    of it is that it yields nothing on a diagram without layers. *)
Variable monoidal_normalize : Diagram -> bool -> trace.
Hypothesis monoidal_normalize_nil :
  forall (dm cd : Ty) (left : bool),
    monoidal_normalize (mkDiagram dm cd []) left = ([], Returns tt).

(** C1, as the code has it. For every type [t], [transpose(Id(t))] is a
    diagram from [t.r] to [t.r]; draining its normalisation sequence
    terminates without error; when [t] is not empty the last diagram of the
    sequence is [Id(t.r)] (when [t] is empty nothing is yielded); and
    [normal_form] of the diagram is [Id(t.r)]. *)
Theorem snake_law (t : Ty) :
  exists d ys,
    transpose (Id t) false = Ok d
    /\ dom d = Ty_r t /\ cod d = Ty_r t
    /\ normalize monoidal_normalize d false = (ys, Returns tt)
    /\ (t <> [] -> exists ys', ys = ys' ++ [Id (Ty_r t)])
    /\ (t = [] -> ys = [])
    /\ normal_form monoidal_normalize d = Returns (Id (Ty_r t)).
Proof.
  destruct (remove_snakes_nested (Ty_r t) (Ty_r t) (transpose_caps t)
              (transpose_caps_like t) (transpose_cups t) 0
              (S (len (mkDiagram (Ty_r t) (Ty_r t)
                         (nested 0 (transpose_caps t) (transpose_cups t)))))
              (transpose_cups_like t))
    as [ys [Hys [Hlast Hne]]].
  - now rewrite transpose_caps_length, transpose_cups_length.
  - unfold len, nested. cbn [layers].
    rewrite length_app, cap_stack_length. lia.
  - eexists. exists ys. split; [apply transpose_Id|].
    assert (Hnorm : normalize monoidal_normalize
                      (mkDiagram (Ty_r t) (Ty_r t)
                         (nested 0 (transpose_caps t) (transpose_cups t)))
                      false = (ys, Returns tt)).
    { unfold normalize. rewrite Hys, monoidal_normalize_nil.
      now rewrite app_nil_r. }
    cbn [dom cod]. repeat match goal with |- _ /\ _ => split end; auto.
    + intro Ht.
      assert (Hys_ne : ys <> []).
      { apply Hne. intro H. apply (f_equal (@length Box)) in H.
        rewrite transpose_caps_length in H. destruct t; [congruence|discriminate]. }
      exists (removelast ys).
      rewrite (app_removelast_last
                 (mkDiagram (Ty_r t) (Ty_r t)
                    (nested 0 (transpose_caps t) (transpose_cups t))) Hys_ne)
        at 1.
      now rewrite Hlast.
    + intros ->. cbn in Hys. now injection Hys as <-.
    + unfold normal_form. rewrite Hnorm, Hlast. reflexivity.
Qed.

End SnakeLaw.

Lemma snake_law_witness :
  exists d ys,
    transpose (Id [mkOb "a" 0; mkOb "b" (-1)]) false = Ok d
    /\ dom d = Ty_r [mkOb "a" 0; mkOb "b" (-1)]
    /\ cod d = Ty_r [mkOb "a" 0; mkOb "b" (-1)]
    /\ normalize nothing_to_normalize d false = (ys, Returns tt)
    /\ ([mkOb "a" 0; mkOb "b" (-1)] <> [] ->
        exists ys', ys = ys' ++ [Id (Ty_r [mkOb "a" 0; mkOb "b" (-1)])])
    /\ ([mkOb "a" 0; mkOb "b" (-1)] = [] -> ys = [])
    /\ normal_form nothing_to_normalize d
       = Returns (Id (Ty_r [mkOb "a" 0; mkOb "b" (-1)])).
Proof.
  apply (snake_law nothing_to_normalize). reflexivity.
Defined.

(** C1 as stated fails: normalising [transpose(Id(n))] ends on [Id(n.r)],
    which is not [Id(n)]. *)
Lemma snake_law_ends_on_the_adjoint :
  exists d,
    transpose (Id [mkOb "n" 0]) false = Ok d
    /\ normalize nothing_to_normalize d false
       = ([Id [mkOb "n" 1]], Returns tt)
    /\ normal_form nothing_to_normalize d = Returns (Id [mkOb "n" 1])
    /\ Id [mkOb "n" 1] <> Id [mkOb "n" 0]
    /\ (forall monoidal_normalize,
           (forall dm cd left,
               monoidal_normalize (mkDiagram dm cd []) left = ([], Returns tt)) ->
           normalize monoidal_normalize d false
           = ([Id [mkOb "n" 1]], Returns tt)).
Proof.
  eexists. split; [reflexivity|].
  split; [reflexivity|]. split; [reflexivity|]. split; [discriminate|].
  intros mono Hmono. unfold normalize.
  match goal with
  | |- context [remove_snakes ?f ?d] =>
      let r := eval vm_compute in (remove_snakes f d) in
      change (remove_snakes f d) with r
  end.
  cbv iota beta. now rewrite Hmono.
Qed.

(** ** The loop of [normalize] terminates *)

(** Every turn removes a cap and a cup, so the loop is over after at most as
    many turns as there are layers: the fuel that [normalize] gives is never
    used up. *)
Lemma remove_snakes_terminates (fuel : nat) :
  forall d : Diagram,
    Forall built_by_constructor (boxes d) ->
    (len d < fuel)%nat ->
    snd (remove_snakes fuel d) = Returns (last (fst (remove_snakes fuel d)) d)
    /\ find_snake (last (fst (remove_snakes fuel d)) d) = None.
Proof.
  induction fuel as [|fuel IH]; intros d Hwf Hfuel; [lia|].
  cbn [remove_snakes].
  destruct (find_snake d) as [[[[cup cap] [lo ro]] ls]|] eqn:Hfind;
    [|cbn [fst snd last]; auto].
  destruct (find_snake_at _ _ _ _ _ _ Hfind)
    as (pre & capL & mid & cupL & post & j' & Ls & Rs & Hat).
  destruct (snake_at_arities _ _ _ _ _ _ _ _ _ _ _ _ _ _ Hwf Hat) as [Hcup Hcap].
  destruct (unsnake_exact _ _ _ _ _ _ _ _ _ _ _ _ _ _ Hat) as [steps [Hun _]];
    try lia.
  rewrite Hun, last_last.
  set (final := mkDiagram (dom d) (cod d)
                  (unsnaked ls pre capL cupL post j' Ls Rs)).
  destruct Hat as (E & _ & _ & _ & _ & Hp & _).
  pose proof (unsnaked_boxes ls pre capL mid cupL post j' Ls Rs
                (passes_boxes _ _ _ _ _ _ _ _ Hp)) as Hperm.
  assert (Hwf' : Forall built_by_constructor (boxes final)).
  { rewrite Forall_forall in *. intros b Hb. apply Hwf.
    unfold boxes. rewrite E. eapply Permutation_in.
    - symmetry. exact Hperm.
    - right. right. exact Hb. }
  assert (Hlen' : (len final < fuel)%nat).
  { apply Permutation_length in Hperm. unfold len in *. rewrite E in Hfuel.
    unfold final. cbn [layers length] in *. rewrite !length_map in Hperm. lia. }
  destruct (IH final Hwf' Hlen') as [IH1 IH2].
  destruct (remove_snakes fuel final) as [ys r]. cbn [fst snd] in *.
  rewrite last_app_default, last_last. auto.
Qed.

(** * quantum.py: circuits and [is_mixed] *)

(** [quantum.Box]: a generator of circuits. [_mixed] is the flag that the
    constructor receives as [is_mixed]; [classical] is only set for a box
    that is not mixed. *)
Record CircuitBox : Type := mkCircuitBox {
  cbox_name : string;
  cbox_dom : BitsAndQubits;
  cbox_cod : BitsAndQubits;
  _mixed : bool;
  classical_ : option bool
}.

(** [BitsAndQubits._upgrade]: the objects of the type are among [Ob('bit')]
    and [Ob('qubit')], compared as objects, so with their winding number
    [z = 0]; any other object is a TypeError. *)
Definition BitsAndQubits_upgrade (ty : Ty) : result BitsAndQubits :=
  if forallb (fun x => Ob_eqb x bit || Ob_eqb x qubit) ty then Ok ty
  else Raise (TypeError (text "Expected BitsAndQubits")).

(** [quantum.Box.__init__]: a box that is not mixed has bits only or qubits
    only. The two tests are on the names of the objects of [dom @ cod];
    that tensor ([monoidal.Ty.tensor] is not among the sources) is a
    [BitsAndQubits] again, built through [BitsAndQubits._upgrade], which
    raises its TypeError before any name is looked at. A mixed box never
    computes [dom @ cod]. *)
Definition CircuitBox_init (name_ : string) (dom_ cod_ : BitsAndQubits)
           (is_mixed : bool) : result CircuitBox :=
  if negb is_mixed then
    wires <- BitsAndQubits_upgrade (dom_ ++ cod_) ;;
    if forallb (fun x => String.eqb (name x) "bit") wires then
      Ok (mkCircuitBox name_ dom_ cod_ is_mixed (Some true))
    else
      wires <- BitsAndQubits_upgrade (dom_ ++ cod_) ;;
      if forallb (fun x => String.eqb (name x) "qubit") wires then
        Ok (mkCircuitBox name_ dom_ cod_ is_mixed (Some false))
      else Raise (ValueError (text "dom and cod should be bits only or qubits only."))
  else Ok (mkCircuitBox name_ dom_ cod_ is_mixed None).

Record Circuit : Type := mkCircuit {
  circuit_dom : BitsAndQubits;
  circuit_cod : BitsAndQubits;
  circuit_layers : list (CircuitBox * Z)
}.

Definition circuit_boxes (c : Circuit) : list CircuitBox :=
  map fst (circuit_layers c).

(** Modelled from the spec: the codomain of each layer ([monoidal.Layer] is
    not among the sources). Scanning the layers from the domain, the
    codomain of the generator is spliced in at its offset. *)
Fixpoint layer_cods (scan : Ty) (ls : list (CircuitBox * Z)) : list Ty :=
  match ls with
  | [] => []
  | (box, off) :: ls' =>
      let cod_ := zslice_to off scan ++ cbox_cod box
                  ++ zslice_from (off + Z.of_nat (length (cbox_dom box))) scan in
      cod_ :: layer_cods cod_ ls'
  end.

(** The values that [is_mixed] can return: Python's [and] and [or] return
    one of their operands, here a count or a boolean. *)
Inductive pyval : Type := PyInt (n : Z) | PyBool (b : bool).

Definition truthy (v : pyval) : bool :=
  match v with
  | PyInt n => negb (n =? 0)
  | PyBool b => b
  end.

Definition py_and (a b : pyval) : pyval := if truthy a then b else a.
Definition py_or (a b : pyval) : pyval := if truthy a then a else b.

(** [ty.count(ob)]. *)
Definition count (ob : Ob) (t : Ty) : Z :=
  Z.of_nat (length (filter (Ob_eqb ob) t)).

(** [ty.count(bit) and ty.count(qubit)]. *)
Definition bits_and_qubits (t : Ty) : pyval :=
  py_and (PyInt (count bit t)) (PyInt (count qubit t)).

(** [Circuit.is_mixed]. *)
Definition is_mixed (self : Circuit) : pyval :=
  let both_bits_and_qubits :=
    py_or (bits_and_qubits (circuit_dom self))
          (PyBool (existsb (fun cod_ => truthy (bits_and_qubits cod_))
                           (layer_cods (circuit_dom self) (circuit_layers self)))) in
  py_or both_bits_and_qubits
        (PyBool (existsb _mixed (circuit_boxes self))).

Example is_mixed_returns_a_count :
  is_mixed (mkCircuit [bit; qubit; qubit] [bit; qubit; qubit] []) = PyInt 2.
Proof. reflexivity. Qed.

Lemma count_truthy (ob : Ob) (t : Ty) :
  truthy (PyInt (count ob t)) = true <-> In ob t.
Proof.
  unfold truthy, count. rewrite negb_true_iff, Z.eqb_neq.
  induction t as [|x t IH]; cbn [filter In].
  - simpl. split; [lia|tauto].
  - destruct (Ob_eqb_spec ob x) as [->|Hne]; cbn [length].
    + split; [auto|lia].
    + rewrite IH. split; [auto|]. intros [H|H]; [congruence|exact H].
Qed.

Lemma bits_and_qubits_truthy (t : Ty) :
  truthy (bits_and_qubits t) = true <-> In bit t /\ In qubit t.
Proof.
  unfold bits_and_qubits, py_and.
  destruct (truthy (PyInt (count bit t))) eqn:Hb.
  - rewrite count_truthy. apply count_truthy in Hb. tauto.
  - rewrite Hb. split; [discriminate|]. intros [H _].
    apply count_truthy in H. congruence.
Qed.

Lemma py_or_truthy (a b : pyval) :
  truthy (py_or a b) = truthy a || truthy b.
Proof. unfold py_or. destruct (truthy a) eqn:Ha; [now rewrite Ha|reflexivity]. Qed.

Definition all_named (w : string) (t : Ty) : Prop :=
  Forall (fun x => name x = w) t.

Lemma all_named_firstn w n t : all_named w t -> all_named w (firstn n t).
Proof.
  unfold all_named. intro H. rewrite <- (firstn_skipn n t) in H.
  apply Forall_app in H. tauto.
Qed.

Lemma all_named_skipn w n t : all_named w t -> all_named w (skipn n t).
Proof.
  unfold all_named. intro H. rewrite <- (firstn_skipn n t) in H.
  apply Forall_app in H. tauto.
Qed.

Lemma layer_cods_all_named (w : string) (ls : list (CircuitBox * Z)) :
  forall scan : Ty,
    all_named w scan ->
    Forall (fun l => all_named w (cbox_cod (fst l))) ls ->
    Forall (all_named w) (layer_cods scan ls).
Proof.
  induction ls as [|[box off] ls IH]; intros scan Hscan Hls; cbn [layer_cods].
  - constructor.
  - inversion_clear Hls as [|? ? Hbox Hls'].
    assert (Hcod : all_named w
                     (zslice_to off scan ++ cbox_cod box
                      ++ zslice_from (off + Z.of_nat (length (cbox_dom box))) scan)).
    { unfold all_named, zslice_to, zslice_from.
      apply Forall_app; split; [now apply all_named_firstn|].
      apply Forall_app; split; [exact Hbox|now apply all_named_skipn]. }
    constructor; [exact Hcod|]. now apply IH.
Qed.

Lemma all_named_one_kind (w : string) (t : Ty) :
  all_named w t -> truthy (bits_and_qubits t) = false.
Proof.
  intro H. destruct (truthy (bits_and_qubits t)) eqn:E; [|reflexivity].
  apply bits_and_qubits_truthy in E. destruct E as [Hb Hq].
  unfold all_named in H. rewrite Forall_forall in H.
  apply H in Hb, Hq. simpl in Hb, Hq. congruence.
Qed.

(** C8. [c.is_mixed] is true (as a Python truth value: the property returns
    a count when the domain holds both kinds of wire) exactly when [bit] and
    [qubit] both occur in the domain of [c] or in the codomain of one of its
    layers, or when one of its boxes has its [is_mixed] flag set. A circuit
    whose wires and boxes are all qubits (or all bits) and whose boxes are not
    mixed is not mixed. *)
Theorem is_mixed_spec (c : Circuit) :
  (truthy (is_mixed c) = true <->
   (In bit (circuit_dom c) /\ In qubit (circuit_dom c))
   \/ (exists cod_, In cod_ (layer_cods (circuit_dom c) (circuit_layers c))
                    /\ In bit cod_ /\ In qubit cod_)
   \/ (exists box, In box (circuit_boxes c) /\ _mixed box = true))
  /\ (forall w : string,
         all_named w (circuit_dom c) ->
         Forall (fun box => _mixed box = false
                            /\ all_named w (cbox_dom box ++ cbox_cod box))
                (circuit_boxes c) ->
         is_mixed c = PyBool false).
Proof.
  split.
  - unfold is_mixed. rewrite !py_or_truthy. cbn [truthy].
    rewrite !orb_true_iff, bits_and_qubits_truthy, !existsb_exists.
    split.
    + intros [[H|[cod_ [Hin H]]]|H]; auto.
      right. left. exists cod_. apply bits_and_qubits_truthy in H. tauto.
    + intros [H|[[cod_ [Hin H]]|H]]; auto.
      left. right. exists cod_. rewrite bits_and_qubits_truthy. tauto.
  - intros w Hdom Hboxes. unfold is_mixed.
    assert (Hcods : Forall (all_named w)
                      (layer_cods (circuit_dom c) (circuit_layers c))).
    { apply layer_cods_all_named; [exact Hdom|].
      unfold circuit_boxes in Hboxes. rewrite Forall_map in Hboxes.
      eapply Forall_impl; [|exact Hboxes]. intros l [_ H].
      unfold all_named in H. apply Forall_app in H. tauto. }
    assert (E1 : existsb (fun cod_ => truthy (bits_and_qubits cod_))
                   (layer_cods (circuit_dom c) (circuit_layers c)) = false).
    { destruct (existsb _ _) eqn:E; [|reflexivity].
      apply existsb_exists in E. destruct E as [cod_ [Hin E]].
      rewrite Forall_forall in Hcods.
      now rewrite (all_named_one_kind w cod_ (Hcods _ Hin)) in E. }
    assert (E2 : existsb _mixed (circuit_boxes c) = false).
    { destruct (existsb _mixed (circuit_boxes c)) eqn:E; [|reflexivity].
      apply existsb_exists in E. destruct E as [box [Hin E]].
      rewrite Forall_forall in Hboxes. destruct (Hboxes _ Hin). congruence. }
    rewrite E1, E2. unfold py_or at 2.
    rewrite (all_named_one_kind w _ Hdom). unfold py_or.
    cbn [truthy]. reflexivity.
Qed.

Lemma is_mixed_spec_witness :
  is_mixed (mkCircuit [qubit; qubit] [qubit]
              [(mkCircuitBox "Bra(0)" [qubit] [] false (Some false), 1)])
  = PyBool false.
Proof.
  apply (proj2 (is_mixed_spec _) "qubit"%string).
  - repeat constructor.
  - repeat constructor.
Defined.

(** * Functors (rigid.Functor) *)

(** The target of a functor: what [ob_factory] and [ar_factory] provide. The
    types form a monoid with the two adjoints; the arrows have identities, a
    composition that fails unless the types meet, a tensor, and the nested
    cups and caps. The laws are those of a strict monoidal category, stated
    on whiskering so that they also hold for the free diagrams, where the
    interchange law itself is a rewrite and not an equality. *)
Class Target : Type := {
  tTy : Type;
  tunit : tTy;
  ttensor : tTy -> tTy -> tTy;
  t_l : tTy -> tTy;
  t_r : tTy -> tTy;
  tAr : Type;
  tdom : tAr -> tTy;
  tcod : tAr -> tTy;
  tid : tTy -> tAr;
  tthen : tAr -> tAr -> result tAr;
  atensor : tAr -> tAr -> tAr;
  tcups : tTy -> tTy -> result tAr;
  tcaps : tTy -> tTy -> result tAr;
  ttensor_assoc : forall a b c,
      ttensor (ttensor a b) c = ttensor a (ttensor b c);
  ttensor_unit_l : forall a, ttensor tunit a = a;
  ttensor_unit_r : forall a, ttensor a tunit = a;
  tid_dom : forall a, tdom (tid a) = a;
  tid_cod : forall a, tcod (tid a) = a;
  atensor_dom : forall f g, tdom (atensor f g) = ttensor (tdom f) (tdom g);
  atensor_cod : forall f g, tcod (atensor f g) = ttensor (tcod f) (tcod g);
  tthen_typed : forall f g h,
      tthen f g = Ok h -> tcod f = tdom g /\ tdom h = tdom f /\ tcod h = tcod g;
  tthen_defined : forall f g,
      tcod f = tdom g -> exists h, tthen f g = Ok h;
  tthen_assoc : forall f g h fg gh,
      tthen f g = Ok fg -> tthen g h = Ok gh -> tthen fg h = tthen f gh;
  tthen_id_r : forall f, tthen f (tid (tcod f)) = Ok f;
  tid_tensor : forall a b, tid (ttensor a b) = atensor (tid a) (tid b);
  atensor_assoc : forall f g h,
      atensor (atensor f g) h = atensor f (atensor g h);
  whisker_r : forall f g h c,
      tthen f g = Ok h ->
      tthen (atensor f (tid c)) (atensor g (tid c)) = Ok (atensor h (tid c));
  whisker_l : forall f g h c,
      tthen f g = Ok h ->
      tthen (atensor (tid c) f) (atensor (tid c) g) = Ok (atensor (tid c) h);
  tensor_as_whiskers : forall f g,
      tthen (atensor f (tid (tdom g))) (atensor (tid (tcod f)) g)
      = Ok (atensor f g);
  tcups_typed : forall a b f,
      tcups a b = Ok f -> tdom f = ttensor a b /\ tcod f = tunit;
  tcaps_typed : forall a b f,
      tcaps a b = Ok f -> tdom f = tunit /\ tcod f = ttensor a b
}.

(** A functor: the images of the objects of level 0, by name, and the images
    of the boxes. A missing image is a [KeyError] when it is looked up. *)
Record Functor `{Target} : Type := mkFunctor {
  ob : string -> option tTy;
  ar : Box -> option tAr
}.

Section FunctorApplication.

Context `{T : Target}.
Variable F : Functor.

(** [adjoint(obj)] in [Functor.__call__]: the image of the object of level 0,
    then [l] (resp. [r]) as many times as the level says. *)
Definition adjoint (obj : Ob) : result tTy :=
  match ob F (name obj) with
  | None => Raise (KeyError (text (name obj)))
  | Some image =>
      if z obj <? 0 then Ok (Nat.iter (Z.to_nat (- z obj)) t_l image)
      else if z obj >? 0 then Ok (Nat.iter (Z.to_nat (z obj)) t_r image)
      else Ok image
  end.

(** [F(ty)]: [ob_factory().tensor( *map(adjoint, ty.objects))]. *)
Definition F_ty (t : Ty) : result tTy :=
  images <- mapM adjoint t ;;
  Ok (fold_left ttensor images tunit).

(** [F(box)]: cups and caps come from the target's own constructors, every
    other box from the mapping [ar]. *)
Definition F_box (b : Box) : result tAr :=
  match b with
  | Cup _ _ =>
      l <- F_ty (slice_to 1 (box_dom b)) ;;
      r <- F_ty (slice_from 1 (box_dom b)) ;;
      tcups l r
  | Cap _ _ =>
      l <- F_ty (slice_to 1 (box_cod b)) ;;
      r <- F_ty (slice_from 1 (box_cod b)) ;;
      tcaps l r
  | _ =>
      match ar F b with
      | Some image => Ok image
      | None => Raise (KeyError (text "box"))
      end
  end.

(** Modelled from the spec: the application of a functor to a diagram
    ([monoidal.Functor.__call__] is not among the sources), layer by layer;
    each layer is the image of its box at the same tensor position, between
    the identities on the images of the wires on its left and on its
    right, and the layers are composed in the same order. *)
Definition layer_image (scan : Ty) (l : Box * Z) : result tAr :=
  left_ <- F_ty (zslice_to (snd l) scan) ;;
  right_ <- F_ty (zslice_from (snd l + Z.of_nat (length (box_dom (fst l)))) scan) ;;
  image <- F_box (fst l) ;;
  Ok (atensor (atensor (tid left_) image) (tid right_)).

Definition scan_step (scan : Ty) (l : Box * Z) : Ty :=
  zslice_to (snd l) scan ++ box_cod (fst l)
  ++ zslice_from (snd l + Z.of_nat (length (box_dom (fst l)))) scan.

Fixpoint F_layers (scan : Ty) (acc : tAr) (ls : list (Box * Z)) : result tAr :=
  match ls with
  | [] => Ok acc
  | l :: ls' =>
      image <- layer_image scan l ;;
      acc' <- tthen acc image ;;
      F_layers (scan_step scan l) acc' ls'
  end.

Definition F_diagram (d : Diagram) : result tAr :=
  dom_ <- F_ty (dom d) ;;
  F_layers (dom d) (tid dom_) (layers d).

End FunctorApplication.

(** The invariant of a diagram: scanning the layers from the domain, every
    generator finds its domain at its offset, and the scan ends on the
    codomain. *)
Fixpoint well_typed_from (scan : Ty) (ls : list (Box * Z)) (cod_ : Ty) : Prop :=
  match ls with
  | [] => scan = cod_
  | l :: ls' =>
      0 <= snd l
      /\ exists left_ right_,
          scan = left_ ++ box_dom (fst l) ++ right_
          /\ Z.of_nat (length left_) = snd l
          /\ well_typed_from (left_ ++ box_cod (fst l) ++ right_) ls' cod_
  end.

Definition well_typed (d : Diagram) : Prop :=
  well_typed_from (dom d) (layers d) (cod d).

(** ** Functors are monoidal on types *)

Lemma mapM_app {A B} (f : A -> result B) (s t : list A) :
  mapM f (s ++ t)
  = a <- mapM f s ;; b <- mapM f t ;; Ok (a ++ b).
Proof.
  induction s as [|x s IH]; cbn [app mapM bind].
  - destruct (mapM f t); reflexivity.
  - destruct (f x) as [y|e]; cbn [bind]; [|reflexivity].
    rewrite IH. destruct (mapM f s) as [ys|e]; cbn [bind]; [|reflexivity].
    destruct (mapM f t); reflexivity.
Qed.

Lemma bind_Ok_inv {A B} (r : result A) (k : A -> result B) (b : B) :
  bind r k = Ok b -> exists a, r = Ok a /\ k a = Ok b.
Proof. destruct r as [a|e]; cbn [bind]; [eauto|discriminate]. Qed.

Section FunctorTypes.

Context `{T : Target}.
Variable F : Functor.

Lemma fold_left_ttensor (l : list tTy) :
  forall a, fold_left ttensor l a = ttensor a (fold_left ttensor l tunit).
Proof.
  induction l as [|x l IH]; intro a; cbn [fold_left].
  - now rewrite ttensor_unit_r.
  - rewrite (IH (ttensor a x)), (IH (ttensor tunit x)).
    now rewrite ttensor_unit_l, ttensor_assoc.
Qed.

Lemma F_ty_nil : F_ty F [] = Ok tunit.
Proof. reflexivity. Qed.

Lemma F_ty_app (s t : Ty) (S0 T0 : tTy) :
  F_ty F s = Ok S0 -> F_ty F t = Ok T0 ->
  F_ty F (s ++ t) = Ok (ttensor S0 T0).
Proof.
  unfold F_ty. intros Hs Ht.
  apply bind_Ok_inv in Hs, Ht.
  destruct Hs as [is_ [Hs Es]], Ht as [it [Ht Et]].
  injection Es as <-. injection Et as <-.
  rewrite mapM_app, Hs, Ht. cbn [bind].
  now rewrite fold_left_app, fold_left_ttensor.
Qed.

Lemma F_ty_app_inv (s t : Ty) (X : tTy) :
  F_ty F (s ++ t) = Ok X ->
  exists S0 T0, F_ty F s = Ok S0 /\ F_ty F t = Ok T0 /\ X = ttensor S0 T0.
Proof.
  unfold F_ty. intro H. apply bind_Ok_inv in H.
  destruct H as [is_ [H E]]. injection E as <-.
  rewrite mapM_app in H. apply bind_Ok_inv in H. destruct H as [a [Ha H]].
  apply bind_Ok_inv in H. destruct H as [b [Hb H]]. injection H as <-.
  rewrite Ha, Hb. cbn [bind]. do 2 eexists. repeat split.
  now rewrite fold_left_app, fold_left_ttensor.
Qed.

End FunctorTypes.

(** ** Slices of a well-typed scan *)

Lemma zslice_to_app {A} (left_ rest : list A) (off : Z) :
  Z.of_nat (length left_) = off -> zslice_to off (left_ ++ rest) = left_.
Proof.
  intro H. unfold zslice_to, clamp_index.
  destruct (Z.ltb_spec off 0); [lia|].
  replace (Z.to_nat off) with (length left_) by lia.
  now rewrite firstn_app, Nat.sub_diag, firstn_all, firstn_O, app_nil_r.
Qed.

Lemma zslice_from_app {A} (left_ rest : list A) (off : Z) :
  Z.of_nat (length left_) = off -> zslice_from off (left_ ++ rest) = rest.
Proof.
  intro H. unfold zslice_from, clamp_index.
  destruct (Z.ltb_spec off 0); [lia|].
  replace (Z.to_nat off) with (length left_) by lia.
  now rewrite skipn_app, Nat.sub_diag, skipn_all.
Qed.

Lemma scan_step_split (left_ right_ : Ty) (l : Box * Z) :
  Z.of_nat (length left_) = snd l ->
  zslice_to (snd l) (left_ ++ box_dom (fst l) ++ right_) = left_
  /\ zslice_from (snd l + Z.of_nat (length (box_dom (fst l))))
                 (left_ ++ box_dom (fst l) ++ right_) = right_
  /\ scan_step (left_ ++ box_dom (fst l) ++ right_) l
     = left_ ++ box_cod (fst l) ++ right_.
Proof.
  intro H.
  assert (E1 : zslice_to (snd l) (left_ ++ box_dom (fst l) ++ right_) = left_)
    by now apply zslice_to_app.
  assert (E2 : zslice_from (snd l + Z.of_nat (length (box_dom (fst l))))
                           (left_ ++ box_dom (fst l) ++ right_) = right_).
  { rewrite app_assoc. apply zslice_from_app. rewrite length_app. lia. }
  unfold scan_step. now rewrite E1, E2.
Qed.

Lemma well_typed_from_scan (ls : list (Box * Z)) :
  forall scan cod_,
    well_typed_from scan ls cod_ -> fold_left scan_step ls scan = cod_.
Proof.
  induction ls as [|l ls IH]; intros scan cod_ H; cbn [well_typed_from fold_left] in *.
  - exact H.
  - destruct H as (_ & left_ & right_ & -> & Hoff & H).
    destruct (scan_step_split left_ right_ l Hoff) as (_ & _ & ->).
    now apply IH.
Qed.

(** ** The image of a diagram as a composite of layer images *)

Section FunctorDiagrams.

Context `{T : Target}.
Variable F : Functor.

(** The images of the layers, and their composite after [acc]. *)
Fixpoint images (scan : Ty) (ls : list (Box * Z)) : result (list tAr) :=
  match ls with
  | [] => Ok []
  | l :: ls' =>
      image <- layer_image F scan l ;;
      rest <- images (scan_step scan l) ls' ;;
      Ok (image :: rest)
  end.

Fixpoint compose_all (acc : tAr) (Ms : list tAr) : result tAr :=
  match Ms with
  | [] => Ok acc
  | M :: Ms' => acc' <- tthen acc M ;; compose_all acc' Ms'
  end.

Lemma F_layers_images (ls : list (Box * Z)) :
  forall scan acc Ms,
    images scan ls = Ok Ms -> F_layers F scan acc ls = compose_all acc Ms.
Proof.
  induction ls as [|l ls IH]; intros scan acc Ms H; cbn [images F_layers] in *.
  - injection H as <-. reflexivity.
  - apply bind_Ok_inv in H. destruct H as [M [HM H]].
    apply bind_Ok_inv in H. destruct H as [rest [Hrest H]]. injection H as <-.
    rewrite HM. cbn [bind compose_all].
    destruct (tthen acc M) as [acc'|e]; cbn [bind]; [|reflexivity].
    now apply IH.
Qed.

Lemma F_layers_Ok_images (ls : list (Box * Z)) :
  forall scan acc r,
    F_layers F scan acc ls = Ok r -> exists Ms, images scan ls = Ok Ms.
Proof.
  induction ls as [|l ls IH]; intros scan acc r H; cbn [images F_layers] in *.
  - eauto.
  - apply bind_Ok_inv in H. destruct H as [M [HM H]].
    apply bind_Ok_inv in H. destruct H as [acc' [Hacc H]].
    destruct (IH _ _ _ H) as [rest Hrest].
    rewrite HM, Hrest. cbn [bind]. eauto.
Qed.

Lemma images_app (ls1 ls2 : list (Box * Z)) :
  forall scan Ms1 Ms2,
    images scan ls1 = Ok Ms1 ->
    images (fold_left scan_step ls1 scan) ls2 = Ok Ms2 ->
    images scan (ls1 ++ ls2) = Ok (Ms1 ++ Ms2).
Proof.
  induction ls1 as [|l ls1 IH]; intros scan Ms1 Ms2 H1 H2;
    cbn [images app fold_left] in *.
  - injection H1 as <-. exact H2.
  - apply bind_Ok_inv in H1. destruct H1 as [M [HM H1]].
    apply bind_Ok_inv in H1. destruct H1 as [rest [Hrest H1]]. injection H1 as <-.
    rewrite HM. cbn [bind]. now rewrite (IH _ _ _ Hrest H2).
Qed.

Lemma compose_all_app (Ms1 Ms2 : list tAr) :
  forall acc r,
    compose_all acc Ms1 = Ok r ->
    compose_all acc (Ms1 ++ Ms2) = compose_all r Ms2.
Proof.
  induction Ms1 as [|M Ms1 IH]; intros acc r H; cbn [compose_all app] in *.
  - now injection H as <-.
  - apply bind_Ok_inv in H. destruct H as [acc' [Hacc H]].
    rewrite Hacc. cbn [bind]. now apply IH.
Qed.

Lemma compose_all_typed (Ms : list tAr) :
  forall acc r, compose_all acc Ms = Ok r -> tdom r = tdom acc.
Proof.
  induction Ms as [|M Ms IH]; intros acc r H; cbn [compose_all] in *.
  - now injection H as <-.
  - apply bind_Ok_inv in H. destruct H as [acc' [Hacc H]].
    rewrite (IH _ _ H). now apply tthen_typed in Hacc.
Qed.

(** Composing after [a]: the composite can be taken first. *)
Lemma compose_all_after (Ms : list tAr) :
  forall a x ax b,
    tthen a x = Ok ax ->
    compose_all x Ms = Ok b ->
    exists c, compose_all ax Ms = Ok c /\ tthen a b = Ok c.
Proof.
  induction Ms as [|M Ms IH]; intros a x ax b Hax Hb; cbn [compose_all] in *.
  - injection Hb as <-. eauto.
  - apply bind_Ok_inv in Hb. destruct Hb as [x' [Hx' Hb]].
    destruct (tthen_typed _ _ _ Hax) as (Hcod & _ & _).
    destruct (tthen_typed _ _ _ Hx') as (_ & Hdom & _).
    destruct (tthen_defined a x') as [ax' Hax']; [congruence|].
    rewrite (tthen_assoc _ _ _ _ _ Hax Hx'), Hax'. cbn [bind].
    now apply (IH a x').
Qed.

Lemma compose_all_whisker_r (c : tTy) (Ms : list tAr) :
  forall acc r,
    compose_all acc Ms = Ok r ->
    compose_all (atensor acc (tid c)) (map (fun M => atensor M (tid c)) Ms)
    = Ok (atensor r (tid c)).
Proof.
  induction Ms as [|M Ms IH]; intros acc r H; cbn [compose_all map] in *.
  - now injection H as <-.
  - apply bind_Ok_inv in H. destruct H as [acc' [Hacc H]].
    rewrite (whisker_r _ _ _ c Hacc). cbn [bind]. now apply IH.
Qed.

Lemma compose_all_whisker_l (c : tTy) (Ms : list tAr) :
  forall acc r,
    compose_all acc Ms = Ok r ->
    compose_all (atensor (tid c) acc) (map (fun M => atensor (tid c) M) Ms)
    = Ok (atensor (tid c) r).
Proof.
  induction Ms as [|M Ms IH]; intros acc r H; cbn [compose_all map] in *.
  - now injection H as <-.
  - apply bind_Ok_inv in H. destruct H as [acc' [Hacc H]].
    rewrite (whisker_l _ _ _ c Hacc). cbn [bind]. now apply IH.
Qed.

(** A box whose image goes from the image of its domain to the image of its
    codomain. *)
Definition typed_image (b : Box) : Prop :=
  forall image,
    F_box F b = Ok image ->
    exists A B, F_ty F (box_dom b) = Ok A /\ F_ty F (box_cod b) = Ok B
                /\ tdom image = A /\ tcod image = B.

Lemma layer_image_inv (scan : Ty) (l : Box * Z) (M : tAr) :
  layer_image F scan l = Ok M ->
  exists L R image,
    F_ty F (zslice_to (snd l) scan) = Ok L
    /\ F_ty F (zslice_from (snd l + Z.of_nat (length (box_dom (fst l)))) scan)
       = Ok R
    /\ F_box F (fst l) = Ok image
    /\ M = atensor (atensor (tid L) image) (tid R).
Proof.
  unfold layer_image. intro H.
  apply bind_Ok_inv in H. destruct H as [L [HL H]].
  apply bind_Ok_inv in H. destruct H as [R [HR H]].
  apply bind_Ok_inv in H. destruct H as [image [Hi H]].
  injection H as <-. eauto 8.
Qed.

(** The composite of the images of a well-typed list of layers ends on the
    image of the codomain. *)
Lemma compose_images_typed (ls : list (Box * Z)) :
  forall scan cod_ Ms acc r S0,
    well_typed_from scan ls cod_ ->
    Forall typed_image (map fst ls) ->
    images scan ls = Ok Ms ->
    F_ty F scan = Ok S0 -> tcod acc = S0 ->
    compose_all acc Ms = Ok r ->
    exists C0, F_ty F cod_ = Ok C0 /\ tcod r = C0.
Proof.
  induction ls as [|l ls IH]; intros scan cod_ Ms acc r S0 Hwt Hti HMs HS Hacc Hr;
    cbn [well_typed_from images map] in *.
  - injection HMs as <-. cbn [compose_all] in Hr. injection Hr as <-.
    subst cod_. eauto.
  - destruct Hwt as (_ & left_ & right_ & -> & Hoff & Hwt).
    inversion_clear Hti as [|? ? Hl Hls].
    apply bind_Ok_inv in HMs. destruct HMs as [M [HM HMs]].
    apply bind_Ok_inv in HMs. destruct HMs as [rest [Hrest HMs]].
    injection HMs as <-.
    cbn [compose_all] in Hr. apply bind_Ok_inv in Hr.
    destruct Hr as [acc' [Hacc' Hr]].
    destruct (scan_step_split left_ right_ l Hoff) as (E1 & E2 & E3).
    destruct (layer_image_inv _ _ _ HM) as (L & R & image & HL & HR & Hi & ->).
    rewrite E1 in HL. rewrite E2 in HR. rewrite E3 in Hrest.
    destruct (Hl image Hi) as (A & B & HA & HB & Hdom & Hcod).
    apply (IH _ _ _ acc' r (ttensor L (ttensor B R)) Hwt Hls Hrest); auto.
    + apply F_ty_app; [exact HL|]. now apply F_ty_app.
    + apply tthen_typed in Hacc'. destruct Hacc' as (_ & _ & ->).
      now rewrite !atensor_cod, !tid_cod, Hcod, ttensor_assoc.
Qed.

End FunctorDiagrams.

(** ** Functors preserve both compositions *)

Section FunctorHomomorphism.

Context `{T : Target}.
Variable F : Functor.

(** The image that the mapping [ar] gives to a box goes from the image of
    its domain to the image of its codomain. *)
Definition typed_ar (b : Box) : Prop :=
  forall image,
    ar F b = Some image ->
    exists A B, F_ty F (box_dom b) = Ok A /\ F_ty F (box_cod b) = Ok B
                /\ tdom image = A /\ tcod image = B.

(** The images of cups and caps are typed by the target's constructors. *)
Lemma typed_ar_image (b : Box) : typed_ar b -> typed_image F b.
Proof.
  intros H image Hi. destruct b as [n d c dt dg|l r|l r|l r]; cbn [F_box] in Hi.
  - destruct (ar F _) as [x|] eqn:E; [|discriminate].
    injection Hi as <-. exact (H _ E).
  - destruct (ar F _) as [x|] eqn:E; [|discriminate].
    injection Hi as <-. exact (H _ E).
  - apply bind_Ok_inv in Hi. destruct Hi as [L [HL Hi]].
    apply bind_Ok_inv in Hi. destruct Hi as [R [HR Hi]].
    destruct (tcups_typed _ _ _ Hi) as [Hd Hc].
    exists (ttensor L R), tunit. repeat split; auto.
    rewrite <- (firstn_skipn 1 (box_dom (Cup l r))). now apply F_ty_app.
  - apply bind_Ok_inv in Hi. destruct Hi as [L [HL Hi]].
    apply bind_Ok_inv in Hi. destruct Hi as [R [HR Hi]].
    destruct (tcaps_typed _ _ _ Hi) as [Hd Hc].
    exists tunit, (ttensor L R). repeat split; auto.
    rewrite <- (firstn_skipn 1 (box_cod (Cap l r))). now apply F_ty_app.
Qed.


(** The boxes that [F] looks up in the mapping [ar]: all but the cups and
    the caps. *)
Definition is_generator (b : Box) : bool :=
  match b with
  | Cup _ _ | Cap _ _ => false
  | _ => true
  end.

(** A box whose image, when it is looked up in [ar], is typed; nothing is
    asked of what [ar] may hold for a cup or a cap. *)
Definition typed_generator (b : Box) : Prop :=
  is_generator b = true -> typed_ar b.

Lemma F_box_Cup (l r : Ty) :
  F_box F (Cup l r)
  = (x <- F_ty F (slice_to 1 (l ++ r)) ;;
     y <- F_ty F (slice_from 1 (l ++ r)) ;; tcups x y).
Proof. reflexivity. Qed.

Lemma F_box_Cap (l r : Ty) :
  F_box F (Cap l r)
  = (x <- F_ty F (slice_to 1 (l ++ r)) ;;
     y <- F_ty F (slice_from 1 (l ++ r)) ;; tcaps x y).
Proof. reflexivity. Qed.

Lemma cup_cap_typed_image (b : Box) :
  is_generator b = false -> typed_image F b.
Proof.
  intros Hb image Hi. destruct b as [n d c dt dg|l r|l r|l r];
    try discriminate Hb.
  - rewrite F_box_Cup in Hi.
    apply bind_Ok_inv in Hi. destruct Hi as [L [HL Hi]].
    apply bind_Ok_inv in Hi. destruct Hi as [R [HR Hi]].
    destruct (tcups_typed _ _ _ Hi) as [Hd Hc].
    exists (ttensor L R), tunit. repeat split; auto.
    rewrite <- (firstn_skipn 1 (box_dom (Cup l r))). now apply F_ty_app.
  - rewrite F_box_Cap in Hi.
    apply bind_Ok_inv in Hi. destruct Hi as [L [HL Hi]].
    apply bind_Ok_inv in Hi. destruct Hi as [R [HR Hi]].
    destruct (tcaps_typed _ _ _ Hi) as [Hd Hc].
    exists tunit, (ttensor L R). repeat split; auto.
    rewrite <- (firstn_skipn 1 (box_cod (Cap l r))). now apply F_ty_app.
Qed.

Lemma typed_generator_image (b : Box) : typed_generator b -> typed_image F b.
Proof.
  intro H. destruct (is_generator b) eqn:E.
  - apply typed_ar_image. now apply H.
  - now apply cup_cap_typed_image.
Qed.

Lemma typed_generator_images (bs : list Box) :
  Forall typed_generator bs -> Forall (typed_image F) bs.
Proof. intro H. eapply Forall_impl; [|exact H]. apply typed_generator_image. Qed.

Lemma F_diagram_inv (d : Diagram) (a : tAr) :
  F_diagram F d = Ok a ->
  exists D Ms, F_ty F (dom d) = Ok D
               /\ images F (dom d) (layers d) = Ok Ms
               /\ compose_all (tid D) Ms = Ok a.
Proof.
  unfold F_diagram. intro H. apply bind_Ok_inv in H. destruct H as [D [HD H]].
  destruct (F_layers_Ok_images F _ _ _ _ H) as [Ms HMs].
  rewrite (F_layers_images F _ _ _ _ HMs) in H. eauto.
Qed.

Lemma F_diagram_images (d : Diagram) (D : tTy) (Ms : list tAr) :
  F_ty F (dom d) = Ok D ->
  images F (dom d) (layers d) = Ok Ms ->
  F_diagram F d = compose_all (tid D) Ms.
Proof.
  intros HD HMs. unfold F_diagram. rewrite HD. cbn [bind].
  now apply F_layers_images.
Qed.

(** The image of a well-typed diagram goes from the image of its domain to
    the image of its codomain. *)
Lemma F_diagram_typed_images (d : Diagram) (a : tAr) :
  well_typed d -> Forall (typed_image F) (boxes d) ->
  F_diagram F d = Ok a ->
  exists D C0, F_ty F (dom d) = Ok D /\ F_ty F (cod d) = Ok C0
               /\ tdom a = D /\ tcod a = C0.
Proof.
  intros Hwt Hty Ha.
  destruct (F_diagram_inv _ _ Ha) as (D & Ms & HD & HMs & Hc).
  destruct (compose_images_typed F _ _ _ _ _ _ D Hwt Hty
              HMs HD (tid_cod D) Hc) as (C0 & HC & Hcod).
  exists D, C0. repeat split; auto.
  rewrite (compose_all_typed _ _ _ Hc). apply tid_dom.
Qed.


(** Wires added on the right of the scan: every layer image is whiskered by
    the identity on their image. *)
Lemma images_whisker_r (extra : Ty) (E : tTy) (ls : list (Box * Z)) :
  F_ty F extra = Ok E ->
  forall scan cod_ Ms,
    well_typed_from scan ls cod_ ->
    images F scan ls = Ok Ms ->
    images F (scan ++ extra) ls = Ok (map (fun M => atensor M (tid E)) Ms).
Proof.
  intro HE. induction ls as [|l ls IH]; intros scan cod_ Ms Hwt HMs;
    cbn [well_typed_from images map] in *.
  - now injection HMs as <-.
  - destruct Hwt as (_ & left_ & right_ & -> & Hoff & Hwt).
    apply bind_Ok_inv in HMs. destruct HMs as [M [HM HMs]].
    apply bind_Ok_inv in HMs. destruct HMs as [rest [Hrest HMs]].
    injection HMs as <-.
    destruct (layer_image_inv F _ _ _ HM) as (L & R & image & HL & HR & Hi & ->).
    destruct (scan_step_split left_ right_ l Hoff) as (E1 & E2 & E3).
    rewrite E1 in HL. rewrite E2 in HR. rewrite E3 in Hrest.
    rewrite <- !app_assoc.
    destruct (scan_step_split left_ (right_ ++ extra) l Hoff) as (E1' & E2' & E3').
    unfold layer_image. rewrite E1', E2', E3', HL, (F_ty_app F _ _ _ _ HR HE), Hi.
    cbn [bind].
    specialize (IH _ _ _ Hwt Hrest). rewrite <- !app_assoc in IH. rewrite IH.
    cbn [bind map]. now rewrite tid_tensor, <- atensor_assoc.
Qed.

(** Wires added on the left of the scan, the layers moved accordingly. *)
Lemma images_whisker_l (extra : Ty) (E : tTy) (ls : list (Box * Z)) :
  F_ty F extra = Ok E ->
  forall scan cod_ Ms,
    well_typed_from scan ls cod_ ->
    images F scan ls = Ok Ms ->
    images F (extra ++ scan) (map (shift_layer (Z.of_nat (length extra))) ls)
    = Ok (map (fun M => atensor (tid E) M) Ms).
Proof.
  intro HE. induction ls as [|l ls IH]; intros scan cod_ Ms Hwt HMs;
    cbn [well_typed_from images map] in *.
  - now injection HMs as <-.
  - destruct Hwt as (_ & left_ & right_ & -> & Hoff & Hwt).
    apply bind_Ok_inv in HMs. destruct HMs as [M [HM HMs]].
    apply bind_Ok_inv in HMs. destruct HMs as [rest [Hrest HMs]].
    injection HMs as <-.
    destruct (layer_image_inv F _ _ _ HM) as (L & R & image & HL & HR & Hi & ->).
    destruct (scan_step_split left_ right_ l Hoff) as (E1 & E2 & E3).
    rewrite E1 in HL. rewrite E2 in HR. rewrite E3 in Hrest.
    rewrite app_assoc.
    assert (Hoff' : Z.of_nat (length (extra ++ left_))
                    = snd (shift_layer (Z.of_nat (length extra)) l)).
    { unfold shift_layer. cbn [snd]. rewrite length_app. lia. }
    destruct (scan_step_split (extra ++ left_) right_
                (shift_layer (Z.of_nat (length extra)) l) Hoff')
      as (E1' & E2' & E3').
    change (fst (shift_layer (Z.of_nat (length extra)) l)) with (fst l) in *.
    unfold layer_image.
    change (fst (shift_layer (Z.of_nat (length extra)) l)) with (fst l).
    rewrite E1', E2', E3', (F_ty_app F _ _ _ _ HE HL), HR, Hi.
    cbn [bind].
    specialize (IH _ _ _ Hwt Hrest). rewrite <- app_assoc. rewrite IH.
    cbn [bind map]. now rewrite tid_tensor, !atensor_assoc.
Qed.

Lemma F_then (d1 d2 : Diagram) (a b : tAr) :
  well_typed d1 -> Forall (typed_image F) (boxes d1) ->
  F_diagram F d1 = Ok a -> F_diagram F d2 = Ok b ->
  cod d1 = dom d2 ->
  exists d12 c,
    then_ d1 d2 = Ok d12 /\ F_diagram F d12 = Ok c /\ tthen a b = Ok c.
Proof.
  intros Hwt Hty Ha Hb Hcd.
  destruct (F_diagram_typed_images _ _ Hwt Hty Ha) as (D1 & C1 & HD1 & HC1 & Hda & Hca).
  destruct (F_diagram_inv _ _ Ha) as (D1' & Ms1 & HD1' & HMs1 & Hc1).
  destruct (F_diagram_inv _ _ Hb) as (D2 & Ms2 & HD2 & HMs2 & Hc2).
  assert (D1' = D1) by congruence. subst D1'.
  assert (D2 = C1) by congruence. subst D2.
  assert (Hid : tthen a (tid C1) = Ok a) by (rewrite <- Hca; apply tthen_id_r).
  destruct (compose_all_after _ _ _ _ _ Hid Hc2) as (c & Hc & Hab).
  unfold then_. rewrite Hcd, Ty_eqb_refl.
  eexists. exists c. split; [reflexivity|]. split; [|exact Hab].
  rewrite (F_diagram_images _ D1 (Ms1 ++ Ms2)); cbn [dom layers]; auto.
  - now rewrite (compose_all_app _ Ms2 _ _ Hc1).
  - apply images_app; [exact HMs1|].
    now rewrite (well_typed_from_scan _ _ _ Hwt), Hcd.
Qed.

Lemma F_tensor (d1 d2 : Diagram) (a b : tAr) :
  well_typed d1 -> well_typed d2 -> Forall (typed_image F) (boxes d1) ->
  F_diagram F d1 = Ok a -> F_diagram F d2 = Ok b ->
  F_diagram F (d1 @@ d2) = Ok (atensor a b).
Proof.
  intros Hwt1 Hwt2 Hty Ha Hb.
  destruct (F_diagram_typed_images _ _ Hwt1 Hty Ha) as (D1 & C1 & HD1 & HC1 & Hda & Hca).
  destruct (F_diagram_inv _ _ Ha) as (D1' & Ms1 & HD1' & HMs1 & Hc1).
  destruct (F_diagram_inv _ _ Hb) as (D2 & Ms2 & HD2 & HMs2 & Hc2).
  assert (D1' = D1) by congruence. subst D1'.
  pose proof (images_whisker_r _ _ _ HD2 _ _ _ Hwt1 HMs1) as HW1.
  pose proof (images_whisker_l _ _ _ HC1 _ _ _ Hwt2 HMs2) as HW2.
  assert (Hscan : fold_left scan_step (layers d1) (dom d1 ++ dom d2)
                  = cod d1 ++ dom d2).
  { clear - Hwt1. unfold well_typed in Hwt1.
    generalize dependent (dom d1). induction (layers d1) as [|l ls IH];
      intros scan Hwt; cbn [well_typed_from fold_left] in *.
    - now subst.
    - destruct Hwt as (_ & left_ & right_ & -> & Hoff & Hwt).
      rewrite <- !app_assoc.
      destruct (scan_step_split left_ (right_ ++ dom d2) l Hoff) as (_ & _ & ->).
      specialize (IH _ Hwt). now rewrite <- !app_assoc in IH. }
  rewrite (F_diagram_images _ (ttensor D1 D2)
             (map (fun M => atensor M (tid D2)) Ms1
              ++ map (fun M => atensor (tid C1) M) Ms2)); cbn [tensor dom layers].
  - rewrite (compose_all_app _ _ _ (atensor a (tid D2))).
    + pose proof (compose_all_whisker_l C1 _ _ _ Hc2) as Hl.
      rewrite <- tid_tensor in Hl.
      assert (Hid : tthen (atensor a (tid D2)) (tid (ttensor C1 D2))
                    = Ok (atensor a (tid D2))).
      { replace (ttensor C1 D2) with (tcod (atensor a (tid D2))).
        - apply tthen_id_r.
        - now rewrite atensor_cod, tid_cod, Hca. }
      destruct (compose_all_after _ _ _ _ _ Hid Hl) as (c & Hc & Hab).
      rewrite Hc. f_equal.
      pose proof (tensor_as_whiskers a b) as Hw.
      rewrite Hca, (compose_all_typed _ _ _ Hc2), tid_dom in Hw. congruence.
    + rewrite tid_tensor. now apply compose_all_whisker_r.
  - now apply F_ty_app.
  - apply images_app; [exact HW1|]. now rewrite Hscan.
Qed.

(** C2. A rigid functor is a homomorphism for both compositions, once the
    images of the boxes are typed. Let [F] be a functor into a strict
    monoidal target, let [d1], [d2] be well-typed diagrams on which [F] is
    defined, and let the image that [ar] gives to each box of [d1] other
    than a cup or a cap go from the image of its domain to the image of its
    codomain (nothing in [Functor.__init__] checks it). When
    [d1.cod == d2.dom] the composite [d1 >> d2] exists and
    [F(d1 >> d2) == F(d1) >> F(d2)]; and [F(d1 @ d2) == F(d1) @ F(d2)].
    Nothing is asked of the cups and caps of [d1] and [d2], which [F] never
    looks up in [ar]: [F(Cup(l, r))] is the target's own
    [cups(F(dom[:1]), F(dom[1:]))] and [F(Cap(l, r))] is the target's own
    [caps(F(cod[:1]), F(cod[1:]))]. *)
Theorem functor_homomorphism (d1 d2 : Diagram) (a b : tAr) :
  well_typed d1 -> well_typed d2 ->
  Forall typed_generator (boxes d1) ->
  F_diagram F d1 = Ok a -> F_diagram F d2 = Ok b ->
  (cod d1 = dom d2 ->
   exists d12 c,
     then_ d1 d2 = Ok d12 /\ F_diagram F d12 = Ok c /\ tthen a b = Ok c)
  /\ F_diagram F (d1 @@ d2) = Ok (atensor a b)
  /\ (forall l r : Ty,
        F_box F (Cup l r)
        = (x <- F_ty F (slice_to 1 (l ++ r)) ;;
           y <- F_ty F (slice_from 1 (l ++ r)) ;; tcups x y)
        /\ F_box F (Cap l r)
           = (x <- F_ty F (slice_to 1 (l ++ r)) ;;
              y <- F_ty F (slice_from 1 (l ++ r)) ;; tcaps x y)).
Proof.
  intros Hwt1 Hwt2 Hty Ha Hb.
  apply typed_generator_images in Hty.
  split; [|split].
  - now apply F_then.
  - now apply F_tensor.
  - intros l r. split; [apply F_box_Cup|apply F_box_Cap].
Qed.

End FunctorHomomorphism.

(** ** Diagrams as a target: the free rigid category *)

Lemma then_typed (f g h : Diagram) :
  then_ f g = Ok h -> cod f = dom g /\ dom h = dom f /\ cod h = cod g.
Proof.
  unfold then_. destruct (Ty_eqb_spec (cod f) (dom g)) as [E|_]; [|discriminate].
  intro H. injection H as <-. auto.
Qed.

Lemma then_defined (f g : Diagram) :
  cod f = dom g -> exists h, then_ f g = Ok h.
Proof. intro E. unfold then_. rewrite E, Ty_eqb_refl. eauto. Qed.

Lemma then_assoc (f g h fg gh : Diagram) :
  then_ f g = Ok fg -> then_ g h = Ok gh -> then_ fg h = then_ f gh.
Proof.
  unfold then_.
  destruct (Ty_eqb (cod f) (dom g)) eqn:E1; [|discriminate].
  destruct (Ty_eqb (cod g) (dom h)) eqn:E2; [|discriminate].
  intros H1 H2. injection H1 as <-. injection H2 as <-.
  cbn [dom cod layers]. now rewrite E1, E2, app_assoc.
Qed.

Lemma then_Id_r (f : Diagram) : then_ f (Id (cod f)) = Ok f.
Proof.
  unfold then_, Id, Diagram_init. cbn [dom cod layers combine].
  rewrite Ty_eqb_refl, app_nil_r. now destruct f.
Qed.

Lemma Id_tensor (a b : Ty) : Id (a ++ b) = Id a @@ Id b.
Proof. reflexivity. Qed.

Lemma tensor_assoc (f g h : Diagram) : (f @@ g) @@ h = f @@ (g @@ h).
Proof.
  unfold tensor. cbn [dom cod layers].
  rewrite <- !app_assoc, map_app, map_map. do 3 f_equal.
  apply map_ext. intro l. rewrite shift_layer_shift. f_equal.
  rewrite length_app. lia.
Qed.

Lemma then_whisker_r (f g h : Diagram) (c : Ty) :
  then_ f g = Ok h -> then_ (f @@ Id c) (g @@ Id c) = Ok (h @@ Id c).
Proof.
  unfold then_. destruct (Ty_eqb_spec (cod f) (dom g)) as [E|_]; [|discriminate].
  intro H. injection H as <-.
  unfold tensor, Id, Diagram_init. cbn [dom cod layers combine map].
  now rewrite E, Ty_eqb_refl, !app_nil_r.
Qed.

Lemma then_whisker_l (f g h : Diagram) (c : Ty) :
  then_ f g = Ok h -> then_ (Id c @@ f) (Id c @@ g) = Ok (Id c @@ h).
Proof.
  unfold then_. destruct (Ty_eqb_spec (cod f) (dom g)) as [E|_]; [|discriminate].
  intro H. injection H as <-.
  unfold tensor, Id, Diagram_init. cbn [dom cod layers combine map app].
  now rewrite E, Ty_eqb_refl, map_app.
Qed.

Lemma tensor_whiskers (f g : Diagram) :
  then_ (f @@ Id (dom g)) (Id (cod f) @@ g) = Ok (f @@ g).
Proof.
  unfold then_, tensor, Id, Diagram_init. cbn [dom cod layers combine map app].
  now rewrite Ty_eqb_refl, app_nil_r.
Qed.

Lemma cups_typed (l r : Ty) (d : Diagram) :
  cups l r = Ok d -> dom d = l ++ r /\ cod d = [].
Proof.
  intro H. destruct (Ty_eqb_spec (Ty_r l) r) as [<-|N1].
  - rewrite cups_adjoint in H. injection H as <-. auto.
  - destruct (Ty_eqb_spec (Ty_r r) l) as [<-|N2].
    + destruct r as [|x r]; [now elim N1|].
      destruct (cups_wrong_adjunction (x :: r)) as (l' & r' & E); congruence.
    + unfold cups in H. rewrite cups_with_not_adjoints in H by auto.
      discriminate.
Qed.

Lemma caps_typed (l r : Ty) (d : Diagram) :
  caps l r = Ok d -> dom d = [] /\ cod d = l ++ r.
Proof.
  intro H. destruct (Ty_eqb_spec (Ty_r r) l) as [<-|N2].
  - rewrite caps_adjoint in H. injection H as <-. auto.
  - destruct (Ty_eqb_spec (Ty_r l) r) as [<-|N1].
    + destruct l as [|x l]; [now elim N2|].
      destruct (caps_wrong_adjunction (x :: l)) as (l' & r' & E); congruence.
    + unfold caps in H. rewrite cups_with_not_adjoints in H by auto.
      discriminate.
Qed.

(** [Functor(ob, ar, ob_factory=Ty, ar_factory=Diagram)], the default
    target. *)
#[export] Instance Diagram_Target : Target := {|
  tTy := Ty;
  tunit := [];
  ttensor := @app Ob;
  t_l := Ty_l;
  t_r := Ty_r;
  tAr := Diagram;
  tdom := dom;
  tcod := cod;
  tid := Id;
  tthen := then_;
  atensor := tensor;
  tcups := cups;
  tcaps := caps;
  ttensor_assoc := fun a b c => eq_sym (app_assoc a b c);
  ttensor_unit_l := @app_nil_l Ob;
  ttensor_unit_r := @app_nil_r Ob;
  tid_dom := fun _ => eq_refl;
  tid_cod := fun _ => eq_refl;
  atensor_dom := fun _ _ => eq_refl;
  atensor_cod := fun _ _ => eq_refl;
  tthen_typed := then_typed;
  tthen_defined := then_defined;
  tthen_assoc := then_assoc;
  tthen_id_r := then_Id_r;
  tid_tensor := Id_tensor;
  atensor_assoc := tensor_assoc;
  whisker_r := then_whisker_r;
  whisker_l := then_whisker_l;
  tensor_as_whiskers := tensor_whiskers;
  tcups_typed := cups_typed;
  tcaps_typed := caps_typed
|}.

(** ** The functor of the docstring of [rigid.Functor] *)

Definition ty_s : Ty := [mkOb "s" 0].
Definition ty_n : Ty := [mkOb "n" 0].

Definition Alice : Box := GenBox "Alice" [] ty_n None false.
Definition Bob : Box := GenBox "Bob" [] ty_n None false.
Definition loves : Box :=
  GenBox "loves" [] (Ty_r ty_n ++ ty_s ++ Ty_l ty_n) None false.
Definition love_box : Box := GenBox "loves" (ty_n ++ ty_n) ty_s None false.

(** [Cap(n.r, n) @ Cap(n, n.l) >> Id(n.r) @ love_box @ Id(n.l)]. *)
Definition loves_image : Diagram :=
  mkDiagram [] (Ty_r ty_n ++ ty_s ++ Ty_l ty_n)
    [(Cap (Ty_r ty_n) ty_n, 0); (Cap ty_n (Ty_l ty_n), 2); (love_box, 1)].

Example loves_image_built :
  (top <- Ok (box_diagram (Cap (Ty_r ty_n) ty_n)
              @@ box_diagram (Cap ty_n (Ty_l ty_n))) ;;
   then_ top (Id (Ty_r ty_n) @@ box_diagram love_box @@ Id (Ty_l ty_n)))
  = Ok loves_image.
Proof. reflexivity. Qed.

(** [ob = {s: s, n: n}] and
    [ar = {Alice: Alice, Bob: Bob, loves: loves_image}]; a box is looked up
    by its name and its domain. *)
Definition pregroup_functor : Functor :=
  mkFunctor Diagram_Target
    (fun x => if String.eqb x "s" then Some ty_s
              else if String.eqb x "n" then Some ty_n else None)
    (fun b =>
       match b with
       | GenBox x d _ _ _ =>
           if String.eqb x "Alice" then Some (box_diagram Alice)
           else if String.eqb x "Bob" then Some (box_diagram Bob)
           else if String.eqb x "loves" && Ty_eqb d [] then Some loves_image
           else None
       | _ => None
       end).

(** [Alice @ loves @ Bob] and [Cup(n, n.r) @ Id(s) @ Cup(n.l, n)], the two
    halves of [sentence]. *)
Definition words : Diagram :=
  box_diagram Alice @@ box_diagram loves @@ box_diagram Bob.
Definition grammar : Diagram :=
  box_diagram (Cup ty_n (Ty_r ty_n)) @@ Id ty_s
  @@ box_diagram (Cup (Ty_l ty_n) ty_n).

(** A name next to a cap, and the cup that yanks it:
    [Alice @ Cap(n.r, n) >> Cup(n, n.r) @ Id(n)]. *)
Definition name_and_cap : Diagram :=
  box_diagram Alice @@ box_diagram (Cap (Ty_r ty_n) ty_n).
Definition cup_and_wire : Diagram :=
  box_diagram (Cup ty_n (Ty_r ty_n)) @@ Id ty_n.

Lemma functor_homomorphism_witness :
  (cod name_and_cap = dom cup_and_wire ->
   exists d12 c,
     then_ name_and_cap cup_and_wire = Ok d12
     /\ F_diagram pregroup_functor d12 = Ok c
     /\ then_ name_and_cap cup_and_wire = Ok c)
  /\ F_diagram pregroup_functor (name_and_cap @@ cup_and_wire)
     = Ok (name_and_cap @@ cup_and_wire)
  /\ (forall l r : Ty,
        F_box pregroup_functor (Cup l r)
        = (x <- F_ty pregroup_functor (slice_to 1 (l ++ r)) ;;
           y <- F_ty pregroup_functor (slice_from 1 (l ++ r)) ;; cups x y)
        /\ F_box pregroup_functor (Cap l r)
           = (x <- F_ty pregroup_functor (slice_to 1 (l ++ r)) ;;
              y <- F_ty pregroup_functor (slice_from 1 (l ++ r)) ;; caps x y)).
Proof.
  apply (functor_homomorphism pregroup_functor name_and_cap cup_and_wire
           name_and_cap cup_and_wire).
  - unfold well_typed, name_and_cap. cbn.
    split; [lia|]. exists [], [].
    split; [reflexivity|]. split; [reflexivity|].
    split; [lia|]. exists ty_n, [].
    split; [reflexivity|]. split; reflexivity.
  - unfold well_typed, cup_and_wire. cbn.
    split; [lia|]. exists [], ty_n.
    split; [reflexivity|]. split; reflexivity.
  - constructor; [|constructor; [|constructor]].
    + intros _ image H. cbn in H. injection H as <-.
      eexists. eexists. repeat split; reflexivity.
    + intro H. discriminate H.
  - reflexivity.
  - reflexivity.
Defined.

(** The hypothesis on the images of the boxes is needed: nothing in
    [Functor.__init__] checks them. The functor below has an image for every
    object and for every box; it sends [Alice : Ty() -> n] to a box of
    codomain [s]. The diagrams [Alice] and [Id(n)] are well typed and
    compose, [F] is defined on both and on [Alice >> Id(n)], but
    [F(Alice) >> F(Id(n))] raises an AxiomError: the codomain [s] of the
    first is not the domain [n] of the second. *)
Definition ill_typed_functor : Functor :=
  mkFunctor Diagram_Target
    (ob pregroup_functor)
    (fun _ => Some (box_diagram (GenBox "Alice" [] ty_s None false))).

(** The functor has an image for every box and every object of the two
    diagrams, and still [F(d1 >> d2)] is defined where [F(d1) >> F(d2)]
    raises. *)
Lemma ill_typed_image_breaks_composition :
  exists d1 d2 d12 a b c,
    well_typed d1 /\ well_typed d2 /\ cod d1 = dom d2
    /\ Forall (fun box => exists image, ar ill_typed_functor box = Some image)
              (boxes d1 ++ boxes d2)
    /\ Forall (fun x => exists image, ob ill_typed_functor (name x) = Some image)
              (dom d1 ++ cod d1 ++ cod d2)
    /\ then_ d1 d2 = Ok d12
    /\ F_diagram ill_typed_functor d1 = Ok a
    /\ F_diagram ill_typed_functor d2 = Ok b
    /\ F_diagram ill_typed_functor d12 = Ok c
    /\ then_ a b = Raise (AxiomError (does_not_compose ty_s ty_n))
    /\ ~ typed_ar ill_typed_functor Alice.
Proof.
  exists (box_diagram Alice), (Id ty_n). do 4 eexists.
  split.
  { unfold well_typed. cbn. split; [lia|]. exists [], [].
    split; [reflexivity|]. split; reflexivity. }
  split; [reflexivity|]. split; [reflexivity|].
  split; [repeat constructor; eexists; reflexivity|].
  split; [repeat constructor; eexists; reflexivity|].
  repeat (split; [reflexivity|]).
  intro H. destruct (H _ eq_refl) as (A & B & _ & HB & _ & Hc).
  vm_compute in HB, Hc. congruence.
Qed.

(** * rigid.py: more on types *)

(** The sum of the winding numbers of a type. *)
Fixpoint winding (t : Ty) : Z :=
  match t with
  | [] => 0
  | x :: t' => z x + winding t'
  end.

Lemma winding_app (s t : Ty) : winding (s ++ t) = winding s + winding t.
Proof. induction s as [|x s IH]; cbn [app winding]; lia. Qed.

Lemma winding_rev (t : Ty) : winding (rev t) = winding t.
Proof.
  induction t as [|x t IH]; [reflexivity|].
  cbn [rev]. rewrite winding_app, IH. cbn [winding]. lia.
Qed.

Lemma winding_l (t : Ty) : winding (Ty_l t) = winding t - Z.of_nat (length t).
Proof.
  unfold Ty_l. rewrite <- (winding_rev t), <- (length_rev t).
  induction (rev t) as [|x s IH]; [reflexivity|].
  cbn [map winding length Ob_l z]. rewrite IH. lia.
Qed.

Lemma winding_r (t : Ty) : winding (Ty_r t) = winding t + Z.of_nat (length t).
Proof.
  unfold Ty_r. rewrite <- (winding_rev t), <- (length_rev t).
  induction (rev t) as [|x s IH]; [reflexivity|].
  cbn [map winding length Ob_r z]. rewrite IH. lia.
Qed.

Lemma iter_l_facts (k : nat) (t : Ty) :
  length (Nat.iter k Ty_l t) = length t
  /\ winding (Nat.iter k Ty_l t) = winding t - Z.of_nat k * Z.of_nat (length t).
Proof.
  induction k as [|k [IH1 IH2]]; [simpl; split; lia|].
  change (Nat.iter (S k) Ty_l t) with (Ty_l (Nat.iter k Ty_l t)).
  rewrite Ty_l_length, winding_l, IH1, IH2, Nat2Z.inj_succ. split; lia.
Qed.

Lemma iter_r_facts (k : nat) (t : Ty) :
  length (Nat.iter k Ty_r t) = length t
  /\ winding (Nat.iter k Ty_r t) = winding t + Z.of_nat k * Z.of_nat (length t).
Proof.
  induction k as [|k [IH1 IH2]]; [simpl; split; lia|].
  change (Nat.iter (S k) Ty_r t) with (Ty_r (Nat.iter k Ty_r t)).
  rewrite Ty_r_length, winding_r, IH1, IH2, Nat2Z.inj_succ. split; lia.
Qed.

(** X1. Taking adjoints never cycles: a type that is reached from [t] both by
    [k] left adjoints and by [m] right adjoints forces [t] to be empty, unless
    no adjoint was taken at all. In particular [t.l == t], [t.r == t] or
    [t.l.l == t.r.r] only hold for the empty type. *)
Theorem adjoints_never_cycle (t : Ty) (k m : nat) :
  Nat.iter k Ty_l t = Nat.iter m Ty_r t -> t = [] \/ (k = 0 /\ m = 0)%nat.
Proof.
  intro H. apply (f_equal winding) in H.
  rewrite (proj2 (iter_l_facts k t)), (proj2 (iter_r_facts m t)) in H.
  destruct t as [|x t]; [now left|right].
  cbn [length] in H. nia.
Qed.

Lemma adjoints_never_cycle_witness :
  @nil Ob = [] \/ (1 = 0 /\ 2 = 0)%nat.
Proof. apply (adjoints_never_cycle [] 1 2). reflexivity. Defined.

(** X2. The adjoints are anti-homomorphisms of the tensor: [(s @ t).l] is
    [t.l @ s.l] and [(s @ t).r] is [t.r @ s.r]; they fix the unit and keep the
    length and the names, read backwards. *)
Theorem adjoints_reverse_tensor (s t : Ty) :
  Ty_l (s ++ t) = Ty_l t ++ Ty_l s
  /\ Ty_r (s ++ t) = Ty_r t ++ Ty_r s
  /\ Ty_l [] = [] /\ Ty_r [] = []
  /\ length (Ty_l t) = length t /\ length (Ty_r t) = length t
  /\ forall i x, nth_error t i = Some x -> (i < length t)%nat ->
       nth_error (Ty_l t) (length t - 1 - i) = Some (Ob_l x)
       /\ nth_error (Ty_r t) (length t - 1 - i) = Some (Ob_r x).
Proof.
  rewrite Ty_l_app, Ty_r_app, Ty_l_length, Ty_r_length.
  repeat split; auto.
  - unfold Ty_l. apply map_nth_error.
    rewrite nth_error_rev.
    destruct (Nat.ltb_spec (length t - 1 - i) (length t)); [|lia].
    now replace (length t - S (length t - 1 - i))%nat with i by lia.
  - unfold Ty_r. apply map_nth_error.
    rewrite nth_error_rev.
    destruct (Nat.ltb_spec (length t - 1 - i) (length t)); [|lia].
    now replace (length t - S (length t - 1 - i))%nat with i by lia.
Qed.

(** [Ty.z]: only a type of length one has a winding number. *)
Definition Ty_z (t : Ty) : result Z :=
  if negb (length t =? 1)%nat then
    Raise (TypeError (text "no_winding_number_for_complex_types"))
  else
    match t with
    | x :: _ => Ok (z x)
    | [] => Raise IndexError
    end.

(** X3. [t.z] is the winding number of the only object of [t] and raises a
    TypeError for every type whose length is not one, the empty type
    included; [t.l.z] and [t.r.z] are defined exactly when [t.z] is, and are
    [t.z - 1] and [t.z + 1]. *)
Theorem Ty_z_spec (t : Ty) :
  (forall x, t = [x] ->
     Ty_z t = Ok (z x)
     /\ Ty_z (Ty_l t) = Ok (z x - 1) /\ Ty_z (Ty_r t) = Ok (z x + 1))
  /\ (length t <> 1%nat ->
      exists m, Ty_z t = Raise (TypeError m)
                /\ Ty_z (Ty_l t) = Raise (TypeError m)
                /\ Ty_z (Ty_r t) = Raise (TypeError m)).
Proof.
  split.
  - intros x ->. repeat split; reflexivity.
  - intro H. eexists. unfold Ty_z.
    rewrite Ty_l_length, Ty_r_length.
    destruct (Nat.eqb_spec (length t) 1) as [E|_]; [contradiction|].
    repeat split; reflexivity.
Qed.

(** * rigid.py: the daggers of cups and caps *)

(** [Cup.dagger]: [Cap(self.left, self.right)], and [Cap.dagger]:
    [Cup(self.left, self.right)], on the operands that the box keeps. *)
Definition Cup_dagger (left right : Ty) : result Box := Cap_init left right.
Definition Cap_dagger (left right : Ty) : result Box := Cup_init left right.

Lemma Cup_init_Ok (l r : Ty) (b : Box) :
  Cup_init l r = Ok b ->
  b = Cup l r /\ length l = 1%nat /\ length r = 1%nat
  /\ Ty_r l = r /\ l <> Ty_r r.
Proof.
  unfold Cup_init.
  destruct (Nat.eqb_spec (length l) 1) as [Hl|]; [|discriminate].
  destruct (Nat.eqb_spec (length r) 1) as [Hr|]; [|discriminate].
  cbn [negb orb].
  destruct (Ty_eqb_spec (Ty_r l) r) as [E1|N1];
    destruct (Ty_eqb_spec l (Ty_r r)) as [E2|N2]; cbn [negb andb];
    try discriminate.
  intro H. injection H as <-. auto.
Qed.

Lemma Cap_init_Ok (l r : Ty) (b : Box) :
  Cap_init l r = Ok b ->
  b = Cap l r /\ length l = 1%nat /\ length r = 1%nat
  /\ l = Ty_r r /\ Ty_r l <> r.
Proof.
  unfold Cap_init.
  destruct (Nat.eqb_spec (length l) 1) as [Hl|]; [|discriminate].
  destruct (Nat.eqb_spec (length r) 1) as [Hr|]; [|discriminate].
  cbn [negb orb].
  destruct (Ty_eqb_spec l (Ty_r r)) as [E1|N1];
    destruct (Ty_eqb_spec (Ty_r l) r) as [E2|N2]; cbn [negb andb];
    try discriminate.
  intro H. injection H as <-. auto.
Qed.

(** X4. No cup and no cap has a dagger: whenever [Cup(left, right)] is
    accepted by its constructor, [Cup(left, right).dagger()] raises the
    AxiomError of a wrong adjunction, because [Cap(left, right)] is refused
    for the very equation [left.r == right] that the cup needs; and the same
    for the dagger of every cap. *)
Theorem cup_cap_dagger_raises (left right : Ty) (b : Box) :
  (Cup_init left right = Ok b ->
   Cup_dagger left right
   = Raise (AxiomError (wrong_adjunction left right false)))
  /\ (Cap_init left right = Ok b ->
      Cap_dagger left right
      = Raise (AxiomError (wrong_adjunction left right true))).
Proof.
  split; intro H.
  - destruct (Cup_init_Ok _ _ _ H) as (_ & Hl & Hr & E & N).
    unfold Cup_dagger, Cap_init. rewrite Hl, Hr. cbn [Nat.eqb negb orb].
    apply Ty_eqb_eq in E. apply Ty_eqb_neq in N. now rewrite E, N.
  - destruct (Cap_init_Ok _ _ _ H) as (_ & Hl & Hr & E & N).
    unfold Cap_dagger, Cup_init. rewrite Hl, Hr. cbn [Nat.eqb negb orb].
    apply Ty_eqb_eq in E. apply Ty_eqb_neq in N. now rewrite E, N.
Qed.

(** * rigid.py: application, composition, currying and transposition *)

(** [a or b] on integers. *)
Definition int_or (a b : Z) : Z := if a =? 0 then b else a.

(** [Ty.__lshift__] and [Ty.__rshift__]. *)
Definition Ty_lshift (self other : Ty) : Ty := self ++ Ty_l other.
Definition Ty_rshift (self other : Ty) : Ty := Ty_r self ++ other.

(** [Diagram.fa], forward application. *)
Definition fa (left right : Ty) : result Diagram :=
  let off := int_or (- Z.of_nat (length right)) (Z.of_nat (length left)) in
  cups_ <- cups (zslice_from off left) right ;;
  Ok (Id (zslice_to off left) @@ cups_).

(** [Diagram.ba], backward application. *)
Definition ba (left right : Ty) : result Diagram :=
  let off := int_or (- Z.of_nat (length left)) (Z.of_nat (length right)) in
  cups_ <- cups left (zslice_to off right) ;;
  Ok (cups_ @@ Id (zslice_from off right)).

(** [Diagram.fc], forward composition. *)
Definition fc (left middle right : Ty) : result Diagram :=
  cups_ <- cups (Ty_l middle) middle ;;
  Ok (Id left @@ cups_ @@ Id (Ty_l right)).

(** [Diagram.curry]. *)
Definition curry (diagram : Diagram) (n_wires : Z) (left : bool)
  : result Diagram :=
  if left then
    let wires := zslice_to n_wires (dom diagram) in
    caps_ <- caps (Ty_r wires) wires ;;
    then_ (caps_ @@ Id (zslice_from n_wires (dom diagram)))
          (Id (Ty_r wires) @@ diagram)
  else
    let wires :=
      zslice_from (int_or (- n_wires) (Z.of_nat (length (dom diagram))))
                  (dom diagram) in
    caps_ <- caps wires (Ty_l wires) ;;
    then_ (Id (zslice_to (- n_wires) (dom diagram)) @@ caps_)
          (diagram @@ Id (Ty_l wires)).

(** Slices counted from the end. *)
Lemma zslice_to_neg {A} (s : list A) (k : nat) :
  (0 < k)%nat ->
  zslice_to (- Z.of_nat k) s = firstn (length s - k) s.
Proof.
  intro H. unfold zslice_to, clamp_index.
  destruct (Z.ltb_spec (- Z.of_nat k) 0); [|lia].
  f_equal. lia.
Qed.

Lemma zslice_from_neg {A} (s : list A) (k : nat) :
  (0 < k)%nat ->
  zslice_from (- Z.of_nat k) s = skipn (length s - k) s.
Proof.
  intro H. unfold zslice_from, clamp_index.
  destruct (Z.ltb_spec (- Z.of_nat k) 0); [|lia].
  f_equal. lia.
Qed.

Lemma zslice_to_nat {A} (s : list A) (k : nat) :
  zslice_to (Z.of_nat k) s = firstn k s.
Proof.
  unfold zslice_to, clamp_index.
  destruct (Z.ltb_spec (Z.of_nat k) 0); [lia|]. now rewrite Nat2Z.id.
Qed.

Lemma zslice_from_nat {A} (s : list A) (k : nat) :
  zslice_from (Z.of_nat k) s = skipn k s.
Proof.
  unfold zslice_from, clamp_index.
  destruct (Z.ltb_spec (Z.of_nat k) 0); [lia|]. now rewrite Nat2Z.id.
Qed.

Lemma cups_of_l (y : Ty) :
  cups (Ty_l y) y
  = Ok (mkDiagram (Ty_l y ++ y) []
          (map (cup_layer (Ty_l y) y) (seq 0 (length y)))).
Proof.
  pose proof (cups_adjoint (Ty_l y)) as H.
  now rewrite Ty_l_r, Ty_l_length in H.
Qed.

Lemma caps_of_l (w : Ty) :
  caps w (Ty_l w)
  = Ok (mkDiagram [] (w ++ Ty_l w)
          (map (cap_layer w (Ty_l w)) (rev (seq 0 (length w))))).
Proof.
  pose proof (caps_adjoint (Ty_l w)) as H.
  now rewrite Ty_l_r, Ty_l_length in H.
Qed.

Lemma cup_cap_dagger_raises_witness :
  Cup_dagger [mkOb "n" 0] [mkOb "n" 1]
  = Raise (AxiomError (wrong_adjunction [mkOb "n" 0] [mkOb "n" 1] false))
  /\ Cap_dagger [mkOb "n" 1] [mkOb "n" 0]
     = Raise (AxiomError (wrong_adjunction [mkOb "n" 1] [mkOb "n" 0] true)).
Proof.
  split.
  - apply (proj1 (cup_cap_dagger_raises [mkOb "n" 0] [mkOb "n" 1]
                    (Cup [mkOb "n" 0] [mkOb "n" 1]))).
    reflexivity.
  - apply (proj2 (cup_cap_dagger_raises [mkOb "n" 1] [mkOb "n" 0]
                    (Cap [mkOb "n" 1] [mkOb "n" 0]))).
    reflexivity.
Defined.

Lemma fa_slices (x y : Ty) :
  let left := Ty_lshift x y in
  let off := int_or (- Z.of_nat (length y)) (Z.of_nat (length left)) in
  zslice_to off left = x /\ zslice_from off left = Ty_l y.
Proof.
  cbv zeta. unfold Ty_lshift, int_or.
  destruct y as [|o y].
  - cbn [length Z.of_nat Z.opp Z.eqb]. rewrite zslice_to_nat, zslice_from_nat.
    change (Ty_l []) with (@nil Ob). rewrite app_nil_r.
    now rewrite firstn_all, skipn_all.
  - destruct (Z.eqb_spec (- Z.of_nat (length (o :: y))) 0) as [E|_];
      [cbn [length] in E; lia|].
    rewrite zslice_to_neg, zslice_from_neg by (cbn [length]; lia).
    rewrite length_app, Ty_l_length.
    replace (length x + length (o :: y) - length (o :: y))%nat
      with (length x) by lia.
    rewrite firstn_app, skipn_app, Nat.sub_diag, firstn_all, skipn_all.
    cbn [firstn skipn]. now rewrite app_nil_r.
Qed.

(** X5. Forward application always applies: for all types [x] and [y],
    [fa(x << y, y)] is the diagram [Id(x) @ cups(y.l, y)], from
    [(x << y) @ y] to [x], made of [len(y)] cups and nothing else; the
    empty [y], for which the offset [-len(right)] is zero, gives [Id(x)]. *)
Theorem fa_applies (x y : Ty) :
  exists d,
    fa (Ty_lshift x y) y = Ok d
    /\ dom d = Ty_lshift x y ++ y /\ cod d = x
    /\ layers d = map (shift_layer (Z.of_nat (length x)))
                      (map (cup_layer (Ty_l y) y) (seq 0 (length y)))
    /\ len d = length y
    /\ Forall (fun b => isCup b = true) (boxes d).
Proof.
  destruct (fa_slices x y) as [E1 E2]. cbv zeta in E1, E2.
  unfold fa. rewrite E1, E2, cups_of_l. cbn [bind].
  eexists. split; [reflexivity|].
  unfold tensor, Id, Diagram_init, Ty_lshift, len, boxes.
  cbn [dom cod layers combine app].
  rewrite app_nil_r, <- app_assoc, !length_map, length_seq.
  repeat split.
  rewrite !map_map. apply Forall_map, Forall_forall. reflexivity.
Qed.

Lemma ba_slices (x y : Ty) :
  let right := Ty_rshift y x in
  let off := int_or (- Z.of_nat (length y)) (Z.of_nat (length right)) in
  zslice_to off right = firstn (length x) right
  /\ zslice_from off right = skipn (length x) right.
Proof.
  cbv zeta. unfold Ty_rshift, int_or.
  destruct y as [|o y].
  - cbn [length Z.of_nat Z.opp Z.eqb]. rewrite zslice_to_nat, zslice_from_nat.
    now change (Ty_r []) with (@nil Ob).
  - destruct (Z.eqb_spec (- Z.of_nat (length (o :: y))) 0) as [E|_];
      [cbn [length] in E; lia|].
    rewrite zslice_to_neg, zslice_from_neg by (cbn [length]; lia).
    rewrite length_app, Ty_r_length.
    now replace (length (o :: y) + length x - length (o :: y))%nat
      with (length x) by lia.
Qed.

(** X6. Backward application cuts [right] at [-len(left)]: the cups are
    taken against all the objects of [right] but the last [len(left)]. So
    [ba(y, y >> x)] is [cups(y, y.r) @ Id(x)], from [y @ (y >> x)] to [x],
    exactly when [x] is as long as [y]; for every other [x] (also when [y] is
    empty and [x] is not) it raises the AxiomError of types that are not
    adjoints. *)
Theorem ba_applies (x y : Ty) :
  (length x = length y ->
   exists d,
     ba y (Ty_rshift y x) = Ok d
     /\ dom d = y ++ Ty_rshift y x /\ cod d = x
     /\ layers d = map (cup_layer y (Ty_r y)) (seq 0 (length y)))
  /\ (length x <> length y ->
      ba y (Ty_rshift y x)
      = Raise (AxiomError
                 (are_not_adjoints y (firstn (length x) (Ty_rshift y x))))).
Proof.
  destruct (ba_slices x y) as [E1 E2]. cbv zeta in E1, E2.
  unfold ba. rewrite E1, E2. split; intro H.
  - unfold Ty_rshift.
    rewrite firstn_app, skipn_app, Ty_r_length, H, Nat.sub_diag.
    assert (F1 : firstn (length y) (Ty_r y) = Ty_r y)
      by (rewrite <- (Ty_r_length y); apply firstn_all).
    assert (F2 : skipn (length y) (Ty_r y) = [])
      by (rewrite <- (Ty_r_length y); apply skipn_all).
    rewrite F1, F2. cbn [firstn skipn app]. rewrite app_nil_r, cups_adjoint. cbn [bind].
    eexists. split; [reflexivity|].
    unfold tensor, Id, Diagram_init. cbn [dom cod layers combine app map].
    now rewrite app_nil_r, <- app_assoc.
  - unfold cups. rewrite cups_with_not_adjoints; [reflexivity| |].
    + intro E. apply (f_equal (@length Ob)) in E.
      rewrite length_firstn, Ty_r_length in E. unfold Ty_rshift in E.
      rewrite length_app, Ty_r_length in E. lia.
    + intro E. apply (f_equal (@length Ob)) in E.
      rewrite Ty_r_length, length_firstn in E. unfold Ty_rshift in E.
      rewrite length_app, Ty_r_length in E. lia.
Qed.

Lemma ba_applies_witness :
  (exists d,
     ba [mkOb "n" 0] (Ty_rshift [mkOb "n" 0] [mkOb "s" 0]) = Ok d
     /\ dom d = [mkOb "n" 0] ++ Ty_rshift [mkOb "n" 0] [mkOb "s" 0]
     /\ cod d = [mkOb "s" 0]
     /\ layers d = map (cup_layer [mkOb "n" 0] (Ty_r [mkOb "n" 0]))
                       (seq 0 (length [mkOb "n" 0])))
  /\ ba [mkOb "n" 0] (Ty_rshift [mkOb "n" 0] [mkOb "s" 0; mkOb "s" 0])
     = Raise (AxiomError
                (are_not_adjoints [mkOb "n" 0]
                   (firstn (length [mkOb "s" 0; mkOb "s" 0])
                      (Ty_rshift [mkOb "n" 0] [mkOb "s" 0; mkOb "s" 0])))).
Proof.
  split.
  - apply (proj1 (ba_applies [mkOb "s" 0] [mkOb "n" 0])). reflexivity.
  - apply (proj2 (ba_applies [mkOb "s" 0; mkOb "s" 0] [mkOb "n" 0])).
    simpl. lia.
Defined.

(** X7. Forward composition never fails: for all [left], [middle] and
    [right], [fc(left, middle, right)] is
    [Id(left) @ cups(middle.l, middle) @ Id(right.l)], a diagram from
    [(left << middle) @ (middle << right)] to [left << right] with one cup
    for each object of [middle]. *)
Theorem fc_composes (left middle right : Ty) :
  exists d,
    fc left middle right = Ok d
    /\ dom d = Ty_lshift left middle ++ Ty_lshift middle right
    /\ cod d = Ty_lshift left right
    /\ layers d = map (shift_layer (Z.of_nat (length left)))
                      (map (cup_layer (Ty_l middle) middle)
                           (seq 0 (length middle)))
    /\ Forall (fun b => isCup b = true) (boxes d).
Proof.
  unfold fc. rewrite cups_of_l. cbn [bind].
  eexists. split; [reflexivity|].
  unfold tensor, Id, Diagram_init, Ty_lshift, boxes.
  cbn [dom cod layers combine app map].
  rewrite !app_nil_r, <- !app_assoc.
  repeat split.
  rewrite !map_map. apply Forall_map, Forall_forall. reflexivity.
Qed.

Lemma map_shift_layer_0 (ls : list (Box * Z)) : map (shift_layer 0) ls = ls.
Proof.
  induction ls as [|l ls IH]; cbn [map]; [reflexivity|].
  now rewrite shift_layer_0, IH.
Qed.

(** X8. Currying [n_wires >= 0] wires always gives a diagram. On the left,
    [curry(d, n, left=True)] goes from [d.dom[n:]] to [d.dom[:n].r @ d.cod];
    on the right, for [n >= 1], [curry(d, n)] goes from [d.dom[:-n]] to
    [d.cod @ d.dom[-n:].l]. Both put one cap for each curried wire on top of
    the layers of [d] (asking for more wires than the domain has curries the
    whole domain). *)
Theorem curry_typed (d : Diagram) (k : nat) :
  (exists c,
     curry d (Z.of_nat k) true = Ok c
     /\ dom c = skipn k (dom d)
     /\ cod c = Ty_r (firstn k (dom d)) ++ cod d
     /\ len c = (Nat.min k (length (dom d)) + len d)%nat)
  /\ ((0 < k)%nat ->
      exists c,
        curry d (Z.of_nat k) false = Ok c
        /\ dom c = firstn (length (dom d) - k) (dom d)
        /\ cod c = cod d ++ Ty_l (skipn (length (dom d) - k) (dom d))
        /\ len c = (Nat.min k (length (dom d)) + len d)%nat).
Proof.
  split.
  - unfold curry. rewrite zslice_to_nat, zslice_from_nat, caps_adjoint.
    cbn [bind]. unfold then_, tensor, Id, Diagram_init.
    cbn [dom cod layers combine map app].
    rewrite <- app_assoc, firstn_skipn, Ty_eqb_refl.
    eexists. split; [reflexivity|]. unfold len. cbn [dom cod layers].
    rewrite !app_nil_r, length_app, !length_map, length_rev, length_seq.
    rewrite length_firstn. auto.
  - intro Hk. unfold curry, int_or.
    destruct (Z.eqb_spec (- Z.of_nat k) 0) as [E|_]; [lia|].
    rewrite zslice_to_neg, zslice_from_neg by lia. rewrite caps_of_l.
    cbn [bind]. unfold then_, tensor, Id, Diagram_init.
    cbn [dom cod layers combine map app].
    rewrite app_assoc, firstn_skipn, Ty_eqb_refl.
    eexists. split; [reflexivity|]. unfold len. cbn [dom cod layers].
    rewrite !app_nil_r, length_app, !length_map, length_rev, length_seq.
    rewrite length_skipn. repeat split. lia.
Qed.

Lemma curry_typed_witness :
  exists c,
    curry (box_diagram (GenBox "f" [mkOb "a" 0; mkOb "b" 0] [mkOb "c" 0]
                               None false))
          (Z.of_nat 1) false = Ok c
    /\ dom c = firstn (2 - 1) [mkOb "a" 0; mkOb "b" 0]
    /\ cod c = [mkOb "c" 0] ++ Ty_l (skipn (2 - 1) [mkOb "a" 0; mkOb "b" 0])
    /\ len c = (Nat.min 1 2 + 1)%nat.
Proof.
  apply (proj2 (curry_typed
                  (box_diagram (GenBox "f" [mkOb "a" 0; mkOb "b" 0]
                                       [mkOb "c" 0] None false)) 1)).
  lia.
Defined.

(** X9. Currying no wire is not symmetric. On the left,
    [curry(d, 0, left=True)] is [d] itself. On the right, [d.dom[:-0]] is the
    empty type and not the whole domain, so [curry(d, 0)] raises an
    AxiomError for every diagram whose domain is not empty. *)
Theorem curry_no_wire (d : Diagram) :
  curry d 0 true = Ok d
  /\ (dom d <> [] ->
      curry d 0 false = Raise (AxiomError (does_not_compose [] (dom d)))).
Proof.
  split.
  - unfold curry. change 0 with (Z.of_nat 0).
    rewrite zslice_to_nat, zslice_from_nat. cbn [firstn skipn].
    change (Ty_r []) with (@nil Ob).
    change (caps [] []) with (Ok (Id [])). cbn [bind].
    unfold then_, tensor, Id, Diagram_init.
    cbn [dom cod layers combine map app length Z.of_nat].
    rewrite Ty_eqb_refl, map_shift_layer_0. now destruct d.
  - intro H. unfold curry, int_or. cbn [Z.opp Z.eqb].
    rewrite zslice_from_nat, skipn_all. change 0 with (Z.of_nat 0).
    rewrite zslice_to_nat. cbn [firstn].
    change (Ty_l []) with (@nil Ob).
    change (caps [] []) with (Ok (Id [])). cbn [bind].
    unfold then_, tensor, Id, Diagram_init.
    cbn [dom cod layers combine map app].
    rewrite app_nil_r.
    destruct (Ty_eqb_spec [] (dom d)) as [E|_]; [now elim H|reflexivity].
Qed.

Lemma curry_no_wire_witness :
  curry (Id [mkOb "a" 0]) 0 false
  = Raise (AxiomError (does_not_compose [] (dom (Id [mkOb "a" 0])))).
Proof.
  apply (proj2 (curry_no_wire (Id [mkOb "a" 0]))). discriminate.
Defined.

Lemma then_Ok (d1 d2 : Diagram) :
  cod d1 = dom d2 ->
  then_ d1 d2 = Ok (mkDiagram (dom d1) (cod d2) (layers d1 ++ layers d2)).
Proof. intro E. unfold then_. now rewrite E, Ty_eqb_refl. Qed.

(** X10. Transposition never fails and is contravariant: for every diagram
    [d], [d.transpose()] goes from [d.cod.r] to [d.dom.r], and
    [d.transpose(left=True)] from [d.cod.l] to [d.dom.l]; it adds one cap for
    each wire of the domain above the layers of [d] and one cup for each
    wire of the codomain below them, and keeps the generators of [d] in
    between. *)
Theorem transpose_typed (d : Diagram) (left : bool) :
  exists t,
    transpose d left = Ok t
    /\ dom t = (if left then Ty_l (cod d) else Ty_r (cod d))
    /\ cod t = (if left then Ty_l (dom d) else Ty_r (dom d))
    /\ len t = (length (dom d) + len d + length (cod d))%nat
    /\ (exists caps_ cups_,
           boxes t = caps_ ++ boxes d ++ cups_
           /\ length caps_ = length (dom d)
           /\ length cups_ = length (cod d)
           /\ Forall (fun b => isCap b = true) caps_
           /\ Forall (fun b => isCup b = true) cups_).
Proof.
  destruct left; unfold transpose.
  - rewrite caps_of_l. cbn [bind].
    rewrite then_Ok
      by (unfold tensor, Id, Diagram_init; cbn [dom cod];
          now rewrite <- !app_assoc).
    cbn [bind]. rewrite cups_of_l. cbn [bind].
    rewrite then_Ok
      by (unfold tensor, Id, Diagram_init; cbn [dom cod];
          now rewrite <- !app_assoc).
    eexists. split; [reflexivity|].
    unfold len, boxes, tensor, Id, Diagram_init.
    cbn [dom cod layers combine map app].
    rewrite !app_nil_r. repeat split.
    + rewrite !length_app, !length_map, length_rev, !length_seq. lia.
    + rewrite !map_app, !shift_layer_boxes. do 2 eexists.
      split; [|split; [|split; [|split]]].
      * rewrite <- app_assoc. reflexivity.
      * now rewrite !length_map, length_rev, length_seq.
      * now rewrite !length_map, length_seq.
      * rewrite map_map. apply Forall_map, Forall_forall. reflexivity.
      * rewrite ?map_map. apply Forall_map, Forall_forall. reflexivity.
  - rewrite caps_adjoint. cbn [bind].
    rewrite then_Ok
      by (unfold tensor, Id, Diagram_init; cbn [dom cod];
          now rewrite <- !app_assoc).
    cbn [bind]. rewrite cups_adjoint. cbn [bind].
    rewrite then_Ok
      by (unfold tensor, Id, Diagram_init; cbn [dom cod];
          now rewrite <- !app_assoc).
    eexists. split; [reflexivity|].
    unfold len, boxes, tensor, Id, Diagram_init.
    cbn [dom cod layers combine map app].
    rewrite !app_nil_r. repeat split.
    + rewrite !length_app, !length_map, length_rev, !length_seq. lia.
    + rewrite !map_app, !shift_layer_boxes. do 2 eexists.
      split; [|split; [|split; [|split]]].
      * rewrite <- app_assoc. reflexivity.
      * now rewrite !length_map, length_rev, length_seq.
      * now rewrite !length_map, length_seq.
      * rewrite map_map. apply Forall_map, Forall_forall. reflexivity.
      * rewrite ?map_map. apply Forall_map, Forall_forall. reflexivity.
Qed.

(** * rigid.py: functors on types *)

Lemma mapM_Ok_app {A B} (f : A -> result B) (s t : list A) (bs bt : list B) :
  mapM f s = Ok bs -> mapM f t = Ok bt -> mapM f (s ++ t) = Ok (bs ++ bt).
Proof. intros Hs Ht. now rewrite mapM_app, Hs, Ht. Qed.

Lemma mapM_rev {A B} (f : A -> result B) (t : list A) (bs : list B) :
  mapM f t = Ok bs -> mapM f (rev t) = Ok (rev bs).
Proof.
  revert bs. induction t as [|x t IH]; intros bs H; cbn [mapM rev] in *.
  - now injection H as <-.
  - apply bind_Ok_inv in H. destruct H as [y [Hy H]].
    apply bind_Ok_inv in H. destruct H as [ys [Hys H]]. injection H as <-.
    cbn [rev]. apply mapM_Ok_app; [now apply IH|].
    cbn [mapM]. now rewrite Hy.
Qed.

Lemma mapM_map_rel {A B} (f : A -> result B) (g : A -> A) (h : B -> B) :
  (forall x y, f x = Ok y -> f (g x) = Ok (h y)) ->
  forall t bs, mapM f t = Ok bs -> mapM f (map g t) = Ok (map h bs).
Proof.
  intros Hgh t. induction t as [|x t IH]; intros bs H; cbn [mapM map] in *.
  - now injection H as <-.
  - apply bind_Ok_inv in H. destruct H as [y [Hy H]].
    apply bind_Ok_inv in H. destruct H as [ys [Hys H]]. injection H as <-.
    now rewrite (Hgh _ _ Hy), (IH _ Hys).
Qed.

Section FunctorOnTypes.

Context `{T : Target}.
Variable F : Functor.

Lemma adjoint_Ok (x : Ob) :
  ob F (name x) <> None -> exists a, adjoint F x = Ok a.
Proof.
  intro H. unfold adjoint. destruct (ob F (name x)) as [image|]; [|now elim H].
  destruct (z x <? 0); [eauto|]. destruct (z x >? 0); eauto.
Qed.

Lemma adjoint_KeyError (x : Ob) :
  ob F (name x) = None -> adjoint F x = Raise (KeyError (text (name x))).
Proof. intro H. unfold adjoint. now rewrite H. Qed.

(** X11. A functor is a monoid homomorphism on types: [F(Ty())] is the unit
    of the target and [F(s @ t)] is [F(s) @ F(t)], errors included ([F(s)] is
    computed first). [F(t)] is defined as soon as every object of [t] has
    its name in [ob], whatever its winding number; otherwise it raises the
    KeyError of the first object of [t] whose name is missing. *)
Theorem functor_on_types :
  F_ty F [] = Ok tunit
  /\ (forall s t,
         F_ty F (s ++ t)
         = a <- F_ty F s ;; b <- F_ty F t ;; Ok (ttensor a b))
  /\ (forall t, Forall (fun x => ob F (name x) <> None) t ->
                exists A, F_ty F t = Ok A)
  /\ (forall pre x post,
         Forall (fun y => ob F (name y) <> None) pre ->
         ob F (name x) = None ->
         F_ty F (pre ++ x :: post) = Raise (KeyError (text (name x)))).
Proof.
  split; [reflexivity|]. split; [|split].
  - intros s t. unfold F_ty. rewrite mapM_app.
    destruct (mapM (adjoint F) s) as [As|e]; cbn [bind]; [|reflexivity].
    destruct (mapM (adjoint F) t) as [Bs|e]; cbn [bind]; [|reflexivity].
    now rewrite fold_left_app, fold_left_ttensor.
  - intros t H. unfold F_ty.
    assert (Hm : exists As, mapM (adjoint F) t = Ok As).
    { induction H as [|x t Hx _ [As IH]]; cbn [mapM]; [eauto|].
      destruct (adjoint_Ok x Hx) as [a Ha]. rewrite Ha, IH. cbn [bind]. eauto. }
    destruct Hm as [As ->]. cbn [bind]. eauto.
  - intros pre x post Hpre Hx. unfold F_ty. rewrite mapM_app.
    assert (Hm : exists As, mapM (adjoint F) pre = Ok As).
    { induction Hpre as [|y t Hy _ [As IH]]; cbn [mapM]; [eauto|].
      destruct (adjoint_Ok y Hy) as [a Ha]. rewrite Ha, IH. cbn [bind]. eauto. }
    destruct Hm as [As ->]. cbn [bind mapM].
    now rewrite (adjoint_KeyError x Hx).
Qed.

(** The target's adjoints undo each other and reverse its tensor. *)
Hypothesis t_r_l : forall a, t_r (t_l a) = a.
Hypothesis t_l_r : forall a, t_l (t_r a) = a.
Hypothesis t_r_tensor : forall a b, t_r (ttensor a b) = ttensor (t_r b) (t_r a).
Hypothesis t_l_tensor : forall a b, t_l (ttensor a b) = ttensor (t_l b) (t_l a).
Hypothesis t_r_unit : t_r tunit = tunit.
Hypothesis t_l_unit : t_l tunit = tunit.

Lemma adjoint_r (x : Ob) (a : tTy) :
  adjoint F x = Ok a -> adjoint F (Ob_r x) = Ok (t_r a).
Proof.
  unfold adjoint. cbn [Ob_r name z].
  destruct (ob F (name x)) as [image|]; [|discriminate].
  destruct (Z.ltb_spec (z x) 0) as [Hneg|Hpos].
  - intro H. injection H as <-.
    replace (Z.to_nat (- z x)) with (S (Z.to_nat (- (z x + 1)))) by lia.
    cbn [Nat.iter nat_rect]. rewrite t_r_l.
    destruct (Z.ltb_spec (z x + 1) 0) as [H1|H1]; [reflexivity|].
    destruct (Z.gtb_spec (z x + 1) 0) as [H2|H2]; [lia|].
    now replace (Z.to_nat (- (z x + 1))) with 0%nat by lia.
  - destruct (Z.ltb_spec (z x + 1) 0) as [H1|_]; [lia|].
    destruct (Z.gtb_spec (z x + 1) 0) as [_|H2]; [|lia].
    replace (Z.to_nat (z x + 1)) with (S (Z.to_nat (z x))) by lia.
    cbn [Nat.iter nat_rect].
    destruct (Z.gtb_spec (z x) 0) as [H3|H3]; intro H; injection H as <-.
    + reflexivity.
    + now replace (Z.to_nat (z x)) with 0%nat by lia.
Qed.

Lemma adjoint_l (x : Ob) (a : tTy) :
  adjoint F x = Ok a -> adjoint F (Ob_l x) = Ok (t_l a).
Proof.
  unfold adjoint. cbn [Ob_l name z].
  destruct (ob F (name x)) as [image|]; [|discriminate].
  destruct (Z.ltb_spec (z x) 0) as [Hneg|Hpos].
  - intro H. injection H as <-.
    destruct (Z.ltb_spec (z x - 1) 0) as [_|H1]; [|lia].
    now replace (Z.to_nat (- (z x - 1))) with (S (Z.to_nat (- z x))) by lia.
  - destruct (Z.gtb_spec (z x) 0) as [H3|H3]; intro H; injection H as <-.
    + replace (Z.to_nat (z x)) with (S (Z.to_nat (z x - 1))) by lia.
      cbn [Nat.iter nat_rect]. rewrite t_l_r.
      destruct (Z.ltb_spec (z x - 1) 0) as [H1|H1]; [lia|].
      destruct (Z.gtb_spec (z x - 1) 0) as [H2|H2]; [reflexivity|].
      now replace (Z.to_nat (z x - 1)) with 0%nat by lia.
    + destruct (Z.ltb_spec (z x - 1) 0) as [_|H1]; [|lia].
      now replace (Z.to_nat (- (z x - 1))) with 1%nat by lia.
Qed.

Lemma product_rev (h : tTy -> tTy) (As : list tTy) :
  (forall a b, h (ttensor a b) = ttensor (h b) (h a)) -> h tunit = tunit ->
  fold_left ttensor (map h (rev As)) tunit = h (fold_left ttensor As tunit).
Proof.
  intros Hh Hu. induction As as [|a As IH]; cbn [rev map fold_left].
  - now rewrite Hu.
  - rewrite map_app, fold_left_app, IH. cbn [map fold_left].
    rewrite (fold_left_ttensor As (ttensor tunit a)), ttensor_unit_l.
    now rewrite Hh.
Qed.

(** X12. A functor derives the images of the adjoints: whenever [F(t)] is
    defined and the adjoints of the target undo each other and reverse its
    tensor, [F(t.r) == F(t).r] and [F(t.l) == F(t).l], although [ob] only
    lists the objects of winding number zero. *)
Theorem functor_preserves_adjoints (t : Ty) (A : tTy) :
  F_ty F t = Ok A ->
  F_ty F (Ty_r t) = Ok (t_r A) /\ F_ty F (Ty_l t) = Ok (t_l A).
Proof.
  unfold F_ty. intro H. apply bind_Ok_inv in H. destruct H as [As [HAs H]].
  injection H as <-. unfold Ty_r, Ty_l. split.
  - rewrite (mapM_map_rel _ Ob_r t_r adjoint_r _ _ (mapM_rev _ _ _ HAs)).
    cbn [bind]. now rewrite product_rev.
  - rewrite (mapM_map_rel _ Ob_l t_l adjoint_l _ _ (mapM_rev _ _ _ HAs)).
    cbn [bind]. now rewrite product_rev.
Qed.

End FunctorOnTypes.

Lemma functor_preserves_adjoints_witness :
  F_ty pregroup_functor (Ty_r (Ty_r ty_n ++ ty_s ++ Ty_l ty_n))
  = Ok (t_r (Ty_r ty_n ++ ty_s ++ Ty_l ty_n))
  /\ F_ty pregroup_functor (Ty_l (Ty_r ty_n ++ ty_s ++ Ty_l ty_n))
     = Ok (t_l (Ty_r ty_n ++ ty_s ++ Ty_l ty_n)).
Proof.
  apply (functor_preserves_adjoints pregroup_functor).
  - exact Ty_l_r.
  - exact Ty_r_l.
  - exact Ty_r_app.
  - exact Ty_l_app.
  - reflexivity.
  - reflexivity.
  - reflexivity.
Defined.

(** * rigid.py: more on the normalisation *)

(** ** What [follow_wire] returns *)

(** A list of indices that goes up. *)
Fixpoint increasing (l : list nat) : Prop :=
  match l with
  | [] => True
  | x :: l' => Forall (fun y => (x < y)%nat) l' /\ increasing l'
  end.

(** The change of width of the wires at layer [k]:
    [len(box.cod) - len(box.dom)]. *)
Definition width_change (d : Diagram) (k : nat) : Z :=
  match nth_error (layers d) k with
  | Some l => clen l - dlen l
  | None => 0
  end.

Definition Zsum (l : list Z) : Z := fold_right Z.add 0 l.

Lemma follow_wire_from_miss (rest : list (Box * Z)) :
  forall (i : nat) (j : Z) j' lo ro,
    follow_wire_from (i + length rest) rest i j [] []
    = ((i + length rest)%nat, j', (lo, ro)) ->
    exists Ls Rs, passes rest i j lo ro j' Ls Rs.
Proof.
  induction rest as [|[box off] rest IH]; intros i j j' lo ro Hf;
    cbn [follow_wire_from length] in Hf.
  - injection Hf as <- <- <-. exists [], []. constructor.
  - replace (i + S (length rest))%nat with (S i + length rest)%nat in * by lia.
    destruct (Z.leb_spec off j) as [Hle|Hgt]; cbn [andb] in Hf.
    + destruct (Z.ltb_spec j (off + Z.of_nat (length (box_dom box)))) as [Hlt|Hge].
      * injection Hf as Hc _ _ _. lia.
      * rewrite follow_wire_from_acc in Hf.
        destruct (follow_wire_from (S i + length rest) rest (S i) _ [] [])
          as [[c1 j1] [lo1 ro1]] eqn:Hf1.
        injection Hf as -> <- <- <-.
        destruct (IH _ _ _ _ _ Hf1) as (Ls & Rs & Hp).
        exists ((box, off) :: Ls), Rs.
        apply passes_left; [unfold dlen; simpl; lia|exact Hp].
    + rewrite follow_wire_from_acc in Hf.
      destruct (follow_wire_from (S i + length rest) rest (S i) _ [] [])
        as [[c1 j1] [lo1 ro1]] eqn:Hf1.
      injection Hf as -> <- <- <-.
      destruct (IH _ _ _ _ _ Hf1) as (Ls & Rs & Hp).
      exists Ls, ((box, off - j) :: Rs).
      apply (passes_right (box, off)); [simpl; lia|exact Hp].
Qed.

Lemma follow_wire_from_bound (n : nat) (rest : list (Box * Z)) :
  forall (i : nat) (j : Z) lo0 ro0 c j' lo ro,
    follow_wire_from n rest i j lo0 ro0 = (c, j', (lo, ro)) ->
    c = n \/ (i <= c < i + length rest)%nat.
Proof.
  induction rest as [|[box off] rest IH]; intros i j lo0 ro0 c j' lo ro Hf;
    cbn [follow_wire_from length] in Hf.
  - injection Hf as <- _ _ _. now left.
  - destruct ((off <=? j) && (j <? off + Z.of_nat (length (box_dom box)))).
    + injection Hf as <- _ _ _. right. cbn [length]. lia.
    + cbn [length]. destruct (off <=? j); apply IH in Hf; lia.
Qed.

Lemma passes_partition mid i j lo ro j' Ls Rs :
  passes mid i j lo ro j' Ls Rs ->
  Permutation (lo ++ ro) (seq i (length mid)).
Proof.
  induction 1; cbn [app length seq]; auto.
  rewrite <- Permutation_middle. now apply perm_skip.
Qed.

Lemma passes_increasing mid i j lo ro j' Ls Rs :
  passes mid i j lo ro j' Ls Rs -> increasing lo /\ increasing ro.
Proof.
  induction 1 as [| l mid i j lo ro j' Ls Rs _ Hp [IH1 IH2]
                  | l mid i j lo ro j' Ls Rs _ Hp [IH1 IH2]];
    cbn [increasing]; auto;
    destruct (passes_indices _ _ _ _ _ _ _ _ Hp) as [I1 I2];
    repeat split; auto;
    (eapply Forall_impl; [|eassumption]); cbn beta; intros; lia.
Qed.

Lemma passes_left_layers mid i j lo ro j' Ls Rs :
  passes mid i j lo ro j' Ls Rs ->
  Forall2 (fun k l => (i <= k < i + length mid)%nat
                      /\ nth_error mid (k - i) = Some l) lo Ls.
Proof.
  induction 1 as [| l mid i j lo ro j' Ls Rs _ Hp IH
                  | l mid i j lo ro j' Ls Rs _ Hp IH]; cbn [length].
  - constructor.
  - constructor.
    + rewrite Nat.sub_diag. split; [lia|reflexivity].
    + eapply Forall2_impl; [|exact IH]. cbn beta. intros k x [Hk Hn].
      split; [lia|].
      replace (k - i)%nat with (S (k - S i)) by lia. exact Hn.
  - eapply Forall2_impl; [|exact IH]. cbn beta. intros k x [Hk Hn].
    split; [lia|].
    replace (k - i)%nat with (S (k - S i)) by lia. exact Hn.
Qed.

Lemma passes_offset mid i j lo ro j' Ls Rs :
  passes mid i j lo ro j' Ls Rs ->
  j' = j + Zsum (map (fun l => clen l - dlen l) Ls).
Proof.
  induction 1 as [| l mid i j lo ro j' Ls Rs _ Hp IH
                  | l mid i j lo ro j' Ls Rs _ Hp IH];
    cbn [map Zsum fold_right] in *; unfold Zsum in *; lia.
Qed.

Lemma width_change_sum (d : Diagram) (mid : list (Box * Z)) (base : nat)
      (lo : list nat) (Ls : list (Box * Z)) :
  (forall m l, nth_error mid m = Some l ->
               nth_error (layers d) (base + m) = Some l) ->
  Forall2 (fun k l => (base <= k < base + length mid)%nat
                      /\ nth_error mid (k - base) = Some l) lo Ls ->
  Zsum (map (width_change d) lo) = Zsum (map (fun l => clen l - dlen l) Ls).
Proof.
  intros Hd H. induction H as [|k l lo Ls [Hk Hn] _ IH];
    cbn [map Zsum fold_right]; [reflexivity|].
  unfold Zsum in IH. rewrite IH. f_equal.
  unfold width_change. apply Hd in Hn.
  replace (base + (k - base))%nat with k in Hn by lia. now rewrite Hn.
Qed.

(** X13. What [follow_wire(diagram, i, j)] returns, for every diagram, layer
    [i] and wire [j]: an index [c] after [i] and at most [len(diagram)], the
    offset of the wire when it gets there, and the obstructions. The two
    lists of obstructions go up and together hold every index strictly
    between [i] and [c] exactly once; the offset has moved by the change of
    width of the layers on the left; and when [c < len(diagram)] the wire is
    one of the inputs of box [c]. *)
Theorem follow_wire_spec (d : Diagram) (i : nat) (j : Z)
        (c : nat) (j' : Z) (lo ro : list nat) :
  follow_wire d i j = (c, j', (lo, ro)) ->
  (c <= len d)%nat
  /\ ((i < len d)%nat -> (i < c)%nat)
  /\ Permutation (lo ++ ro) (seq (S i) (c - S i))
  /\ increasing lo /\ increasing ro
  /\ j' = j + Zsum (map (width_change d) lo)
  /\ ((c < len d)%nat ->
      exists box off,
        nth_error (layers d) c = Some (box, off)
        /\ off <= j' < off + Z.of_nat (length (box_dom box))).
Proof.
  unfold follow_wire, len. intro Hf.
  destruct (Nat.le_gt_cases (length (layers d)) i) as [Hi|Hi].
  - rewrite skipn_all2 in Hf by lia. cbn [follow_wire_from] in Hf.
    injection Hf as <- <- <- <-.
    replace (length (layers d) - S i)%nat with 0%nat by lia.
    cbn [app seq map Zsum fold_right increasing].
    repeat split; auto; try lia.
  - set (rest := skipn (S i) (layers d)) in *.
    assert (Hlen : length (layers d) = (S i + length rest)%nat)
      by (unfold rest; rewrite length_skipn; lia).
    assert (Hnth : forall m l, nth_error rest m = Some l ->
                               nth_error (layers d) (S i + m) = Some l)
      by (intros m l; unfold rest; now rewrite nth_error_skipn).
    rewrite Hlen in Hf |- *.
    destruct (Nat.eq_dec c (S i + length rest)) as [->|Hc].
    + destruct (follow_wire_from_miss _ _ _ _ _ _ Hf) as (Ls & Rs & Hp).
      replace (S i + length rest - S i)%nat with (length rest) by lia.
      destruct (passes_increasing _ _ _ _ _ _ _ _ Hp) as [I1 I2].
      repeat split; auto; try lia.
      * now apply (passes_partition _ _ _ _ _ _ _ _ Hp).
      * rewrite (width_change_sum d rest (S i) lo Ls Hnth
                   (passes_left_layers _ _ _ _ _ _ _ _ Hp)).
        now apply (passes_offset _ _ _ _ _ _ _ _ Hp).
    + destruct (follow_wire_from_hit _ _ _ _ _ _ _ Hf Hc)
        as (mid & hit & post & Ls & Rs & Hrest & -> & Hp & Hhit).
      replace (S i + length mid - S i)%nat with (length mid) by lia.
      destruct (passes_increasing _ _ _ _ _ _ _ _ Hp) as [I1 I2].
      rewrite Hrest, length_app. cbn [length].
      assert (Hmid : forall m l, nth_error mid m = Some l ->
                                 nth_error (layers d) (S i + m) = Some l).
      { intros m l Hm. apply Hnth. rewrite Hrest.
        rewrite nth_error_app1; [exact Hm|].
        apply nth_error_Some. congruence. }
      repeat split; auto; try lia.
      * now apply (passes_partition _ _ _ _ _ _ _ _ Hp).
      * rewrite (width_change_sum d mid (S i) lo Ls Hmid
                   (passes_left_layers _ _ _ _ _ _ _ _ Hp)).
        now apply (passes_offset _ _ _ _ _ _ _ _ Hp).
      * intros _. destruct hit as [box off]. exists box, off. split.
        -- apply Hnth. rewrite Hrest, nth_error_app2, Nat.sub_diag by lia.
           reflexivity.
        -- exact Hhit.
Qed.

Lemma follow_wire_spec_witness :
  (4 <= len docstring_diagram)%nat
  /\ ((1 < len docstring_diagram)%nat -> (1 < 4)%nat)
  /\ Permutation ([2%nat] ++ [3%nat]) (seq 2 (4 - 2))
  /\ increasing [2%nat] /\ increasing [3%nat]
  /\ 1 = 1 + Zsum (map (width_change docstring_diagram) [2%nat])
  /\ ((4 < len docstring_diagram)%nat ->
      exists box off,
        nth_error (layers docstring_diagram) 4 = Some (box, off)
        /\ off <= 1 < off + Z.of_nat (length (box_dom box))).
Proof.
  apply (follow_wire_spec docstring_diagram 1 1 4 1 [2%nat] [3%nat]).
  reflexivity.
Defined.

(** ** Diagrams without cups or without caps *)

Lemma find_snake_from_no_cap (d : Diagram) (range : list nat) :
  Forall (fun b => isCap b = false) (boxes d) ->
  find_snake_from d range = None.
Proof.
  intro H. induction range as [|cap range IH]; cbn [find_snake_from];
    [reflexivity|].
  destruct (nth_error (layers d) cap) as [[box off]|] eqn:E; [|exact IH].
  assert (Hb : isCap box = false).
  { rewrite Forall_forall in H. apply H. unfold boxes.
    apply nth_error_In in E. now apply (in_map fst) in E. }
  now rewrite Hb.
Qed.

Lemma try_wire_no_cup (d : Diagram) (cap : nat) (ls : bool) (wire : Z) :
  Forall (fun b => isCup b = false) (boxes d) ->
  try_wire d cap ls wire = None.
Proof.
  intro H. unfold try_wire.
  destruct (follow_wire d cap wire) as [[cup wire'] obstructions].
  destruct (nth_error (layers d) cup) as [[box off]|] eqn:E.
  - assert (Hb : isCup box = false).
    { rewrite Forall_forall in H. apply H. unfold boxes.
      apply nth_error_In in E. now apply (in_map fst) in E. }
    rewrite Hb. cbn [negb orb]. now rewrite orb_true_r.
  - now rewrite orb_true_r.
Qed.

Lemma find_snake_from_no_cup (d : Diagram) (range : list nat) :
  Forall (fun b => isCup b = false) (boxes d) ->
  find_snake_from d range = None.
Proof.
  intro H. induction range as [|cap range IH]; cbn [find_snake_from];
    [reflexivity|].
  destruct (nth_error (layers d) cap) as [[box off]|]; [|exact IH].
  destruct (isCap box); [|exact IH].
  now rewrite !try_wire_no_cup.
Qed.

Section NoSnake.

Variable monoidal_normalize : Diagram -> bool -> trace.

(** X14. A diagram without caps, or without cups, has no snake:
    [find_snake] returns None, the loop of [normalize] yields nothing, and
    the normalisation of the diagram is exactly the monoidal one, with the
    same steps and the same end. *)
Theorem normalize_without_snakes (d : Diagram) (left : bool) :
  Forall (fun b => isCap b = false) (boxes d)
  \/ Forall (fun b => isCup b = false) (boxes d) ->
  find_snake d = None
  /\ (forall fuel, remove_snakes (S fuel) d = ([], Returns d))
  /\ normalize monoidal_normalize d left = monoidal_normalize d left.
Proof.
  intro H.
  assert (Hf : find_snake d = None).
  { unfold find_snake.
    destruct H; [now apply find_snake_from_no_cap
                |now apply find_snake_from_no_cup]. }
  split; [exact Hf|]. split.
  - intro fuel. cbn [remove_snakes]. now rewrite Hf.
  - unfold normalize. cbn [remove_snakes]. rewrite Hf.
    now destruct (monoidal_normalize d left).
Qed.

End NoSnake.

Lemma normalize_without_snakes_witness :
  find_snake words = None
  /\ (forall fuel, remove_snakes (S fuel) words = ([], Returns words))
  /\ normalize nothing_to_normalize words false
     = nothing_to_normalize words false.
Proof.
  apply (normalize_without_snakes nothing_to_normalize words false).
  left. repeat constructor.
Defined.

(** ** The snake removal always ends *)

Lemma remove_snakes_removes (fuel : nat) :
  forall d : Diagram,
    Forall built_by_constructor (boxes d) ->
    (len d < fuel)%nat ->
    exists ys d' removed,
      remove_snakes fuel d = (ys, Returns d')
      /\ find_snake d' = None
      /\ dom d' = dom d /\ cod d' = cod d
      /\ Permutation (boxes d) (removed ++ boxes d')
      /\ Forall (fun b => isCap b = true \/ isCup b = true) removed
      /\ (length removed <= 2 * length ys)%nat.
Proof.
  induction fuel as [|fuel IH]; intros d Hwf Hfuel; [lia|].
  cbn [remove_snakes].
  destruct (find_snake d) as [[[[cup cap] [lo ro]] ls]|] eqn:Hfind.
  2:{ exists [], d, []. cbn [app length]. repeat split; auto. }
  destruct (find_snake_at _ _ _ _ _ _ Hfind)
    as (pre & capL & mid & cupL & post & j' & Ls & Rs & Hat).
  destruct (snake_at_arities _ _ _ _ _ _ _ _ _ _ _ _ _ _ Hwf Hat) as [Hcup Hcap].
  destruct (unsnake_exact _ _ _ _ _ _ _ _ _ _ _ _ _ _ Hat) as [steps [Hun _]];
    try lia.
  rewrite Hun, last_last.
  set (final := mkDiagram (dom d) (cod d)
                  (unsnaked ls pre capL cupL post j' Ls Rs)).
  destruct Hat as (E & _ & _ & HisCap & HisCup & Hp & _).
  pose proof (unsnaked_boxes ls pre capL mid cupL post j' Ls Rs
                (passes_boxes _ _ _ _ _ _ _ _ Hp)) as Hperm.
  assert (Hwf' : Forall built_by_constructor (boxes final)).
  { rewrite Forall_forall in *. intros b Hb. apply Hwf.
    unfold boxes. rewrite E. eapply Permutation_in.
    - symmetry. exact Hperm.
    - right. right. exact Hb. }
  assert (Hlen' : (len final < fuel)%nat).
  { apply Permutation_length in Hperm. unfold len in *. rewrite E in Hfuel.
    unfold final. cbn [layers length] in *. rewrite !length_map in Hperm. lia. }
  destruct (IH final Hwf' Hlen')
    as (ys' & d' & removed & Hrs & Hnone & Hdom & Hcod & Hperm' & Hrem & Hcount).
  rewrite Hrs.
  exists ((steps ++ [final]) ++ ys'), d', (fst capL :: fst cupL :: removed).
  repeat split; auto.
  - unfold boxes at 1. rewrite E. etransitivity; [exact Hperm|].
    cbn [app]. do 2 apply perm_skip. exact Hperm'.
  - rewrite !length_app. cbn [length]. lia.
Qed.

Section SnakeRemoval.

Variable monoidal_normalize : Diagram -> bool -> trace.

(** X15. The [while True] loop of [normalize] always ends. For every diagram
    whose cups and caps their constructors accept, it stops without raising
    on a diagram [d'] in which [find_snake] finds nothing, with the domain
    and the codomain of the start; the generators of the start are those of
    [d'] together with the cups and caps that were removed, and at least one
    diagram is yielded for every pair removed. What [normalize] yields
    after that is what the monoidal normalisation yields on [d']. *)
Theorem snake_removal_terminates (d : Diagram) (left : bool) :
  Forall built_by_constructor (boxes d) ->
  exists ys d' removed,
    remove_snakes (S (len d)) d = (ys, Returns d')
    /\ find_snake d' = None
    /\ dom d' = dom d /\ cod d' = cod d
    /\ Permutation (boxes d) (removed ++ boxes d')
    /\ Forall (fun b => isCap b = true \/ isCup b = true) removed
    /\ (length removed <= 2 * length ys)%nat
    /\ normalize monoidal_normalize d left
       = (ys ++ fst (monoidal_normalize d' left),
          snd (monoidal_normalize d' left)).
Proof.
  intro Hwf.
  destruct (remove_snakes_removes (S (len d)) d Hwf (Nat.lt_succ_diag_r _))
    as (ys & d' & removed & Hrs & H).
  exists ys, d', removed. split; [exact Hrs|].
  repeat (destruct H as [? H]). repeat split; auto.
  unfold normalize. rewrite Hrs.
  now destruct (monoidal_normalize d' left).
Qed.

End SnakeRemoval.

Lemma snake_removal_terminates_witness :
  exists ys d' removed,
    remove_snakes (S (len docstring_diagram)) docstring_diagram
    = (ys, Returns d')
    /\ find_snake d' = None
    /\ dom d' = dom docstring_diagram /\ cod d' = cod docstring_diagram
    /\ Permutation (boxes docstring_diagram) (removed ++ boxes d')
    /\ Forall (fun b => isCap b = true \/ isCup b = true) removed
    /\ (length removed <= 2 * length ys)%nat
    /\ normalize nothing_to_normalize docstring_diagram false
       = (ys ++ fst (nothing_to_normalize d' false),
          snd (nothing_to_normalize d' false)).
Proof.
  apply (snake_removal_terminates nothing_to_normalize docstring_diagram false).
  repeat constructor.
Defined.

(** * quantum.py: more on bitstrings *)

Definition is_bit (b : Z) : Prop := b = 0 \/ b = 1.

Lemma index2bitstring_in_range (n : nat) (i : Z) :
  0 <= i < 2 ^ Z.of_nat n ->
  exists bits, index2bitstring i n = Ok bits
               /\ bitstring2index bits = i
               /\ List.length bits = n
               /\ Forall is_bit bits.
Proof.
  intro H. unfold index2bitstring.
  destruct (Z.geb_spec i (2 ^ Z.of_nat n)) as [Hge|_]; [lia|].
  destruct i as [|p|p]; [| |lia].
  - destruct n as [|n]; simpl andb; cbv iota.
    + exists []. repeat split; auto.
    + unfold format_0b. cbn [app List.length].
      rewrite mapM_binary_digits
        by (apply Forall_app; split;
            [apply repeat_zero_digits
            | constructor; [now left|constructor]]).
      eexists; split; [reflexivity|].
      rewrite map_app, map_bit_of_zeros. split; [|split].
      * rewrite bitstring2index_pad. reflexivity.
      * rewrite length_app, repeat_length. simpl. lia.
      * rewrite <- map_bit_of_zeros, <- map_app. apply bit_of_01.
  - simpl andb; cbv iota. unfold format_0b. cbn [app List.length].
    pose proof (bin_pos_length p n (proj2 H)) as Hlen.
    rewrite mapM_binary_digits
      by (apply Forall_app; split;
          [apply repeat_zero_digits | apply bin_pos_digits]).
    eexists; split; [reflexivity|].
    rewrite map_app, map_bit_of_zeros. split; [|split].
    + rewrite bitstring2index_pad. apply bitstring2index_bin_pos.
    + rewrite length_app, repeat_length, length_map. lia.
    + rewrite <- map_bit_of_zeros, <- map_app. apply bit_of_01.
Qed.

Lemma sum_enumerate_cons (v : Z) (rest : list Z) :
  sum_enumerate 0 (v :: rest) = v + 2 * sum_enumerate 0 rest.
Proof.
  cbn [sum_enumerate]. rewrite sum_enumerate_succ.
  change (2 ^ Z.of_nat 0) with 1. lia.
Qed.

Lemma sum_enumerate_range (bits : list Z) :
  Forall is_bit bits ->
  0 <= sum_enumerate 0 bits < 2 ^ Z.of_nat (List.length bits).
Proof.
  induction 1 as [|v bits Hv _ IH]; [cbn; lia|].
  rewrite sum_enumerate_cons. cbn [List.length].
  rewrite Nat2Z.inj_succ, Z.pow_succ_r by lia.
  destruct Hv as [-> | ->]; lia.
Qed.

Lemma sum_enumerate_inj (bits : list Z) :
  Forall is_bit bits ->
  forall bits', Forall is_bit bits' ->
    List.length bits = List.length bits' ->
    sum_enumerate 0 bits = sum_enumerate 0 bits' -> bits = bits'.
Proof.
  induction 1 as [|v bits Hv _ IH]; intros bits' H' Hlen Hsum.
  - destruct bits'; [reflexivity|discriminate].
  - destruct H' as [|v' bits' Hv' H']; [discriminate|].
    rewrite !sum_enumerate_cons in Hsum. injection Hlen as Hlen.
    assert (v = v' /\ sum_enumerate 0 bits = sum_enumerate 0 bits')
      as [-> Hs] by (destruct Hv as [-> | ->], Hv' as [-> | ->]; lia).
    f_equal. now apply IH.
Qed.

(** X16. The other round trip: for every tuple [bs] of bits,
    [bitstring2index(bs)] is an index below [2 ** len(bs)] and
    [index2bitstring] of it at length [len(bs)] gives [bs] back. So
    [bitstring2index] is one-to-one on the bitstrings of a given length. *)
Theorem bitstring_round_trip_converse (bs : list Z) :
  Forall is_bit bs ->
  0 <= bitstring2index bs < 2 ^ Z.of_nat (List.length bs)
  /\ index2bitstring (bitstring2index bs) (List.length bs) = Ok bs
  /\ (forall bs', Forall is_bit bs' -> List.length bs' = List.length bs ->
                  bitstring2index bs' = bitstring2index bs -> bs' = bs).
Proof.
  intro H.
  assert (Hrev : forall l, Forall is_bit l -> Forall is_bit (rev l))
    by (intros l Hl; apply Forall_rev; exact Hl).
  assert (Hinj : forall bs', Forall is_bit bs' ->
                   List.length bs' = List.length bs ->
                   bitstring2index bs' = bitstring2index bs -> bs' = bs).
  { intros bs' H' Hlen Hidx. unfold bitstring2index in Hidx.
    apply sum_enumerate_inj in Hidx; auto.
    - now rewrite <- (rev_involutive bs'), Hidx, rev_involutive.
    - now rewrite !length_rev. }
  assert (Hrange : 0 <= bitstring2index bs < 2 ^ Z.of_nat (List.length bs)).
  { unfold bitstring2index. rewrite <- (length_rev bs).
    apply sum_enumerate_range. now apply Hrev. }
  split; [exact Hrange|]. split; [|exact Hinj].
  destruct (index2bitstring_in_range _ _ Hrange)
    as (bits & -> & Hidx & Hlen & Hbits).
  f_equal. now apply Hinj.
Qed.

Lemma bitstring_round_trip_converse_witness :
  0 <= bitstring2index [1; 0; 1] < 2 ^ Z.of_nat (List.length [1; 0; 1])
  /\ index2bitstring (bitstring2index [1; 0; 1]) (List.length [1; 0; 1])
     = Ok [1; 0; 1]
  /\ (forall bs', Forall is_bit bs' ->
                  List.length bs' = List.length [1; 0; 1] ->
                  bitstring2index bs' = bitstring2index [1; 0; 1] ->
                  bs' = [1; 0; 1]).
Proof.
  apply (bitstring_round_trip_converse [1; 0; 1]).
  repeat constructor; unfold is_bit; lia.
Defined.

(** X17. [index2bitstring(i, length)] returns exactly for
    [0 <= i < 2 ** length]. A negative index passes the bound test and
    raises the ValueError of [int('-')], on the sign that [format] puts in
    front of the digits. *)
Theorem index2bitstring_defined (i : Z) (n : nat) :
  (i < 0 ->
   index2bitstring i n
   = Raise (ValueError (text "invalid literal for int() with base 10")))
  /\ (is_Ok (index2bitstring i n) = true <-> 0 <= i < 2 ^ Z.of_nat n).
Proof.
  assert (Hneg : i < 0 ->
            index2bitstring i n
            = Raise (ValueError (text "invalid literal for int() with base 10"))).
  { intro H. unfold index2bitstring.
    assert (0 < 2 ^ Z.of_nat n) by (apply Z.pow_pos_nonneg; lia).
    destruct (Z.geb_spec i (2 ^ Z.of_nat n)) as [Hge|_]; [lia|].
    destruct i as [|p|p]; try lia. reflexivity. }
  split; [exact Hneg|]. split.
  - intro H. destruct (Z.lt_ge_cases i 0) as [Hi|Hi].
    + rewrite (Hneg Hi) in H. discriminate.
    + split; [exact Hi|].
      destruct (Z.lt_ge_cases i (2 ^ Z.of_nat n)) as [|Hge]; [assumption|].
      unfold index2bitstring in H.
      destruct (Z.geb_spec i (2 ^ Z.of_nat n)); [discriminate|lia].
  - intro H. destruct (index2bitstring_in_range _ _ H) as (bits & -> & _).
    reflexivity.
Qed.

(** * quantum.py: measurements of any dimension *)

Lemma length_flat_map_uniform {A} (f : nat -> list A) (m : nat) (xs : list nat) :
  (forall x, length (f x) = m) ->
  length (flat_map f xs) = (length xs * m)%nat.
Proof.
  intro Hf. induction xs as [|x xs IH]; cbn [flat_map length]; [reflexivity|].
  rewrite length_app, Hf, IH. lia.
Qed.

Lemma nth_flat_map_seq {A} (f : nat -> list A) (m : nat) (dflt : A) :
  (forall x, length (f x) = m) ->
  forall n a i r,
    (i < n)%nat -> (r < m)%nat ->
    nth (i * m + r) (flat_map f (seq a n)) dflt = nth r (f (a + i)%nat) dflt.
Proof.
  intro Hf. induction n as [|n IH]; intros a i r Hi Hr; [lia|].
  cbn [seq flat_map]. destruct i as [|i].
  - rewrite app_nth1 by (rewrite Hf; lia). now rewrite Nat.add_0_r.
  - rewrite app_nth2 by (rewrite Hf; lia). rewrite Hf.
    replace (S i * m + r - m)%nat with (i * m + r)%nat by lia.
    rewrite IH by lia. f_equal. f_equal. lia.
Qed.

Lemma nth_map_seq {A} (g : nat -> A) (n k : nat) (dflt : A) :
  (k < n)%nat -> nth k (map g (seq 0 n)) dflt = g k.
Proof.
  intro H. rewrite (nth_indep _ dflt (g 0%nat)) by now rewrite length_map, length_seq.
  rewrite map_nth, seq_nth by lia. reflexivity.
Qed.

Section MeasureAnyDimension.

Variable CQMap_tensor : CQMap -> CQMap -> CQMap.

(** X18. The measurement of one system of any dimension [d >= 2]. The
    destructive one goes from [Q(Dim(d))] to [C(Dim(d))]; its array has
    [d ** 3] entries, each 0 or 1, and the entry at [(i, j, k)] is 1 exactly
    when [i == j == k]. The non-destructive one goes to
    [C(Dim(d)) @ Q(Dim(d))]; it has [d ** 5] entries and the entry at
    [(i, j, k, l, m)] is 1 exactly when the five indices are equal. *)
Theorem measure_one_system (d : nat) :
  (2 <= d)%nat ->
  (let m := measure CQMap_tensor (Dim_init [d]) true in
   cq_dom m = Q [d] /\ cq_cod m = C [d]
   /\ CQMap_shape m = [d; d; d]
   /\ List.length (array m) = (d * d * d)%nat
   /\ Forall is_bit (array m)
   /\ forall i j k, (i < d)%nat -> (j < d)%nat -> (k < d)%nat ->
        entry m [i; j; k] = int_of_bool ((i =? j)%nat && (j =? k)%nat))
  /\ (let m := measure CQMap_tensor (Dim_init [d]) false in
      cq_dom m = Q [d] /\ cq_cod m = CQ_tensor (C [d]) (Q [d])
      /\ CQMap_shape m = [d; d; d; d; d]
      /\ List.length (array m) = (d * d * d * d * d)%nat
      /\ Forall is_bit (array m)
      /\ forall i j k l n,
           (i < d)%nat -> (j < d)%nat -> (k < d)%nat ->
           (l < d)%nat -> (n < d)%nat ->
           entry m [i; j; k; l; n]
           = int_of_bool ((i =? j)%nat && (j =? k)%nat
                          && (k =? l)%nat && (l =? n)%nat)).
Proof.
  intro Hd.
  assert (Hdim : Dim_init [d] = [d]).
  { unfold Dim_init. cbn [filter].
    destruct (Nat.ltb_spec 1 d); [reflexivity|lia]. }
  assert (Hbit : forall b, is_bit (int_of_bool b))
    by (intros []; [now right|now left]).
  rewrite Hdim. cbv zeta. cbn [measure measure1 cq_dom cq_cod array].
  split.
  - split; [reflexivity|]. split; [reflexivity|]. split; [reflexivity|].
    assert (L1 : forall i j,
               List.length (map (fun k => int_of_bool ((i =? j)%nat && (j =? k)%nat))
                           (seq 0 d)) = d)
      by (intros; now rewrite length_map, length_seq).
    assert (L2 : forall i,
               List.length (flat_map (fun j => map (fun k =>
                 int_of_bool ((i =? j)%nat && (j =? k)%nat)) (seq 0 d)) (seq 0 d))
               = (d * d)%nat)
      by (intro i; rewrite (length_flat_map_uniform _ d) by (intro; apply L1);
          now rewrite length_seq).
    split; [|split].
    + unfold measure_destructive.
      rewrite (length_flat_map_uniform _ (d * d)) by exact L2.
      rewrite length_seq. lia.
    + unfold measure_destructive.
      apply Forall_flat_map, Forall_forall. intros i _.
      apply Forall_flat_map, Forall_forall. intros j _.
      apply Forall_map, Forall_forall. intros k _. apply Hbit.
    + intros i j k Hi Hj Hk. unfold entry, CQMap_shape.
      cbn [cq_dom cq_cod classical quantum Q C Dim_init filter app array
           flat_index fold_right Nat.ltb Nat.leb].
      replace (i * (d * (d * 1)) + (j * (d * 1) + (k * 1 + 0)))%nat
        with (i * (d * d) + (j * d + k))%nat by lia.
      unfold measure_destructive.
      rewrite (nth_flat_map_seq _ (d * d)) by (auto; nia).
      rewrite (nth_flat_map_seq _ d) by (auto; lia).
      cbn [Nat.add]. now rewrite nth_map_seq.
  - split; [reflexivity|]. split; [reflexivity|]. split; [reflexivity|].
    set (v := fun i j k l n =>
                int_of_bool ((i =? j)%nat && (j =? k)%nat
                             && (k =? l)%nat && (l =? n)%nat)).
    assert (L1 : forall i j k l,
               List.length (map (v i j k l) (seq 0 d)) = d)
      by (intros; now rewrite length_map, length_seq).
    assert (L2 : forall i j k,
               List.length (flat_map (fun l => map (v i j k l) (seq 0 d))
                                     (seq 0 d)) = (d * d)%nat)
      by (intros; rewrite (length_flat_map_uniform _ d) by (intro; apply L1);
          now rewrite length_seq).
    assert (L3 : forall i j,
               List.length (flat_map (fun k => flat_map (fun l =>
                 map (v i j k l) (seq 0 d)) (seq 0 d)) (seq 0 d))
               = (d * (d * d))%nat)
      by (intros; rewrite (length_flat_map_uniform _ (d * d))
            by (intro; apply L2); now rewrite length_seq).
    assert (L4 : forall i,
               List.length (flat_map (fun j => flat_map (fun k =>
                 flat_map (fun l => map (v i j k l) (seq 0 d)) (seq 0 d))
                 (seq 0 d)) (seq 0 d))
               = (d * (d * (d * d)))%nat)
      by (intros; rewrite (length_flat_map_uniform _ (d * (d * d)))
            by (intro; apply L3); now rewrite length_seq).
    change (measure_nondestructive d)
      with (flat_map (fun i => flat_map (fun j => flat_map (fun k =>
              flat_map (fun l => map (v i j k l) (seq 0 d)) (seq 0 d))
              (seq 0 d)) (seq 0 d)) (seq 0 d)).
    split; [|split].
    + rewrite (length_flat_map_uniform _ (d * (d * (d * d)))) by exact L4.
      rewrite length_seq. lia.
    + apply Forall_flat_map, Forall_forall. intros i _.
      apply Forall_flat_map, Forall_forall. intros j _.
      apply Forall_flat_map, Forall_forall. intros k _.
      apply Forall_flat_map, Forall_forall. intros l _.
      apply Forall_map, Forall_forall. intros n _. apply Hbit.
    + intros i j k l n Hi Hj Hk Hl Hn. unfold entry, CQMap_shape.
      cbn [cq_dom cq_cod classical quantum Q C CQ_tensor Dim_init filter app
           array flat_index fold_right Nat.ltb Nat.leb].
      replace (i * (d * (d * (d * (d * 1))))
               + (j * (d * (d * (d * 1)))
                  + (k * (d * (d * 1)) + (l * (d * 1) + (n * 1 + 0)))))%nat
        with (i * (d * (d * (d * d)))
              + (j * (d * (d * d)) + (k * (d * d) + (l * d + n))))%nat by lia.
      assert (B1 : (l * d + n < d * d)%nat) by nia.
      assert (B2 : (k * (d * d) + (l * d + n) < d * (d * d))%nat) by nia.
      assert (B3 : (j * (d * (d * d)) + (k * (d * d) + (l * d + n))
                    < d * (d * (d * d)))%nat) by nia.
      rewrite (nth_flat_map_seq _ (d * (d * (d * d)))) by auto.
      rewrite (nth_flat_map_seq _ (d * (d * d))) by auto.
      rewrite (nth_flat_map_seq _ (d * d)) by auto.
      rewrite (nth_flat_map_seq _ d) by auto.
      cbn [Nat.add]. now rewrite nth_map_seq.
Qed.

End MeasureAnyDimension.

Lemma measure_one_system_witness :
  entry (measure (fun m _ => m) (Dim_init [3%nat]) true) [2; 2; 2]%nat = 1
  /\ entry (measure (fun m _ => m) (Dim_init [3%nat]) true) [2; 1; 2]%nat = 0.
Proof.
  destruct (measure_one_system (fun m _ => m) 3) as [(_ & _ & _ & _ & _ & H) _];
    [lia|].
  split; [apply (H 2 2 2)%nat | apply (H 2 1 2)%nat]; lia.
Defined.

(** * quantum.py: more on circuits *)

(** A type of bits and qubits only. *)
Definition bits_or_qubits (t : BitsAndQubits) : Prop :=
  Forall (fun x => x = bit \/ x = qubit) t.

Lemma BitsAndQubits_upgrade_spec (ty : Ty) :
  (bits_or_qubits ty -> BitsAndQubits_upgrade ty = Ok ty)
  /\ (~ bits_or_qubits ty ->
      BitsAndQubits_upgrade ty = Raise (TypeError (text "Expected BitsAndQubits"))).
Proof.
  assert (H : forallb (fun x => Ob_eqb x bit || Ob_eqb x qubit) ty = true
              <-> bits_or_qubits ty).
  { unfold bits_or_qubits. rewrite forallb_forall, Forall_forall.
    split; intros H x Hx; specialize (H x Hx).
    - apply orb_true_iff in H as [H|H];
        [left; destruct (Ob_eqb_spec x bit)
        |right; destruct (Ob_eqb_spec x qubit)]; congruence.
    - destruct H as [-> | ->]; reflexivity. }
  unfold BitsAndQubits_upgrade.
  destruct (forallb _ ty).
  - split; [reflexivity|]. intro N. elim N. now apply H.
  - split; [|reflexivity]. intro B. apply H in B. discriminate.
Qed.

Lemma bits_or_qubits_dec (t : BitsAndQubits) :
  {bits_or_qubits t} + {~ bits_or_qubits t}.
Proof.
  destruct (forallb (fun x => Ob_eqb x bit || Ob_eqb x qubit) t) eqn:E.
  - left. unfold bits_or_qubits. rewrite Forall_forall. intros x Hx.
    rewrite forallb_forall in E. specialize (E x Hx).
    apply orb_true_iff in E as [E|E];
      [left; destruct (Ob_eqb_spec x bit)
      |right; destruct (Ob_eqb_spec x qubit)]; congruence.
  - right. intro B. unfold bits_or_qubits in B. rewrite Forall_forall in B.
    assert (forallb (fun x => Ob_eqb x bit || Ob_eqb x qubit) t = true).
    { apply forallb_forall. intros x Hx. destruct (B x Hx) as [-> | ->];
        reflexivity. }
    congruence.
Qed.

Lemma bit_names (t : BitsAndQubits) :
  bits_or_qubits t ->
  (forallb (fun x => String.eqb (name x) "bit") t = true
   <-> Forall (fun x => x = bit) t)
  /\ (forallb (fun x => String.eqb (name x) "qubit") t = true
      <-> Forall (fun x => x = qubit) t)
  /\ (forallb (fun x => String.eqb (name x) "bit") t = false <-> In qubit t)
  /\ (forallb (fun x => String.eqb (name x) "qubit") t = false <-> In bit t).
Proof.
  induction 1 as [|x t Hx Ht IH].
  - cbn. repeat split; try constructor; try discriminate; try contradiction.
  - destruct IH as (I1 & I2 & I3 & I4).
    cbn [forallb In].
    destruct Hx as [-> | ->];
      cbn [name bit qubit String.eqb Ascii.eqb Bool.eqb andb];
      (split; [|split; [|split]]); split; intro H;
      first [ discriminate
            | reflexivity
            | now left
            | now (inversion H; subst; discriminate)
            | now (constructor; [reflexivity|]; first [apply I1 | apply I2])
            | now (inversion H; subst; first [apply I1 | apply I2])
            | now (right; first [apply I3 | apply I4])
            | now (destruct H as [H|H];
                   [discriminate|first [apply I3 | apply I4]]) ].
Qed.

(** X19. What the constructor of a circuit box decides when the box is
    declared not mixed. It raises the TypeError of [BitsAndQubits._upgrade]
    exactly when some wire of [dom @ cod] is neither [Ob('bit')] nor
    [Ob('qubit')] (an object with that name and another winding number is
    such a wire). Otherwise the box is classical exactly when all its wires
    are bits, and so is a box without any wire (a scalar); it is quantum
    exactly when it has a wire and all its wires are qubits; and the
    constructor raises the ValueError exactly when the wires are bits and
    qubits and both occur. A box of bits and qubits that is declared mixed
    is accepted and gets no [classical] attribute. *)
Theorem CircuitBox_init_spec (name_ : string) (dom_ cod_ : BitsAndQubits) :
  (~ bits_or_qubits (dom_ ++ cod_) <->
   exists m, CircuitBox_init name_ dom_ cod_ false = Raise (TypeError m))
  /\ (Forall (fun x => x = bit) (dom_ ++ cod_) <->
      CircuitBox_init name_ dom_ cod_ false
      = Ok (mkCircuitBox name_ dom_ cod_ false (Some true)))
  /\ (dom_ ++ cod_ <> [] /\ Forall (fun x => x = qubit) (dom_ ++ cod_) <->
      CircuitBox_init name_ dom_ cod_ false
      = Ok (mkCircuitBox name_ dom_ cod_ false (Some false)))
  /\ (bits_or_qubits (dom_ ++ cod_)
      /\ In bit (dom_ ++ cod_) /\ In qubit (dom_ ++ cod_) <->
      exists m, CircuitBox_init name_ dom_ cod_ false = Raise (ValueError m))
  /\ (dom_ ++ cod_ = [] ->
      CircuitBox_init name_ dom_ cod_ false
      = Ok (mkCircuitBox name_ dom_ cod_ false (Some true)))
  /\ (bits_or_qubits (dom_ ++ cod_) ->
      CircuitBox_init name_ dom_ cod_ true
      = Ok (mkCircuitBox name_ dom_ cod_ true None)).
Proof.
  assert (Hsub1 : Forall (fun x => x = bit) (dom_ ++ cod_) ->
                  bits_or_qubits (dom_ ++ cod_)).
  { intro H. eapply Forall_impl; [|exact H]. cbn. auto. }
  assert (Hsub2 : Forall (fun x => x = qubit) (dom_ ++ cod_) ->
                  bits_or_qubits (dom_ ++ cod_)).
  { intro H. eapply Forall_impl; [|exact H]. cbn. auto. }
  assert (Hnil : dom_ ++ cod_ = [] -> bits_or_qubits (dom_ ++ cod_))
    by (intros ->; constructor).
  destruct (BitsAndQubits_upgrade_spec (dom_ ++ cod_)) as [Hok Hraise].
  unfold CircuitBox_init. cbn [negb].
  destruct (bits_or_qubits_dec (dom_ ++ cod_)) as [B|N].
  - rewrite (Hok B). cbn [bind].
    destruct (bit_names _ B) as (I1 & I2 & I3 & I4).
    destruct (forallb (fun x => String.eqb (name x) "bit") (dom_ ++ cod_))
      eqn:Eb;
      [|destruct (forallb (fun x => String.eqb (name x) "qubit") (dom_ ++ cod_))
          eqn:Eq].
    + assert (Hb : Forall (fun x => x = bit) (dom_ ++ cod_)) by now apply I1.
      split; [split; [contradiction|intros [m H]; discriminate]|].
      split; [tauto|].
      split.
      { split; [|discriminate]. intros [Hne Hq]. elim Hne.
        destruct (dom_ ++ cod_) as [|x t]; [reflexivity|].
        inversion Hb as [|? ? E1 _]. inversion Hq as [|? ? E2 _].
        rewrite E1 in E2. discriminate. }
      split.
      { split; [|intros [m H]; discriminate]. intros (_ & _ & Hq).
        apply I3 in Hq. discriminate. }
      split; auto.
    + assert (Hq : Forall (fun x => x = qubit) (dom_ ++ cod_)) by now apply I2.
      assert (Nb : ~ Forall (fun x => x = bit) (dom_ ++ cod_)).
      { intro Hb. apply I1 in Hb. discriminate. }
      split; [split; [contradiction|intros [m H]; discriminate]|].
      split; [split; [contradiction|discriminate]|].
      split.
      { split; [reflexivity|]. intros _. split; [|exact Hq].
        intro E. apply Nb. rewrite E. constructor. }
      split.
      { split; [|intros [m H]; discriminate]. intros (_ & Hb & _).
        apply I4 in Hb. rewrite Hb in Eq. discriminate. }
      split; auto.
      intro E. elim Nb. rewrite E. constructor.
    + assert (Nb : ~ Forall (fun x => x = bit) (dom_ ++ cod_)).
      { intro Hb. apply I1 in Hb. discriminate. }
      assert (Nq : ~ Forall (fun x => x = qubit) (dom_ ++ cod_)).
      { intro Hq. apply I2 in Hq. rewrite Hq in Eq. discriminate. }
      split; [split; [contradiction|intros [m H]; discriminate]|].
      split; [split; [contradiction|discriminate]|].
      split; [split; [intros [_ Hq]; contradiction|discriminate]|].
      split.
      { split; [eauto|]. intros _. split; [exact B|]. split.
        - now apply I4.
        - now apply I3. }
      split; auto.
      intro E. elim Nb. rewrite E. constructor.
  - rewrite (Hraise N). cbn [bind].
    split; [split; [eauto|auto]|].
    split; [split; [intro H; elim N; auto|discriminate]|].
    split; [split; [intros [_ H]; elim N; auto|discriminate]|].
    split; [split; [intros [H _]; contradiction|intros [m H]; discriminate]|].
    split; [intro E; elim N; auto|contradiction].
Qed.

(** The box of the object [Ob('qubit', 1)] is refused with a TypeError. *)
Lemma CircuitBox_init_spec_witness :
  exists m, CircuitBox_init "f" [mkOb "qubit" 1] [qubit] false
            = Raise (TypeError m).
Proof.
  apply (proj1 (CircuitBox_init_spec "f" [mkOb "qubit" 1] [qubit])).
  intro H. inversion H as [|? ? [E|E] _]; discriminate.
Defined.

(** ** [Circuit.init_and_discard] *)

(** Modelled from the spec: the identity, the sequential and the parallel
    composition of circuits, as for the diagrams ([monoidal.py] is not among
    the sources). *)
Definition Circuit_id (dom_ : BitsAndQubits) : Circuit := mkCircuit dom_ dom_ [].

Definition Circuit_then (c1 c2 : Circuit) : result Circuit :=
  if Ty_eqb (circuit_cod c1) (circuit_dom c2)
  then Ok (mkCircuit (circuit_dom c1) (circuit_cod c2)
                     (circuit_layers c1 ++ circuit_layers c2))
  else Raise (AxiomError (does_not_compose (circuit_cod c1) (circuit_dom c2))).

Definition Circuit_tensor (c1 c2 : Circuit) : Circuit :=
  mkCircuit (circuit_dom c1 ++ circuit_dom c2)
            (circuit_cod c1 ++ circuit_cod c2)
            (circuit_layers c1
             ++ map (fun l => (fst l, snd l + Z.of_nat (length (circuit_cod c1))))
                    (circuit_layers c2)).

(** [Id(0).tensor( *others)]. *)
Definition Circuit_tensor_all (others : list Circuit) : Circuit :=
  fold_left Circuit_tensor others (Circuit_id []).

(** A box seen as a circuit: [Circuit(dom, cod, [self], [0])]. *)
Definition box_circuit (b : CircuitBox) : Circuit :=
  mkCircuit (cbox_dom b) (cbox_cod b) [(b, 0)].

(** [Bits(0)], [Ket(0)] and [Discard()], without their arrays. *)
Definition Bits0 : CircuitBox := mkCircuitBox "Bits(0)" [] [bit] false (Some true).
Definition Ket0 : CircuitBox := mkCircuitBox "Ket(0)" [] [qubit] false (Some false).
Definition Discard1 : CircuitBox := mkCircuitBox "Discard(qubit)" [qubit] [] true None.

Example Bits0_built : CircuitBox_init "Bits(0)" [] [bit] false = Ok Bits0.
Proof. reflexivity. Qed.
Example Ket0_built : CircuitBox_init "Ket(0)" [] [qubit] false = Ok Ket0.
Proof. reflexivity. Qed.
Example Discard1_built :
  CircuitBox_init "Discard(qubit)" [qubit] [] true = Ok Discard1.
Proof. reflexivity. Qed.

(** [bit ** n]. *)
Definition bit_pow (n : nat) : BitsAndQubits := repeat bit n.

(** [Bits(0) if x.name == "bit" else Ket(0)] and
    [Discard() if x.name == "qubit" else Id(bit)]. *)
Definition init_item (x : Ob) : Circuit :=
  if String.eqb (name x) "bit" then box_circuit Bits0 else box_circuit Ket0.
Definition discard_item (x : Ob) : Circuit :=
  if String.eqb (name x) "qubit" then box_circuit Discard1
  else Circuit_id [bit].

Definition init_circuit (dom_ : BitsAndQubits) : Circuit :=
  Circuit_tensor_all (map init_item dom_).

Definition discards_circuit (cod_ : BitsAndQubits) : Circuit :=
  Circuit_tensor_all (map discard_item cod_).

Definition init_and_discard (self : Circuit) : result Circuit :=
  circuit <- (match circuit_dom self with
              | [] => Ok self
              | _ => Circuit_then (init_circuit (circuit_dom self)) self
              end) ;;
  if negb (Ty_eqb (circuit_cod circuit)
                  (bit_pow (length (circuit_cod circuit))))
  then Circuit_then circuit (discards_circuit (circuit_cod circuit))
  else Ok circuit.

Definition is_qubit (x : Ob) : bool := String.eqb (name x) "qubit".

Lemma Circuit_tensor_fold (cs : list Circuit) :
  forall acc,
    circuit_dom (fold_left Circuit_tensor cs acc)
    = circuit_dom acc ++ flat_map circuit_dom cs
    /\ circuit_cod (fold_left Circuit_tensor cs acc)
       = circuit_cod acc ++ flat_map circuit_cod cs
    /\ length (circuit_layers (fold_left Circuit_tensor cs acc))
       = (length (circuit_layers acc)
          + length (flat_map circuit_layers cs))%nat.
Proof.
  induction cs as [|c cs IH]; intro acc; cbn [fold_left flat_map].
  - rewrite !app_nil_r. cbn [length]. auto.
  - destruct (IH (Circuit_tensor acc c)) as (-> & -> & ->).
    unfold Circuit_tensor. cbn [circuit_dom circuit_cod circuit_layers].
    rewrite <- !app_assoc, !length_app, length_map. repeat split. lia.
Qed.

Lemma init_items (t : BitsAndQubits) :
  bits_or_qubits t ->
  flat_map circuit_dom (map init_item t) = []
  /\ flat_map circuit_cod (map init_item t) = t
  /\ length (flat_map circuit_layers (map init_item t)) = length t.
Proof.
  induction 1 as [|x t Hx _ (IH1 & IH2 & IH3)]; [auto|].
  cbn [map flat_map]. rewrite IH1, IH2, length_app, IH3.
  destruct Hx as [-> | ->]; cbn; auto.
Qed.

Lemma discard_items (t : BitsAndQubits) :
  bits_or_qubits t ->
  flat_map circuit_dom (map discard_item t) = t
  /\ flat_map circuit_cod (map discard_item t)
     = bit_pow (length (filter (fun x => negb (is_qubit x)) t))
  /\ length (flat_map circuit_layers (map discard_item t))
     = length (filter is_qubit t).
Proof.
  induction 1 as [|x t Hx _ (IH1 & IH2 & IH3)]; [auto|].
  cbn [map flat_map]. rewrite IH1, IH2, length_app, IH3.
  destruct Hx as [-> | ->]; cbn; auto.
Qed.

Lemma init_circuit_spec (t : BitsAndQubits) :
  bits_or_qubits t ->
  circuit_dom (init_circuit t) = []
  /\ circuit_cod (init_circuit t) = t
  /\ length (circuit_layers (init_circuit t)) = length t.
Proof.
  intro H. unfold init_circuit, Circuit_tensor_all.
  destruct (Circuit_tensor_fold (map init_item t) (Circuit_id []))
    as (-> & -> & ->).
  destruct (init_items t H) as (-> & -> & ->). auto.
Qed.

Lemma discards_circuit_spec (t : BitsAndQubits) :
  bits_or_qubits t ->
  circuit_dom (discards_circuit t) = t
  /\ circuit_cod (discards_circuit t)
     = bit_pow (length (filter (fun x => negb (is_qubit x)) t))
  /\ length (circuit_layers (discards_circuit t))
     = length (filter is_qubit t).
Proof.
  intro H. unfold discards_circuit, Circuit_tensor_all.
  destruct (Circuit_tensor_fold (map discard_item t) (Circuit_id []))
    as (-> & -> & ->).
  destruct (discard_items t H) as (-> & -> & ->). auto.
Qed.

Lemma bit_pow_eqb (t : BitsAndQubits) :
  bits_or_qubits t ->
  Ty_eqb t (bit_pow (length t)) = negb (existsb is_qubit t).
Proof.
  induction 1 as [|x t Hx _ IH]; [reflexivity|].
  cbn [length bit_pow repeat Ty_eqb existsb]. fold (bit_pow (length t)).
  rewrite IH. destruct Hx as [-> | ->]; reflexivity.
Qed.

Lemma no_qubit_filter (t : BitsAndQubits) :
  existsb is_qubit t = false ->
  filter is_qubit t = [] /\ filter (fun x => negb (is_qubit x)) t = t.
Proof.
  induction t as [|x t IH]; cbn [existsb filter]; [auto|].
  intro H. apply orb_false_elim in H. destruct H as [Hx Ht].
  rewrite Hx. cbn [negb]. destruct (IH Ht) as [-> ->]. auto.
Qed.

Lemma init_and_discard_closed (c : Circuit) (k : nat) :
  circuit_dom c = [] -> circuit_cod c = bit_pow k ->
  init_and_discard c = Ok c.
Proof.
  intros Hd Hc. unfold init_and_discard. rewrite Hd. cbn [bind].
  rewrite Hc. unfold bit_pow. now rewrite repeat_length, Ty_eqb_refl.
Qed.

(** X20. [init_and_discard] closes a circuit. For every circuit on bits and
    qubits it returns a circuit with an empty domain (one [Bits(0)] or
    [Ket(0)] is put on each input, unless there is none) whose codomain is
    made of bits only (one [Discard()] is put on each output qubit, unless
    there is none); the bits of the codomain are kept. It is idempotent: on
    its own result it changes nothing. *)
Theorem init_and_discard_spec (c : Circuit) :
  bits_or_qubits (circuit_dom c) -> bits_or_qubits (circuit_cod c) ->
  exists c',
    init_and_discard c = Ok c'
    /\ circuit_dom c' = []
    /\ circuit_cod c'
       = bit_pow (length (filter (fun x => negb (is_qubit x)) (circuit_cod c)))
    /\ length (circuit_layers c')
       = (length (circuit_dom c) + length (circuit_layers c)
          + length (filter is_qubit (circuit_cod c)))%nat
    /\ init_and_discard c' = Ok c'.
Proof.
  intros Hdom Hcod.
  assert (H1 : exists c1,
             match circuit_dom c with
             | [] => Ok c
             | _ => Circuit_then (init_circuit (circuit_dom c)) c
             end = Ok c1
             /\ circuit_dom c1 = [] /\ circuit_cod c1 = circuit_cod c
             /\ length (circuit_layers c1)
                = (length (circuit_dom c) + length (circuit_layers c))%nat).
  { destruct (init_circuit_spec _ Hdom) as (I1 & I2 & I3).
    destruct (circuit_dom c) as [|x t] eqn:E.
    - exists c. auto.
    - unfold Circuit_then. rewrite I2, E, Ty_eqb_refl.
      eexists. split; [reflexivity|].
      cbn [circuit_dom circuit_cod circuit_layers].
      rewrite length_app, I3. auto. }
  destruct H1 as (c1 & E1 & D1 & C1 & L1).
  unfold init_and_discard at 1. rewrite E1. cbn [bind].
  rewrite C1, (bit_pow_eqb _ Hcod), negb_involutive.
  destruct (existsb is_qubit (circuit_cod c)) eqn:Eq.
  - destruct (discards_circuit_spec _ Hcod) as (K1 & K2 & K3).
    unfold Circuit_then. rewrite C1, K1, Ty_eqb_refl.
    eexists. split; [reflexivity|].
    cbn [circuit_dom circuit_cod circuit_layers].
    rewrite length_app, L1, K2, K3. repeat split; auto.
    eapply init_and_discard_closed; cbn [circuit_dom circuit_cod]; eauto.
  - destruct (no_qubit_filter _ Eq) as [F1 F2].
    assert (Hb : circuit_cod c = bit_pow (length (circuit_cod c))).
    { apply Ty_eqb_eq. now rewrite (bit_pow_eqb _ Hcod), Eq. }
    exists c1. rewrite F1, F2, L1, D1, C1. cbn [length].
    repeat split; auto.
    apply (init_and_discard_closed c1 (length (circuit_cod c))); congruence.
Qed.

Lemma init_and_discard_spec_witness :
  exists c',
    init_and_discard (mkCircuit [qubit; bit] [bit; qubit; qubit] []) = Ok c'
    /\ circuit_dom c' = []
    /\ circuit_cod c'
       = bit_pow (length (filter (fun x => negb (is_qubit x))
                                 [bit; qubit; qubit]))
    /\ length (circuit_layers c')
       = (length [qubit; bit] + length (@nil (CircuitBox * Z))
          + length (filter is_qubit [bit; qubit; qubit]))%nat
    /\ init_and_discard c' = Ok c'.
Proof.
  apply (init_and_discard_spec (mkCircuit [qubit; bit] [bit; qubit; qubit] [])).
  - repeat (constructor; [(now left) || (now right)|]). constructor.
  - repeat (constructor; [(now left) || (now right)|]). constructor.
Defined.

Example init_and_discard_example :
  init_and_discard (mkCircuit [qubit; bit] [bit; qubit; qubit] [])
  = Ok (mkCircuit [] [bit]
          [(Ket0, 0); (Bits0, 1); (Discard1, 1); (Discard1, 1)]).
Proof. reflexivity. Qed.

(** * pregroup.py: the eager parser *)

(** [pregroup.py] imports [Ty], [Box], [Id] and [Cup] from
    [discopy.rigidcat], which is not among the sources; they are taken to be
    those of [rigid.py] above. The parser only builds [Cup(x, y)] after
    testing [x.r == y], the case in which the constructor of [rigid.py]
    accepts the pair. *)

(** What the parser can end with: a diagram, [NotImplementedError], another
    exception, or nothing when the fuel of the [while True] loop runs out. *)
Inductive parse_outcome : Type :=
  | Parsed (d : Diagram)
  | NotImplementedError
  | ParseRaises (e : exn)
  | ParseDiverges.

(** [fold(lambda x, y: x @ y, words)]: [functools.reduce] without an initial
    value, which raises a TypeError on no word at all. *)
Definition fold_words (words : list Diagram) : result Diagram :=
  match words with
  | [] => Raise (TypeError
                   (text "reduce() of empty sequence with no initial value"))
  | w :: ws => Ok (fold_left tensor ws w)
  end.

(** The [for] loop of [eager_parse] up to its [break]: the first index [i]
    with [scan[i:i + 1].r == scan[i + 1:i + 2]]. *)
Fixpoint first_reducible (scan : Ty) (range : list nat) : option nat :=
  match range with
  | [] => None
  | i :: range' =>
      if negb (Ty_eqb (Ty_r (slice i (i + 1) scan)) (slice (i + 1) (i + 2) scan))
      then first_reducible scan range'
      else Some i
  end.

(** One turn of the [while True] loop, before its two tests: the new
    [result], [scan] and [fail]. *)
Definition reduce_step (res : Diagram) (scan : Ty)
  : result (Diagram * Ty * bool) :=
  match first_reducible scan (seq 0 (length scan - 1)) with
  | None => Ok (res, scan, true)
  | Some i =>
      cup <- Cup_init (slice i (i + 1) scan) (slice (i + 1) (i + 2) scan) ;;
      res' <- then_ res (Id (slice_to i scan) @@ box_diagram cup
                         @@ Id (slice_from (i + 2) scan)) ;;
      Ok (res', cod res', false)
  end.

Fixpoint eager_loop (fuel : nat) (res : Diagram) (scan target : Ty)
  : parse_outcome :=
  match fuel with
  | O => ParseDiverges
  | S fuel' =>
      match reduce_step res scan with
      | Raise e => ParseRaises e
      | Ok (res', scan', fail) =>
          if Ty_eqb (cod res') target then Parsed res'
          else if fail then NotImplementedError
          else eager_loop fuel' res' scan' target
      end
  end.

Definition eager_parse (fuel : nat) (words : list Diagram) (target : Ty)
  : parse_outcome :=
  match fold_words words with
  | Raise e => ParseRaises e
  | Ok res => eager_loop fuel res (cod res) target
  end.

(** No two neighbours of [scan] are adjoint: nothing is left to contract. *)
Definition irreducible (scan : Ty) : Prop :=
  forall i x y, nth_error scan i = Some x -> nth_error scan (S i) = Some y ->
                y <> Ob_r x.

Lemma first_reducible_Some (scan : Ty) (range : list nat) (i : nat) :
  first_reducible scan range = Some i ->
  In i range
  /\ Ty_r (slice i (i + 1) scan) = slice (i + 1) (i + 2) scan.
Proof.
  induction range as [|k range IH]; cbn [first_reducible]; [discriminate|].
  destruct (Ty_eqb_spec (Ty_r (slice k (k + 1) scan))
                        (slice (k + 1) (k + 2) scan)) as [E|N]; cbn [negb].
  - intro H. injection H as <-. split; [now left|exact E].
  - intro H. destruct (IH H). split; [now right|assumption].
Qed.

Lemma first_reducible_None (scan : Ty) (range : list nat) :
  first_reducible scan range = None ->
  forall i, In i range ->
    Ty_r (slice i (i + 1) scan) <> slice (i + 1) (i + 2) scan.
Proof.
  induction range as [|k range IH]; cbn [first_reducible];
    [intros _ i []|].
  destruct (Ty_eqb_spec (Ty_r (slice k (k + 1) scan))
                        (slice (k + 1) (k + 2) scan)) as [E|N]; cbn [negb];
    [discriminate|].
  intros H i [<-|Hi]; [exact N|now apply IH].
Qed.

Lemma first_reducible_irreducible (scan : Ty) :
  first_reducible scan (seq 0 (length scan - 1)) = None -> irreducible scan.
Proof.
  intros H i x y Hx Hy ->.
  assert (Hi : (S i < length scan)%nat) by (apply nth_error_Some; congruence).
  apply (first_reducible_None _ _ H i); [apply in_seq; lia|].
  set (d := mkOb "" 0).
  rewrite (slice_singleton d) by lia.
  replace (i + 2)%nat with (i + 1 + 1)%nat by lia.
  rewrite (slice_singleton d) by lia.
  rewrite (nth_error_nth _ _ d Hx).
  replace (i + 1)%nat with (S i) by lia.
  now rewrite (nth_error_nth _ _ d Hy).
Qed.

Lemma reduce_step_contracts (res : Diagram) (i : nat) :
  first_reducible (cod res) (seq 0 (length (cod res) - 1)) = Some i ->
  exists x res',
    reduce_step res (cod res) = Ok (res', cod res', false)
    /\ dom res' = dom res
    /\ layers res' = layers res ++ [(Cup [x] [Ob_r x], Z.of_nat i)]
    /\ length (cod res) = (length (cod res') + 2)%nat.
Proof.
  intro H. unfold reduce_step. rewrite H.
  destruct (first_reducible_Some _ _ _ H) as [Hin E].
  apply in_seq in Hin. set (d := mkOb "" 0).
  set (scan := cod res) in *.
  assert (S1 : slice i (i + 1) scan = [nth i scan d])
    by (apply slice_singleton; lia).
  assert (S2 : slice (i + 1) (i + 2) scan = [nth (i + 1) scan d])
    by (replace (i + 2)%nat with (i + 1 + 1)%nat by lia;
        apply slice_singleton; lia).
  rewrite S1, S2 in E |- *. change (Ty_r [nth i scan d]) with [Ob_r (nth i scan d)] in E.
  rewrite <- E, Cup_init_adjoint. cbn [bind].
  rewrite tensor_Id_box_Id. cbn [box_dom box_cod app].
  assert (Hscan : scan = slice_to i scan
                         ++ nth i scan d :: Ob_r (nth i scan d)
                         :: slice_from (i + 2) scan).
  { unfold slice_to, slice_from.
    rewrite <- (firstn_skipn i scan) at 1. f_equal.
    rewrite (skipn_nth_cons d) by lia. f_equal.
    rewrite (skipn_nth_cons d) by lia.
    injection E as E. replace (S i) with (i + 1)%nat by lia. rewrite <- E.
    f_equal. f_equal. lia. }
  rewrite then_Ok by (cbn [dom]; exact Hscan).
  cbn [bind dom cod layers].
  exists (nth i scan d),
    (mkDiagram (dom res) (slice_to i scan ++ slice_from (i + 2) scan)
       (layers res ++ [(Cup [nth i scan d] [Ob_r (nth i scan d)],
                        Z.of_nat (length (slice_to i scan)))])).
  split; [reflexivity|].
  cbn [dom cod layers]. unfold slice_to, slice_from.
  rewrite length_firstn, Nat.min_l by lia.
  repeat split.
  rewrite length_app, length_firstn, length_skipn. lia.
Qed.

(** [d] is [res] followed by layers that are all cups. *)
Definition contracted (res d : Diagram) (cups_ : list (Box * Z)) : Prop :=
  dom d = dom res
  /\ layers d = layers res ++ cups_
  /\ Forall (fun l => isCup (fst l) = true) cups_
  /\ length (cod res) = (length (cod d) + 2 * length cups_)%nat.

Lemma eager_loop_spec (target : Ty) (fuel : nat) :
  forall res : Diagram,
    (length (cod res) < 2 * fuel)%nat ->
    (exists d cups_,
        eager_loop fuel res (cod res) target = Parsed d
        /\ cod d = target /\ contracted res d cups_)
    \/ (eager_loop fuel res (cod res) target = NotImplementedError
        /\ exists d cups_,
             contracted res d cups_
             /\ cod d <> target /\ irreducible (cod d)).
Proof.
  induction fuel as [|fuel IH]; intros res Hlen; [lia|].
  cbn [eager_loop].
  destruct (first_reducible (cod res) (seq 0 (length (cod res) - 1)))
    as [i|] eqn:Hfirst.
  - destruct (reduce_step_contracts res i Hfirst)
      as (x & res' & -> & Hdom & Hlayers & Hcod).
    destruct (Ty_eqb_spec (cod res') target) as [E|N].
    + left. exists res', [(Cup [x] [Ob_r x], Z.of_nat i)].
      repeat split; auto; cbn [length]; lia.
    + assert (Hlen' : (length (cod res') < 2 * fuel)%nat) by lia.
      destruct (IH res' Hlen')
        as [(d & cups_ & -> & Hd & D1 & D2 & D3 & D4)
           |(-> & d & cups_ & (D1 & D2 & D3 & D4) & Hd & Hirr)].
      * left. exists d, ((Cup [x] [Ob_r x], Z.of_nat i) :: cups_).
        repeat split; auto; try congruence;
          try (now rewrite D2, Hlayers, <- app_assoc);
          try (cbn [length]; lia).
      * right. split; [reflexivity|].
        exists d, ((Cup [x] [Ob_r x], Z.of_nat i) :: cups_).
        repeat split; auto; try congruence;
          try (now rewrite D2, Hlayers, <- app_assoc);
          try (cbn [length]; lia).
  - unfold reduce_step. rewrite Hfirst.
    destruct (Ty_eqb_spec (cod res) target) as [E|N].
    + left. exists res, []. unfold contracted. rewrite app_nil_r.
      cbn [length]. repeat split; auto; lia.
    + right. split; [reflexivity|]. exists res, [].
      unfold contracted. rewrite app_nil_r. cbn [length].
      repeat split; auto; try lia.
      now apply first_reducible_irreducible.
Qed.

Lemma eager_loop_stable (target : Ty) (fuel : nat) :
  forall (res : Diagram) (scan : Ty) (fuel' : nat),
    eager_loop fuel res scan target <> ParseDiverges ->
    (fuel <= fuel')%nat ->
    eager_loop fuel' res scan target = eager_loop fuel res scan target.
Proof.
  induction fuel as [|fuel IH]; intros res scan fuel' Hnd Hle;
    [now elim Hnd|].
  destruct fuel' as [|fuel']; [lia|]. cbn [eager_loop] in *.
  destruct (reduce_step res scan) as [[[res' scan'] fail]|e]; [|reflexivity].
  destruct (Ty_eqb (cod res') target); [reflexivity|].
  destruct fail; [reflexivity|]. apply IH; [exact Hnd|lia].
Qed.

(** X21. The eager parser always ends. Without any word it raises the
    TypeError of [reduce] on an empty sequence. With words, it takes at most
    [len(cod) / 2 + 1] turns of its loop, [cod] being the codomain of the
    tensor of the words, and it never raises an AxiomError: either it
    returns a diagram whose codomain is the target, which is the tensor of
    the words followed by cups only, or it raises NotImplementedError on a
    type that is not the target and has no two adjoint neighbours left. *)
Theorem eager_parse_ends (w : Diagram) (ws : list Diagram) (target : Ty)
        (fuel : nat) :
  let res := fold_left tensor ws w in
  (length (cod res) < 2 * fuel)%nat ->
  (forall fuel', exists m,
       eager_parse fuel' [] target = ParseRaises (TypeError m))
  /\ ((exists d cups_,
          eager_parse fuel (w :: ws) target = Parsed d
          /\ cod d = target /\ contracted res d cups_)
      \/ (eager_parse fuel (w :: ws) target = NotImplementedError
          /\ exists d cups_,
               contracted res d cups_
               /\ cod d <> target /\ irreducible (cod d)))
  /\ (forall fuel', (fuel <= fuel')%nat ->
         eager_parse fuel' (w :: ws) target
         = eager_parse fuel (w :: ws) target).
Proof.
  cbv zeta. intro Hlen. split; [|split].
  - intro fuel'. eexists. reflexivity.
  - unfold eager_parse. cbn [fold_words]. now apply eager_loop_spec.
  - intros fuel' Hle. unfold eager_parse. cbn [fold_words].
    apply eager_loop_stable; [|exact Hle].
    destruct (eager_loop_spec target fuel _ Hlen)
      as [(d & cups_ & -> & _)|(-> & _)]; discriminate.
Qed.

Example eager_parse_sentence :
  eager_parse 3 [box_diagram Alice; box_diagram loves; box_diagram Bob] ty_s
  = Parsed (mkDiagram [] ty_s
              [(Alice, 0); (loves, 1); (Bob, 4);
               (Cup ty_n (Ty_r ty_n), 0); (Cup (Ty_l ty_n) ty_n, 1)]).
Proof. reflexivity. Qed.

Lemma eager_parse_ends_witness :
  (forall fuel', exists m,
       eager_parse fuel' [] ty_s = ParseRaises (TypeError m))
  /\ ((exists d cups_,
          eager_parse 3 [box_diagram Alice; box_diagram loves; box_diagram Bob]
                      ty_s = Parsed d
          /\ cod d = ty_s /\ contracted words d cups_)
      \/ (eager_parse 3 [box_diagram Alice; box_diagram loves; box_diagram Bob]
                      ty_s = NotImplementedError
          /\ exists d cups_,
               contracted words d cups_
               /\ cod d <> ty_s /\ irreducible (cod d)))
  /\ (forall fuel', (3 <= fuel')%nat ->
         eager_parse fuel' [box_diagram Alice; box_diagram loves;
                            box_diagram Bob] ty_s
         = eager_parse 3 [box_diagram Alice; box_diagram loves;
                          box_diagram Bob] ty_s).
Proof.
  apply (eager_parse_ends (box_diagram Alice)
           [box_diagram loves; box_diagram Bob] ty_s 3).
  simpl. lia.
Defined.

(** * quantum.py: measurements and encodings as boxes *)

From Stdlib Require DecimalString.

(** [str(n)] for an integer. *)
Definition str_int (n : Z) : string :=
  DecimalString.NilZero.string_of_int (Z.to_int n).

(** [s.replace(old, new)] for a non-empty [old]: the occurrences are
    replaced from the left, without overlap. [skip] counts the characters
    of an occurrence still to be dropped. *)
Fixpoint replace_from (old new : string) (skip : nat) (s : string) : string :=
  match s with
  | EmptyString => EmptyString
  | String c s' =>
      match skip with
      | S k => replace_from old new k s'
      | O =>
          if String.prefix old s
          then String.append new
                 (replace_from old new (String.length old - 1) s')
          else String c (replace_from old new 0 s')
      end
  end.

Definition replace (old new s : string) : string := replace_from old new 0 s.

(** Modelled from the spec: [ty ** n], the tensor of [n] copies of a type
    ([monoidal.Ty.__pow__] is not among the sources); no copy for [n <= 0]. *)
Definition Ty_pow (x : Ob) (n : Z) : BitsAndQubits := repeat x (Z.to_nat n).

(** [Measure]: the box with the attributes that its constructor sets. *)
Record MeasureBox : Type := mkMeasure {
  measure_box : CircuitBox;
  destructive : bool;
  override_bits : bool;
  n_qubits : Z
}.

Record EncodeBox : Type := mkEncode {
  encode_box : CircuitBox;
  constructive : bool;
  reset_bits : bool;
  n_bits : Z
}.

(** The name, the domain and the codomain that [Measure.__init__] computes. *)
Definition Measure_name (n : Z) (destructive_ override_ : bool) : string :=
  let name0 :=
    String.append "Measure("
      (String.append (if n =? 1 then EmptyString else str_int n) ")") in
  let name1 :=
    if negb destructive_
    then replace ")" ", destructive=False)" (replace "()" "(1)" name0)
    else name0 in
  if override_
  then replace ")" ", override_bits=True)" (replace "()" "(1)" name1)
  else name1.

Definition Measure_dom (n : Z) (override_ : bool) : BitsAndQubits :=
  if override_ then Ty_pow qubit n ++ Ty_pow bit n else Ty_pow qubit n.

Definition Measure_cod (n : Z) (destructive_ : bool) : BitsAndQubits :=
  if negb destructive_ then Ty_pow qubit n ++ Ty_pow bit n else Ty_pow bit n.

(** [Measure.__init__]. *)
Definition Measure_init (n : Z) (destructive_ override_ : bool)
  : result MeasureBox :=
  box <- CircuitBox_init (Measure_name n destructive_ override_)
           (Measure_dom n override_) (Measure_cod n destructive_) true ;;
  Ok (mkMeasure box destructive_ override_ n).

(** [Encode.__init__]: the name is the one of the measurement with the same
    arguments, reworded; the domain and the codomain do not look at the
    flags. *)
Definition Encode_init (n : Z) (constructive_ reset_ : bool)
  : result EncodeBox :=
  m <- Measure_init n constructive_ reset_ ;;
  let name_ :=
    replace "override_bits" "reset_bits"
      (replace "destructive" "constructive"
         (replace "Measure" "Encode" (cbox_name (measure_box m)))) in
  box <- CircuitBox_init name_ (Ty_pow bit n) (Ty_pow qubit n) true ;;
  Ok (mkEncode box constructive_ reset_ n).

(** [Measure.dagger] and [Encode.dagger]. *)
Definition Measure_dagger (self : MeasureBox) : result EncodeBox :=
  Encode_init (n_qubits self) (destructive self) (override_bits self).

Definition Encode_dagger (self : EncodeBox) : result MeasureBox :=
  Measure_init (n_bits self) (constructive self) (reset_bits self).

Example Measure_names :
  Measure_name 1 true false = "Measure()"%string
  /\ Measure_name 2 true false = "Measure(2)"%string
  /\ Measure_name 1 false false = "Measure(1, destructive=False)"%string
  /\ Measure_name 2 false true
     = "Measure(2, destructive=False, override_bits=True)"%string.
Proof. repeat split; reflexivity. Qed.

Example Encode_name :
  exists e, Encode_init 2 false true = Ok e
            /\ cbox_name (encode_box e)
               = "Encode(2, constructive=False, reset_bits=True)"%string.
Proof. eexists. split; reflexivity. Qed.

Lemma Ty_pow_disjoint (n : Z) (t : BitsAndQubits) :
  Ty_pow bit n = t ++ Ty_pow bit n -> t = [].
Proof.
  intro H. apply (f_equal (@length Ob)) in H. rewrite length_app in H.
  destruct t; [reflexivity|cbn [length] in H; lia].
Qed.

Lemma app_eq_self {A} (t u : list A) : t = t ++ u -> u = [].
Proof.
  intro H. apply (f_equal (@length A)) in H. rewrite length_app in H.
  destruct u; [reflexivity|cbn [length] in H; lia].
Qed.

Lemma Ty_pow_nil (x : Ob) (n : Z) : Ty_pow x n = [] <-> n <= 0.
Proof.
  unfold Ty_pow. split; intro H.
  - destruct (Z.to_nat n) eqn:E; [lia|discriminate].
  - now replace (Z.to_nat n) with 0%nat by lia.
Qed.

(** X22. The dagger of a measurement is an encoding with the same arguments,
    and its dagger is the measurement again. But an encoding always goes
    from [bit ** n] to [qubit ** n], whatever its flags: the dagger of
    [Measure(n, destructive, override_bits)] has the domain and the codomain
    of the measurement exchanged only when the measurement is destructive
    and does not override bits (or has no qubit at all). *)
Theorem measure_dagger_typing (n : Z) (destructive_ override_ : bool) :
  exists m e,
    Measure_init n destructive_ override_ = Ok m
    /\ Measure_dagger m = Ok e
    /\ Encode_dagger e = Ok m
    /\ cbox_dom (encode_box e) = Ty_pow bit n
    /\ cbox_cod (encode_box e) = Ty_pow qubit n
    /\ (cbox_dom (encode_box e) = cbox_cod (measure_box m)
        /\ cbox_cod (encode_box e) = cbox_dom (measure_box m)
        <-> (destructive_ = true /\ override_ = false) \/ n <= 0).
Proof.
  do 2 eexists. split; [reflexivity|]. split; [reflexivity|].
  split; [reflexivity|]. split; [reflexivity|]. split; [reflexivity|].
  cbn [encode_box measure_box cbox_dom cbox_cod n_qubits n_bits
       destructive override_bits constructive reset_bits].
  unfold Measure_dom, Measure_cod. split.
  - intros [H1 H2].
    destruct (Z.le_gt_cases n 0) as [Hn|Hn]; [now right|left].
    destruct destructive_, override_; cbn [negb] in *; auto; exfalso.
    + apply app_eq_self, Ty_pow_nil in H2. lia.
    + apply Ty_pow_disjoint, Ty_pow_nil in H1. lia.
    + apply Ty_pow_disjoint, Ty_pow_nil in H1. lia.
  - intros [[-> ->]|Hn]; [split; reflexivity|].
    rewrite !(proj2 (Ty_pow_nil _ n) Hn).
    destruct destructive_, override_; split; reflexivity.
Qed.

(** * quantum.py: the counts of a circuit *)

Lemma bitstring2index_inj (bs bs' : list Z) :
  Forall is_bit bs -> Forall is_bit bs' ->
  List.length bs = List.length bs' ->
  bitstring2index bs = bitstring2index bs' -> bs = bs'.
Proof.
  intros H H' Hlen Hidx. unfold bitstring2index in Hidx.
  apply sum_enumerate_inj in Hidx.
  - now rewrite <- (rev_involutive bs), Hidx, rev_involutive.
  - now apply Forall_rev.
  - now apply Forall_rev.
  - now rewrite !length_rev.
Qed.

Section GetCounts.

(** The tensor that the circuit evaluates to ([Circuit.eval] goes through
    [discopy.tensor], which is not among the sources): the number of its
    output wires and its entries, indexed by bitstrings. [nonzero] is the
    truth value of an entry, [float] the conversion of the entry kept. *)
Variable entry_type : Type.
Variable n_out : nat.
Variable tensor_array : list Z -> entry_type.
Variable nonzero : entry_type -> bool.
Variable float : entry_type -> entry_type.

(** A dict keyed by bitstrings, in insertion order. *)
Definition counts_dict : Type := list (list Z * entry_type).

Definition bitstring_eqb (a b : list Z) : bool :=
  if list_eq_dec Z.eq_dec a b then true else false.

(** [counts[bits] = value]. *)
Fixpoint dict_set (counts : counts_dict) (bits : list Z) (value : entry_type)
  : counts_dict :=
  match counts with
  | [] => [(bits, value)]
  | (k, v) :: counts' =>
      if bitstring_eqb k bits then (k, value) :: counts'
      else (k, v) :: dict_set counts' bits value
  end.

(** The loop of [get_counts] without a backend. *)
Fixpoint counts_loop (range : list Z) (counts : counts_dict)
  : result counts_dict :=
  match range with
  | [] => Ok counts
  | i :: range' =>
      bits <- index2bitstring i n_out ;;
      counts_loop range'
        (if nonzero (tensor_array bits)
         then dict_set counts bits (float (tensor_array bits))
         else counts)
  end.

Definition get_counts : result counts_dict :=
  counts_loop (map Z.of_nat (seq 0 (2 ^ n_out))) [].

Definition count_of (bits : list Z) : list Z * entry_type :=
  (bits, float (tensor_array bits)).

Lemma dict_set_new (keys : list (list Z)) (bits : list Z) :
  ~ In bits keys ->
  dict_set (map count_of keys) bits (float (tensor_array bits))
  = map count_of (keys ++ [bits]).
Proof.
  intro H. induction keys as [|k keys IH]; cbn [map dict_set app];
    [reflexivity|].
  change (count_of k) with (k, float (tensor_array k)) at 1.
  cbn [dict_set]. unfold bitstring_eqb.
  destruct (list_eq_dec Z.eq_dec k bits) as [E|_]; [elim H; now left|].
  rewrite IH; [reflexivity|]. intro Hin. apply H. now right.
Qed.

(** The bitstrings that get a count. *)
Definition counted (bound : Z) (bits : list Z) : Prop :=
  List.length bits = n_out /\ Forall is_bit bits
  /\ bitstring2index bits < bound
  /\ nonzero (tensor_array bits) = true.

Lemma counts_loop_spec (m : nat) :
  forall (a : nat) (keys : list (list Z)),
    (a + m = 2 ^ n_out)%nat ->
    NoDup keys ->
    (forall bits, In bits keys <-> counted (Z.of_nat a) bits) ->
    exists keys',
      counts_loop (map Z.of_nat (seq a m)) (map count_of keys)
      = Ok (map count_of keys')
      /\ NoDup keys'
      /\ (forall bits, In bits keys' <-> counted (2 ^ Z.of_nat n_out) bits).
Proof.
  induction m as [|m IH]; intros a keys Ha Hnd Hkeys; cbn [seq map counts_loop].
  - assert (Ea : Z.of_nat a = 2 ^ Z.of_nat n_out)
      by (rewrite Nat.add_0_r in Ha; rewrite Ha, Nat2Z.inj_pow; reflexivity).
    exists keys. split; [reflexivity|]. split; [exact Hnd|].
    intro bits. rewrite <- Ea. apply Hkeys.
  - assert (Hrange : 0 <= Z.of_nat a < 2 ^ Z.of_nat n_out).
    { split; [lia|]. change 2 with (Z.of_nat 2).
      rewrite <- Nat2Z.inj_pow. lia. }
    destruct (index2bitstring_in_range _ _ Hrange)
      as (bits & -> & Hidx & Hlen & Hbits).
    cbn [bind].
    assert (Hstep : forall bs, counted (Z.of_nat (S a)) bs
                               <-> counted (Z.of_nat a) bs
                                   \/ (bs = bits
                                       /\ nonzero (tensor_array bits) = true)).
    { intro bs. unfold counted. split.
      - intros (L & B & I & N).
        destruct (Z.eq_dec (bitstring2index bs) (Z.of_nat a)) as [E|E].
        + right. assert (bs = bits)
            by (apply bitstring2index_inj; auto; congruence).
          subst bs. auto.
        + left. repeat split; auto. lia.
      - intros [(L & B & I & N)|[-> N]]; repeat split; auto; lia. }
    destruct (nonzero (tensor_array bits)) eqn:Hnz.
    + assert (Hnew : ~ In bits keys).
      { intro Hin. apply Hkeys in Hin. destruct Hin as (_ & _ & I & _). lia. }
      rewrite (dict_set_new keys bits Hnew).
      apply (IH (S a) (keys ++ [bits])); [lia| |].
      * apply NoDup_app; [exact Hnd|repeat constructor; intros []|].
        intros x Hx [<-|[]]. contradiction.
      * intro bs. rewrite in_app_iff, Hstep, Hkeys. cbn [In].
        split; [intros [H|[H|[]]]; auto|intros [H|[H _]]; auto].
    + apply (IH (S a) keys); [lia|exact Hnd|].
      intro bs. rewrite Hstep, Hkeys.
      split; [auto|intros [H|[_ H]]; [exact H|discriminate]].
Qed.

(** X23. Without a backend, the loop of [get_counts] never raises:
    [index2bitstring] is only called on indices below [2 ** n]. The dict it
    returns has, once each, exactly the bitstrings of length [n] whose
    entry in the tensor is not zero, with the entry converted to a float;
    none of them is ever overwritten. *)
Theorem get_counts_spec :
  exists keys,
    get_counts = Ok (map count_of keys)
    /\ NoDup keys
    /\ (forall bits,
           In bits keys <->
           List.length bits = n_out /\ Forall is_bit bits
           /\ nonzero (tensor_array bits) = true).
Proof.
  destruct (counts_loop_spec (2 ^ n_out) 0 []) as (keys & Hk & Hnd & Hin).
  - lia.
  - constructor.
  - intro bits. split; [intros []|].
    intros (L & B & I & _).
    assert (0 <= bitstring2index bits).
    { unfold bitstring2index.
      apply (sum_enumerate_range (rev bits)). now apply Forall_rev. }
    cbn in I. lia.
  - exists keys. split; [exact Hk|]. split; [exact Hnd|].
    intro bits. rewrite Hin. unfold counted. split.
    + intros (L & B & _ & N). auto.
    + intros (L & B & N). repeat split; auto.
      rewrite <- L. unfold bitstring2index. rewrite <- (length_rev bits).
      apply sum_enumerate_range. now apply Forall_rev.
Qed.

End GetCounts.

(** * rigid.py: the identity functor *)

(** [Functor(ob={x: x}, ar={f: f})]: every object of winding number zero
    and every box that is not a cup or a cap is its own image. *)
Definition identity_functor : Functor :=
  mkFunctor Diagram_Target
    (fun x => Some [mkOb x 0])
    (fun b => match b with
              | Cup _ _ | Cap _ _ => None
              | _ => Some (box_diagram b)
              end).

Lemma iter_r_singleton (x : string) (k : nat) :
  Nat.iter k Ty_r [mkOb x 0] = [mkOb x (Z.of_nat k)].
Proof.
  induction k as [|k IH]; [reflexivity|].
  change (Nat.iter (S k) Ty_r [mkOb x 0]) with (Ty_r (Nat.iter k Ty_r [mkOb x 0])).
  rewrite IH. unfold Ty_r, Ob_r. cbn [rev app map name z].
  do 2 f_equal. lia.
Qed.

Lemma iter_l_singleton (x : string) (k : nat) :
  Nat.iter k Ty_l [mkOb x 0] = [mkOb x (- Z.of_nat k)].
Proof.
  induction k as [|k IH]; [reflexivity|].
  change (Nat.iter (S k) Ty_l [mkOb x 0]) with (Ty_l (Nat.iter k Ty_l [mkOb x 0])).
  rewrite IH. unfold Ty_l, Ob_l. cbn [rev app map name z].
  do 2 f_equal. lia.
Qed.

Lemma identity_adjoint (x : Ob) : adjoint identity_functor x = Ok [x].
Proof.
  destruct x as [n k]. unfold adjoint. cbn [identity_functor ob name z].
  change (@t_l Diagram_Target) with Ty_l. change (@t_r Diagram_Target) with Ty_r.
  destruct (Z.ltb_spec k 0).
  - rewrite iter_l_singleton. do 3 f_equal. lia.
  - destruct (Z.gtb_spec k 0).
    + rewrite iter_r_singleton. do 3 f_equal. lia.
    + do 3 f_equal. lia.
Qed.

Lemma identity_F_ty (t : Ty) : F_ty identity_functor t = Ok t.
Proof.
  induction t as [|x t IH]; [reflexivity|].
  change (x :: t) with ([x] ++ t).
  apply (F_ty_app identity_functor [x] t [x] t); [|exact IH].
  unfold F_ty. cbn [mapM]. rewrite identity_adjoint. reflexivity.
Qed.

Lemma identity_F_box (b : Box) :
  built_by_constructor b -> F_box identity_functor b = Ok (box_diagram b).
Proof.
  destruct b as [n d c dt dg|l r|l r|l r]; cbn [built_by_constructor];
    intro H; try reflexivity.
  - destruct (Cup_init_Ok _ _ _ H) as (_ & Hl & Hr & E & _).
    destruct l as [|x [|? ?]]; try discriminate. subst r.
    cbn [F_box box_dom app slice_to slice_from firstn skipn].
    rewrite !identity_F_ty. cbn [bind].
    change (@tcups Diagram_Target) with cups.
    rewrite cups_adjoint. reflexivity.
  - destruct (Cap_init_Ok _ _ _ H) as (_ & Hl & Hr & E & _).
    destruct r as [|y [|? ?]]; try discriminate. subst l.
    cbn [F_box box_cod app slice_to slice_from firstn skipn Ty_r rev map].
    rewrite !identity_F_ty. cbn [bind].
    change (@tcaps Diagram_Target) with caps.
    change [Ob_r y] with (Ty_r [y]).
    rewrite caps_adjoint. reflexivity.
Qed.

Lemma identity_F_layers (ls : list (Box * Z)) :
  forall (scan cod_ dm : Ty) (ls0 : list (Box * Z)),
    well_typed_from scan ls cod_ ->
    Forall built_by_constructor (map fst ls) ->
    F_layers identity_functor scan (mkDiagram dm scan ls0) ls
    = Ok (mkDiagram dm cod_ (ls0 ++ ls)).
Proof.
  induction ls as [|[b off] ls IH]; intros scan cod_ dm ls0 Hwt Hb;
    cbn [well_typed_from F_layers map fst snd] in *.
  - subst. now rewrite app_nil_r.
  - destruct Hwt as (_ & left_ & right_ & -> & Hoff & Hwt).
    inversion_clear Hb as [|? ? Hb1 Hb2].
    destruct (scan_step_split left_ right_ (b, off) Hoff) as (E1 & E2 & E3).
    cbn [fst snd] in E1, E2, E3.
    unfold layer_image. cbn [fst snd].
    rewrite E1, E2, !identity_F_ty, (identity_F_box b Hb1). cbn [bind].
    change (@atensor Diagram_Target) with tensor.
    change (@tid Diagram_Target) with Id.
    change (@tthen Diagram_Target) with then_.
    rewrite tensor_Id_box_Id, then_Ok by reflexivity.
    cbn [bind dom cod layers]. rewrite E3, Hoff.
    rewrite (IH _ cod_ dm (ls0 ++ [(b, off)]) Hwt Hb2).
    now rewrite <- app_assoc.
Qed.

(** X24. The identity functor is the identity: the functor that sends every
    object and every box to itself sends every well-typed diagram whose
    cups and caps their constructors accept to itself, cups and caps
    included, although it holds no image for them. *)
Theorem identity_functor_is_identity (d : Diagram) :
  well_typed d -> Forall built_by_constructor (boxes d) ->
  F_diagram identity_functor d = Ok d.
Proof.
  intros Hwt Hb. unfold F_diagram. rewrite identity_F_ty. cbn [bind].
  change (@tid Diagram_Target (dom d)) with (mkDiagram (dom d) (dom d) []).
  rewrite (identity_F_layers _ _ (cod d) _ _ Hwt Hb). now destruct d.
Qed.

Lemma identity_functor_is_identity_witness :
  F_diagram identity_functor grammar = Ok grammar.
Proof.
  apply (identity_functor_is_identity grammar).
  - unfold well_typed, grammar. cbn.
    split; [lia|]. exists [], (ty_s ++ Ty_l ty_n ++ ty_n).
    split; [reflexivity|]. split; [reflexivity|].
    split; [lia|]. exists ty_s, [].
    split; [reflexivity|]. split; reflexivity.
  - repeat constructor.
Defined.

(** * rigid.py: when a functor is defined *)

Section FunctorDefined.

Context `{T : Target}.
Variable F : Functor.

(** The right adjoint of the target undoes the left one and reverses the
    tensor, and the target has the cups and caps of every type with its
    right adjoint. *)
Hypothesis t_r_l : forall a, t_r (t_l a) = a.
Hypothesis t_r_tensor : forall a b, t_r (ttensor a b) = ttensor (t_r b) (t_r a).
Hypothesis t_r_unit : t_r tunit = tunit.
Hypothesis tcups_defined : forall a, exists f, tcups a (t_r a) = Ok f.
Hypothesis tcaps_defined : forall a, exists f, tcaps (t_r a) a = Ok f.








End FunctorDefined.


(** * quantum.py: how a type of bits and qubits is printed *)

(** [itertools.takewhile]. *)
Fixpoint takewhile {A} (p : A -> bool) (l : list A) : list A :=
  match l with
  | [] => []
  | x :: l' => if p x then x :: takewhile p l' else []
  end.

(** [sep.join(parts)]. *)
Fixpoint join (sep : string) (parts : list string) : string :=
  match parts with
  | [] => EmptyString
  | [s] => s
  | s :: parts' => String.append s (String.append sep (join sep parts'))
  end.

(** ["bit ** n"], ["bit"] or nothing. *)
Definition power_repr (base : string) (n : nat) : string :=
  if (n =? 0)%nat then EmptyString
  else String.append base
         (if (1 <? n)%nat
          then String.append " ** " (str_int (Z.of_nat n))
          else EmptyString).

Definition nonempty (s : string) : bool :=
  match s with EmptyString => false | _ => true end.

(** [BitsAndQubits.__repr__]; [fuel] bounds the depth of the recursion, and
    [None] is the recursion that never returns. *)
Fixpoint BitsAndQubits_repr (fuel : nat) (self : BitsAndQubits)
  : option string :=
  match fuel with
  | O => None
  | S fuel' =>
      match self with
      | [] => Some "Ty()"%string
      | _ =>
          let n_bits :=
            length (takewhile (fun x => String.eqb (name x) "bit") self) in
          let n_qubits :=
            length (takewhile (fun x => String.eqb (name x) "qubit")
                              (slice_from n_bits self)) in
          let remainder := slice_from (n_bits + n_qubits) self in
          let left_ := power_repr "bit" n_bits in
          let middle_ := power_repr "qubit" n_qubits in
          match (match remainder with
                 | [] => Some EmptyString
                 | _ => BitsAndQubits_repr fuel' remainder
                 end) with
          | None => None
          | Some right_ =>
              Some (join " @ " (filter nonempty [left_; middle_; right_]))
          end
      end
  end.

Example BitsAndQubits_repr_docstring :
  BitsAndQubits_repr 6 [bit; bit; qubit; qubit; qubit]
  = Some "bit ** 2 @ qubit ** 3"%string
  /\ BitsAndQubits_repr 3 [qubit; bit; qubit]
     = Some "qubit @ bit @ qubit"%string
  /\ BitsAndQubits_repr 2 [qubit] = Some "qubit"%string.
Proof. repeat split; reflexivity. Qed.

Definition bit_or_qubit_name (x : Ob) : Prop :=
  name x = "bit"%string \/ name x = "qubit"%string.

Lemma takewhile_length {A} (p : A -> bool) (l : list A) :
  (length (takewhile p l) <= length l)%nat.
Proof.
  induction l as [|x l IH]; cbn [takewhile length]; [lia|].
  destruct (p x); cbn [length]; lia.
Qed.

Lemma Forall_skipn_of {A} (P : A -> Prop) (n : nat) (l : list A) :
  Forall P l -> Forall P (skipn n l).
Proof.
  intro H. rewrite <- (firstn_skipn n l) in H.
  now apply Forall_app in H.
Qed.

Lemma BitsAndQubits_repr_returns (fuel : nat) :
  forall t : BitsAndQubits,
    Forall bit_or_qubit_name t ->
    (length t < fuel)%nat ->
    exists s, forall fuel', (fuel <= fuel')%nat ->
                            BitsAndQubits_repr fuel' t = Some s.
Proof.
  induction fuel as [|fuel IH]; intros t Ht Hlen; [lia|].
  destruct t as [|x t].
  - exists "Ty()"%string. intros [|fuel'] H; [lia|reflexivity].
  - set (self := x :: t) in *.
    set (n_bits := length (takewhile (fun y => String.eqb (name y) "bit") self)).
    set (n_qubits := length (takewhile (fun y => String.eqb (name y) "qubit")
                                       (slice_from n_bits self))).
    assert (Hpos : (0 < n_bits + n_qubits)%nat).
    { inversion_clear Ht as [|? ? Hx _]. unfold n_qubits, n_bits, self.
      cbn [takewhile].
      destruct Hx as [E|E]; rewrite E; cbn; rewrite ?E; cbn;
        apply Nat.lt_0_succ. }
    assert (Hrem : Forall bit_or_qubit_name (slice_from (n_bits + n_qubits) self))
      by now apply Forall_skipn_of.
    assert (Hshort : (length (slice_from (n_bits + n_qubits) self) < fuel)%nat).
    { unfold slice_from. rewrite length_skipn. unfold self in *.
      cbn [length] in *. lia. }
    destruct (IH _ Hrem Hshort) as [s Hs].
    exists (join " @ "
              (filter nonempty
                 [power_repr "bit" n_bits; power_repr "qubit" n_qubits;
                  match slice_from (n_bits + n_qubits) self with
                  | [] => EmptyString
                  | _ => s
                  end])).
    intros [|fuel'] Hle; [lia|].
    cbn [BitsAndQubits_repr]. unfold self at 1.
    fold self. fold n_bits. fold n_qubits.
    destruct (slice_from (n_bits + n_qubits) self) as [|y r] eqn:E;
      [reflexivity|].
    rewrite Hs by lia. reflexivity.
Qed.

(** X26. Printing a type of bits and qubits ends when all its objects are
    named [bit] or [qubit]: the recursion on the remainder gets a shorter
    type each time, so [len(t) + 1] levels are enough and more change
    nothing. On a type whose first object has another name, nothing is
    taken off and the recursion never returns. *)
Theorem BitsAndQubits_repr_ends (t : BitsAndQubits) :
  (Forall bit_or_qubit_name t ->
   exists s, forall fuel, (length t < fuel)%nat ->
                          BitsAndQubits_repr fuel t = Some s)
  /\ (forall x, hd_error t = Some x ->
                name x <> "bit"%string -> name x <> "qubit"%string ->
                forall fuel, BitsAndQubits_repr fuel t = None).
Proof.
  split.
  - intro H.
    destruct (BitsAndQubits_repr_returns (S (length t)) t H
                (Nat.lt_succ_diag_r _)) as [s Hs].
    exists s. intros fuel Hf. apply Hs. lia.
  - intros x Hx Nb Nq fuel. destruct t as [|y t]; [discriminate|].
    injection Hx as ->.
    induction fuel as [|fuel IH]; [reflexivity|].
    cbn [BitsAndQubits_repr takewhile].
    apply String.eqb_neq in Nb, Nq. rewrite Nb. cbn [length slice_from skipn].
    cbn [takewhile]. rewrite Nq. cbn [length Nat.add skipn].
    change (slice_from 0 (x :: t)) with (x :: t). now rewrite IH.
Qed.
